(** * shenfun.matrixbase: sparse diagonal matrices and tensor-product matrices

    A shallow embedding of [shenfun/matrixbase.py].

    - Python floats and numpy float64 entries are IEEE binary64 numbers,
      embedded as Rocq's primitive [float] (same rounding, same special
      values).
    - A numpy 1-D array is a mutable object: it lives in a heap of arrays
      and is named by its location, so that two dictionaries holding the
      same array are seen to share it.
    - A Python [dict] is an association list in insertion order with unique
      keys.
    - Matrix objects are records; a method that mutates one of its
      arguments returns the updated record next to its result.
    - A raised exception is the [Raise] result. *)

From Stdlib Require Import ZArith Floats String.
From stdpp Require Import sorting base option.
From stdpp Require Import list.

Local Open Scope Z_scope.
#[local] Set Warnings "-inexact-float".

(** ** Exceptions and the heap monad *)

Inductive exn :=
| AssertionError | KeyError | ValueError | IndexError | RuntimeError
| NotImplementedError | ZeroDivisionError | AttributeError | TypeError
| UnboundLocalError.

Inductive result (A : Type) :=
| Ok (a : A)
| Raise (e : exn).
Arguments Ok {A} a.
Arguments Raise {A} e.

Definition rbind {A B} (r : result A) (k : A -> result B) : result B :=
  match r with Ok a => k a | Raise e => Raise e end.

(** The heap: location [l] holds the contents of the numpy array created
    [l]-th.  A location outside the heap reads as the empty array; no
    well-formed object holds one. *)
Abbreviation loc := nat (only parsing).
Abbreviation heap := (list (list float)) (only parsing).

Definition harr (h : heap) (l : loc) : list float := default [] (h !! l).

Definition M (A : Type) := heap -> result (A * heap).

Definition ret {A} (a : A) : M A := fun h => Ok (a, h).
Definition raise {A} (e : exn) : M A := fun _ => Raise e.
Definition bind {A B} (m : M A) (k : A -> M B) : M B :=
  fun h => match m h with Ok (a, h') => k a h' | Raise e => Raise e end.
Definition lift {A} (f : heap -> result A) : M A :=
  fun h => match f h with Ok a => Ok (a, h) | Raise e => Raise e end.

Notation "'let*' x ':=' m 'in' k" := (bind m (fun x => k))
  (at level 10, x pattern, m at level 100, k at level 200).
Notation "'let+' x ':=' m 'in' k" := (rbind m (fun x => k))
  (at level 10, x pattern, m at level 100, k at level 200).

(** [np.array(...)] / [arr.copy()]: a new array object. *)
Definition alloc (a : list float) : M loc := fun h => Ok (length h, h ++ [a]).

(** [arr[i] = x]: in-place store into an existing array. *)
Definition arr_setitem (l : loc) (i : nat) (x : float) : M unit :=
  fun h => if decide (i < length (harr h l))%nat
           then Ok (tt, <[l := <[i := x]> (harr h l)]> h)
           else Raise IndexError.

(** ** Python dictionaries with integer keys *)

Section Dict.
Context {V : Type}.

Definition dict := list (Z * V).

Fixpoint dict_get (k : Z) (d : dict) : option V :=
  match d with
  | [] => None
  | (k', v) :: r => if k =? k' then Some v else dict_get k r
  end.

Fixpoint dict_set (k : Z) (v : V) (d : dict) : dict :=
  match d with
  | [] => [(k, v)]
  | (k', v') :: r => if k =? k' then (k', v) :: r else (k', v') :: dict_set k v r
  end.

Definition dict_keys (d : dict) : list Z := map fst d.

Definition dict_contains (k : Z) (d : dict) : bool :=
  match dict_get k d with Some _ => true | None => false end.
End Dict.
Arguments dict V : clear implicits.

(** ** Floating-point helpers (numpy elementwise operations) *)

Definition fsum_sq (l : list float) : float :=
  fold_left (fun s x => (s + x * x)%float) l 0%float.

(** [np.linalg.norm] of a 1-D real array: the square root of the sum of the
    squares, summed here from left to right. *)
Definition norm (l : list float) : float := PrimFloat.sqrt (fsum_sq l).

(** numpy broadcasting of a binary operation over two 1-D operands; a Python
    scalar is passed as a one-element list. *)
Definition broadcast2 (op : float -> float -> float) (a b : list float)
  : result (list float) :=
  if decide (length a = length b) then Ok (zip_with op a b)
  else match a, b with
       | [x], _ => Ok (map (op x) b)
       | _, [y] => Ok (map (fun x => op x y) a)
       | _, _ => Raise ValueError
       end.

(** ** Diagonal values *)

(** A stored diagonal is a Python number or a numpy array object. *)
Inductive dval :=
| Scalar (x : float)
| Arr (l : loc).

(** The entries of a value, as [np.atleast_1d] gives them. *)
Definition dentries (h : heap) (v : dval) : list float :=
  match v with Scalar x => [x] | Arr l => harr h l end.

(** [a op b] for two stored values: numbers give a number, anything else a
    new array. *)
Definition dval_binop (op : float -> float -> float) (a b : dval) : M dval :=
  match a, b with
  | Scalar x, Scalar y => ret (Scalar (op x y))
  | _, _ =>
      fun h => match broadcast2 op (dentries h a) (dentries h b) with
               | Ok r => Ok (Arr (length h), h ++ [r])
               | Raise e => Raise e
               end
  end.

(** [val * s] / [-val] for a stored value and a Python number. *)
Definition dval_map (f : float -> float) (a : dval) : M dval :=
  match a with
  | Scalar x => ret (Scalar (f x))
  | Arr l => fun h => Ok (Arr (length h), h ++ [map f (harr h l)])
  end.

(** ** Classes, keys *)

(** What the code asks of a basis: its class and its boundary-condition
    role. *)
Record basis := { bclass : string; boundary_condition : string }.

Inductive pyclass :=
| SparseMatrix_cls
| Identity_cls
| SpectralMatrix_cls (name : string) (test trial : basis * Z).

(** Hash values, as CPython computes them on a 64-bit platform.

    [hash(n)] of an integer is [n] modulo [2^61 - 1] with the sign of [n],
    and -2 where that gives -1: the integers -1 and -2 have one hash. *)
Definition hash_int (k : Z) : Z :=
  let x := Z.abs k mod (2 ^ 61 - 1) in
  let x := if k <? 0 then - x else x in
  if x =? -1 then -2 else x.

Definition u64 (x : Z) : Z := x mod 2 ^ 64.

(** [hash(frozenset(keys))]: the hashes of the members are shuffled and
    combined by exclusive or, then the number of members is mixed in. *)
Definition shuffle_bits (h : Z) : Z :=
  u64 (Z.lxor (Z.lxor h 89869747) (u64 (Z.shiftl h 16)) * 3644798167).

Definition frozenset_hash (keys : list Z) : Z :=
  let ks := remove_dups keys in
  let h0 := foldr (fun k acc => Z.lxor acc (shuffle_bits (u64 (hash_int k)))) 0 ks in
  let h1 := Z.lxor h0 (u64 ((Z.of_nat (length ks) + 1) * 1927868237)) in
  let h2 := Z.lxor h1 (Z.lxor (Z.shiftr h1 11) (Z.shiftr h1 25)) in
  let h3 := u64 (h2 * 69069 + 907133923) in
  if h3 =? 2 ^ 64 - 1 then 590923713 else h3.

(** The keys that [__hash__] and [get_key] return: the hash of the frozen
    set of the offsets, the hash of the tuple
    [((class, int), (class, int))], or a class name.  The hash of a class
    is its address, so the hash of a tuple is not computed: two such hashes
    are taken to be equal when the classes are the same and the integers
    have the same hash, and to differ from the hash of every frozen set. *)
Inductive pykey :=
| KFrozenset (ks : list Z)
| KTuple (tc : string) (k : Z) (rc : string) (q : Z)
| KStr (s : string).

#[global] Arguments hash_int : simpl never.
#[global] Arguments frozenset_hash : simpl never.

Definition pykey_eqb (a b : pykey) : bool :=
  match a, b with
  | KFrozenset x, KFrozenset y => frozenset_hash x =? frozenset_hash y
  | KTuple a1 a2 a3 a4, KTuple b1 b2 b3 b4 =>
      String.eqb a1 b1 && (hash_int a2 =? hash_int b2) &&
      String.eqb a3 b3 && (hash_int a4 =? hash_int b4)
  | KStr s, KStr t => String.eqb s t
  | _, _ => false
  end.

(** ** SparseMatrix *)

Record SparseMatrix := mkSparseMatrix {
  _storage : dict dval;
  shape : nat * nat;
  scale : float;
  cls : pyclass
}.

Definition set_scale (A : SparseMatrix) (s : float) : SparseMatrix :=
  mkSparseMatrix (_storage A) (shape A) s (cls A).
Definition set_storage (A : SparseMatrix) (d : dict dval) : SparseMatrix :=
  mkSparseMatrix d (shape A) (scale A) (cls A).

(** [SparseMatrix(d, shape, scale)] and [Identity(shape, scale)]. *)
Definition SparseMatrix_new (d : dict dval) (sh : nat * nat) (s : float) :=
  mkSparseMatrix d sh s SparseMatrix_cls.
Definition Identity (sh : nat * nat) (s : float) :=
  mkSparseMatrix [(0, Scalar 1%float)] sh s Identity_cls.

Definition __len__ (A : SparseMatrix) : nat := length (_storage A).

(** [self[key]] *)
Definition __getitem__ (A : SparseMatrix) (key : Z) : result dval :=
  match dict_get key (_storage A) with
  | Some v => Ok v
  | None => Raise KeyError
  end.

Definition __setitem__ (A : SparseMatrix) (key : Z) (v : dval) : SparseMatrix :=
  set_storage A (dict_set key v (_storage A)).

Definition endswith_mat (s : string) : bool :=
  let n := String.length s in
  (3 <=? n)%nat && String.eqb (substring (n - 3) 3 s) "mat".

Definition __hash__ (A : SparseMatrix) : pykey :=
  match cls A with
  | SpectralMatrix_cls _ (tb, k) (rb, q) => KTuple (bclass tb) k (bclass rb) q
  | _ => KFrozenset (dict_keys (_storage A))
  end.

Definition get_key (A : SparseMatrix) : pykey :=
  match cls A with
  | SpectralMatrix_cls name _ _ => if endswith_mat name then KStr name else __hash__ A
  | _ => __hash__ A
  end.

Definition same_keys (A a : SparseMatrix) : bool :=
  pykey_eqb (__hash__ A) (__hash__ a).

Definition is_bc_matrix (A : SparseMatrix) : bool :=
  match cls A with
  | SpectralMatrix_cls _ _ (rb, _) => String.eqb (boundary_condition rb) "Apply"
  | _ => false
  end.

(** ** scipy.sparse.diags and the CSR data vector *)

(** Number of entries of diagonal [k] that [scipy.sparse.diags] fills in a
    matrix of shape [(m, n)]: [min(m + k, n - k, min(m, n))]. *)
Definition diag_length (sh : nat * nat) (k : Z) : Z :=
  let m := Z.of_nat (fst sh) in
  let n := Z.of_nat (snd sh) in
  Z.min (Z.min (m + k) (n - k)) (Z.min m n).

(** One diagonal as [scipy.sparse.diags] lays it out: the offset must be in
    bounds, the given values are cut to the diagonal's length, and a single
    value is broadcast. *)
Definition sp_diag (sh : nat * nat) (k : Z) (a : list float) : result (list float) :=
  let len := diag_length sh k in
  if len <? 0 then Raise ValueError
  else
    let rhs := take (Z.to_nat len) a in
    if decide (length rhs = Z.to_nat len) then Ok rhs
    else match rhs with
         | [x] => Ok (replicate (Z.to_nat len) x)
         | _ => Raise ValueError
         end.

Fixpoint sp_diags_rows (h : heap) (sh : nat * nat) (d : dict dval)
  : result (dict (list float)) :=
  match d with
  | [] => Ok []
  | (k, v) :: r =>
      let+ a := sp_diag sh k (dentries h v) in
      let+ r' := sp_diags_rows h sh r in
      Ok ((k, a) :: r')
  end.

(** [scipy.sparse.diags(values, keys, shape)]: at least one diagonal is
    needed. *)
Definition sp_diags (h : heap) (sh : nat * nat) (d : dict dval)
  : result (dict (list float)) :=
  match d with
  | [] => Raise ValueError
  | _ => sp_diags_rows h sh d
  end.

(** Entry [(r, c)] of the assembled matrix, if a diagonal covers it. *)
Definition entry (D : dict (list float)) (r c : nat) : option float :=
  match dict_get (Z.of_nat c - Z.of_nat r) D with
  | Some a => a !! (Nat.min r c)
  | None => None
  end.

(** The [.data] vector of the CSR form: the stored entries that are not
    [== 0], row by row, by increasing column. *)
Definition csr_row (D : dict (list float)) (n r : nat) : list float :=
  omap (fun c => match entry D r c with
                 | Some x => if (x =? 0)%float then None else Some x
                 | None => None
                 end) (seq 0 n).

Definition csr_data_of (D : dict (list float)) (sh : nat * nat) : list float :=
  concat (map (csr_row D (snd sh)) (seq 0 (fst sh))).

(** [self.diags('csr', False).data] *)
Definition diags_csr_data (h : heap) (A : SparseMatrix) : result (list float) :=
  let+ D := sp_diags h (shape A) (_storage A) in
  Ok (csr_data_of D (shape A)).

(** ** Equality *)

Definition shape_eqb (a b : nat * nat) : bool :=
  Nat.eqb (fst a) (fst b) && Nat.eqb (snd a) (snd b).

(** The common tail of both [__eq__] methods. *)
Definition eq_data (h : heap) (A a : SparseMatrix) : result bool :=
  let+ d0 := diags_csr_data h A in
  let+ a0 := diags_csr_data h a in
  if negb (Nat.eqb (length d0) (length a0)) then Ok false
  else if negb (norm (zip_with PrimFloat.sub d0 a0) <? 1e-8)%float then Ok false
  else Ok true.

Definition SparseMatrix___eq__ (h : heap) (A a : SparseMatrix) : result bool :=
  if negb (shape_eqb (shape A) (shape a)) then Ok false
  else if negb (same_keys A a) then Ok false
  else eq_data h A a.

Definition SpectralMatrix___eq__ (h : heap) (A a : SparseMatrix) : result bool :=
  if negb (shape_eqb (shape A) (shape a)) then Ok false
  else if negb (pykey_eqb (get_key A) (get_key a)) then Ok false
  else eq_data h A a.

(** [type(A).__eq__(A, a)] *)
Definition method___eq__ (h : heap) (A a : SparseMatrix) : result bool :=
  match cls A with
  | SpectralMatrix_cls _ _ _ => SpectralMatrix___eq__ h A a
  | _ => SparseMatrix___eq__ h A a
  end.

(** [A == a].  Python gives the right operand's method the first try when
    its class is a proper subclass of the left operand's class. *)
Definition py_eq (h : heap) (A a : SparseMatrix) : result bool :=
  match cls A, cls a with
  | SparseMatrix_cls, Identity_cls
  | SparseMatrix_cls, SpectralMatrix_cls _ _ _ => method___eq__ h a A
  | _, _ => method___eq__ h A a
  end.

(** ** Copies *)

(** [deepcopy] of the values of a dictionary: every array is copied once
    ([memo] maps an array already met to its copy), numbers are shared. *)
Fixpoint memo_get (l : loc) (memo : list (loc * loc)) : option loc :=
  match memo with
  | [] => None
  | (a, b) :: r => if Nat.eqb l a then Some b else memo_get l r
  end.

Fixpoint deepcopy_items (d : dict dval) (memo : list (loc * loc)) : M (dict dval) :=
  match d with
  | [] => ret []
  | (k, Scalar x) :: r =>
      let* r' := deepcopy_items r memo in
      ret ((k, Scalar x) :: r')
  | (k, Arr l) :: r =>
      match memo_get l memo with
      | Some l' =>
          let* r' := deepcopy_items r memo in
          ret ((k, Arr l') :: r')
      | None =>
          fun h =>
            (let* l' := alloc (harr h l) in
             let* r' := deepcopy_items r ((l, l') :: memo) in
             ret ((k, Arr l') :: r')) h
      end
  end.

(** [deepcopy(dict(self))] *)
Definition deepcopy_dict (A : SparseMatrix) : M (dict dval) :=
  deepcopy_items (_storage A) [].

(** [self.copy()], that is [self.__deepcopy__()]. *)
Definition copy (A : SparseMatrix) : M SparseMatrix :=
  match cls A with
  | Identity_cls => ret (Identity (shape A) (scale A))
  | _ =>
      let* d := deepcopy_dict A in
      ret (SparseMatrix_new d (shape A) (scale A))
  end.

(** ** Scalar multiplication and division *)

(** [self.__imul__(y)], [y] a number: the updated [self]. *)
Definition __imul__ (A : SparseMatrix) (y : float) : SparseMatrix :=
  set_scale A (scale A * y)%float.

(** [self.__mul__(y)] for a number [y]. *)
Definition __mul__ (A : SparseMatrix) (y : float) : M SparseMatrix :=
  let* c := copy A in
  ret (set_scale c (scale c * y)%float).

(** [self.__div__(y)] for a number [y]. *)
Definition __div__ (A : SparseMatrix) (y : float) : M SparseMatrix :=
  if negb (1e-8 <? abs y)%float then raise AssertionError
  else
    let* c := copy A in
    ret (set_scale c (scale c / y)%float).

Definition __truediv__ (A : SparseMatrix) (y : float) : M SparseMatrix :=
  __div__ A y.

(** ** Folding the scale into the diagonals *)

(** The loop [for key, val in self.items(): self[key] = val*self.scale]
    over the items still to visit; [d] is the dictionary being updated. *)
Fixpoint scale_items (s : float) (todo : dict dval) (d : dict dval) : M (dict dval) :=
  match todo with
  | [] => ret d
  | (k, v) :: r =>
      let* v' := dval_map (fun x => x * s)%float v in
      scale_items s r (dict_set k v' d)
  end.

(** [self.incorporate_scale()]: the updated [self].  (No class of this
    module has a [_keyscale] attribute.) *)
Definition incorporate_scale (A : SparseMatrix) : M SparseMatrix :=
  if (abs (scale A - 1) <? 1e-8)%float then ret A
  else
    let* d := scale_items (scale A) (_storage A) (_storage A) in
    ret (mkSparseMatrix d (shape A) 1%float (cls A)).

(** ** Addition and subtraction *)

(** The merge loop of [__add__] ([neg = false]) and [__sub__]
    ([neg = true]) over the items of [d]. *)
Fixpoint merge_items (neg : bool) (todo : dict dval) (f : dict dval) : M (dict dval) :=
  match todo with
  | [] => ret f
  | (k, v) :: r =>
      match dict_get k f with
      | Some fv =>
          let* w := dval_binop (if neg then PrimFloat.sub else PrimFloat.add) fv v in
          merge_items neg r (dict_set k w f)
      | None =>
          if neg then
            let* w := dval_map PrimFloat.opp v in
            merge_items neg r (dict_set k w f)
          else merge_items neg r (dict_set k v f)
      end
  end.

(** [self.__add__(d)]: the sum [f] and the operand [d] as the call leaves
    it. *)
Definition __add__ (A d : SparseMatrix) : M (SparseMatrix * SparseMatrix) :=
  if (abs (scale A) <? 1e-15)%float && (abs (scale d) <? 1e-15)%float then
    ret (SparseMatrix_new [(0, Scalar 0%float)] (shape A) 1%float, d)
  else if (abs (scale A) <? 1e-15)%float then
    let* c := deepcopy_dict d in
    ret (SparseMatrix_new c (shape d) (scale d), d)
  else if (abs (scale d) <? 1e-15)%float then
    let* f := copy A in
    ret (f, d)
  else
    let* c := deepcopy_dict A in
    let* f := incorporate_scale (SparseMatrix_new c (shape A) (scale A)) in
    let* d' := incorporate_scale d in
    let* fs := merge_items false (_storage d') (_storage f) in
    ret (set_storage f fs, d').

(** [self.__sub__(d)]: the difference [f] and the operand [d] as the call
    leaves it. *)
Definition __sub__ (A d : SparseMatrix) : M (SparseMatrix * SparseMatrix) :=
  if (abs (scale A) <? 1e-15)%float && (abs (scale d) <? 1e-15)%float then
    ret (SparseMatrix_new [(0, Scalar 0%float)] (shape A) 1%float, d)
  else if (abs (scale A) <? 1e-15)%float then
    let* c := deepcopy_dict d in
    ret (SparseMatrix_new c (shape d) (- scale d)%float, d)
  else if (abs (scale d) <? 1e-15)%float then
    let* f := copy A in
    ret (f, d)
  else
    let* c := deepcopy_dict A in
    let* f := incorporate_scale (SparseMatrix_new c (shape A) (scale A)) in
    let* d' := incorporate_scale d in
    let* fs := merge_items true (_storage d') (_storage f) in
    ret (set_storage f fs, d').

(** ** Solver selection *)

Inductive solver := TwoDMA | TDMA | TDMA_O | FDMA | PDMA | Solve.

Fixpoint insert_sorted (x : Z) (l : list Z) : list Z :=
  match l with
  | [] => [x]
  | y :: r => if x <=? y then x :: l else y :: insert_sorted x r
  end.

(** [np.sort(np.array(list(self.keys())))] *)
Definition sorted_keys (A : SparseMatrix) : list Z :=
  foldr insert_sorted [] (dict_keys (_storage A)).

Definition keys_are (A : SparseMatrix) (ks : list Z) : bool :=
  bool_decide (sorted_keys A = ks).

(** The loop of [issymmetric] over the items still to visit. *)
Fixpoint issymmetric_items (h : heap) (A : SparseMatrix) (todo : dict dval)
  : result bool :=
  match todo with
  | [] => Ok true
  | (key, _) :: r =>
      if key <=? 0 then issymmetric_items h A r
      else
        let+ a := __getitem__ A key in
        let+ b := __getitem__ A (- key) in
        let+ df := broadcast2 PrimFloat.sub (dentries h a) (dentries h b) in
        if negb (forallb (fun x => abs x <? 1e-8)%float df) then Ok false
        else issymmetric_items h A r
  end.

(** [np.sum(np.array(list(self.keys())))]: the offsets make an array of
    int64 (they are taken to fit), whose sum wraps around. *)
Definition int64_wrap (x : Z) : Z := (x + 2 ^ 63) mod 2 ^ 64 - 2 ^ 63.

Definition np_sum_int64 (l : list Z) : Z := int64_wrap (foldr Z.add 0 l).

Definition issymmetric (h : heap) (A : SparseMatrix) : result bool :=
  if negb (np_sum_int64 (dict_keys (_storage A)) =? 0) then Ok false
  else issymmetric_items h A (_storage A).

Definition get_solver (h : heap) (A : SparseMatrix) : result solver :=
  match __len__ A with
  | 2%nat => if keys_are A [0; 2] then Ok TwoDMA else Ok Solve
  | 3%nat =>
      if keys_are A [-2; 0; 2] then Ok TDMA
      else if keys_are A [-1; 0; 1] then
        let+ s := issymmetric h A in
        if s then Ok TDMA_O else Ok Solve
      else Ok Solve
  | 4%nat => if keys_are A [-2; 0; 2; 4] then Ok FDMA else Ok Solve
  | 5%nat =>
      let+ s := issymmetric h A in
      if s then (if keys_are A [-4; -2; 0; 2; 4] then Ok PDMA else Ok Solve)
      else Ok Solve
  | _ => Ok Solve
  end.

(** ** Dense matrices and [extract_diagonal_matrix] *)

(** A numpy array of [ndim = 2] with float entries: its shape and its rows. *)
Record dense := mkDense { dshape : nat * nat; drows : list (list float) }.

Definition dget (D : dense) (r c : nat) : option float :=
  match drows D !! r with Some row => row !! c | None => None end.

(** [M.diagonal(k)]: the entries [M[t + max(0,-k), t + max(0,k)]] that
    exist. *)
Definition diagonal (D : dense) (k : Z) : list float :=
  omap (fun t => dget D (t + Z.to_nat (- k)) (t + Z.to_nat k))
       (seq 0 (Nat.min (fst (dshape D)) (snd (dshape D)))).

(** [np.maximum]: a NaN operand wins. *)
Definition np_maximum (a b : float) : float :=
  if is_nan a then a else if is_nan b then b else if (a <? b)%float then b else a.

(** [a.max()]: fails on an array without entries. *)
Definition amax (l : list float) : result float :=
  match l with
  | [] => Raise ValueError
  | x :: r => Ok (fold_left np_maximum r x)
  end.

(** [abs(a).max()] *)
Definition abs_max (l : list float) : result float := amax (map abs l).

(** The test [abs(u).max() > abstol and abs(u).max()/relmax > reltol]. *)
Definition keep_diagonal (abstol reltol relmax : float) (u : list float) : result bool :=
  let+ m := abs_max u in
  if (abstol <? m)%float then
    let+ m' := abs_max u in
    Ok (reltol <? m' / relmax)%float
  else Ok false.

(** One of the two loops; [offset_of i] is [i] in the first and [-i] in
    the second. *)
Fixpoint extract_loop (D : dense) (abstol reltol relmax : float)
    (offset_of : nat -> Z) (todo : list nat) (d : dict dval) : M (dict dval) :=
  match todo with
  | [] => ret d
  | i :: r =>
      let u := diagonal D (offset_of i) in
      let* b := lift (fun _ => keep_diagonal abstol reltol relmax u) in
      if b : bool then
        let* l := alloc u in
        extract_loop D abstol reltol relmax offset_of r (dict_set (offset_of i) (Arr l) d)
      else extract_loop D abstol reltol relmax offset_of r d
  end.

Definition extract_diagonal_matrix (D : dense) (abstol reltol : float) : M SparseMatrix :=
  let* relmax := lift (fun _ => abs_max (concat (drows D))) in
  let* d1 := extract_loop D abstol reltol relmax Z.of_nat
               (seq 0 (snd (dshape D))) [] in
  let* d2 := extract_loop D abstol reltol relmax (fun i => - Z.of_nat i)
               (seq 1 (fst (dshape D) - 1)) d1 in
  ret (SparseMatrix_new d2 (dshape D) 1%float).


(** ** numpy arrays of any rank *)

(** A scale array, or an array of coefficients: nested lists, the outermost
    list along axis 0.  A [Leaf] is a 0-d array (a number). *)
Unset Elimination Schemes.
Inductive ndarray :=
| Leaf (x : float)
| Node (l : list ndarray).
Set Elimination Schemes.

Fixpoint nd_map (f : float -> float) (a : ndarray) : ndarray :=
  match a with
  | Leaf x => Leaf (f x)
  | Node l => Node (map (nd_map f) l)
  end.

(** The entries in C order. *)
Fixpoint nd_flat (a : ndarray) : list float :=
  match a with
  | Leaf x => [x]
  | Node l => concat (map nd_flat l)
  end.

Fixpoint nd_ndim (a : ndarray) : nat :=
  match a with
  | Leaf _ => 0
  | Node l => S (match l with x :: _ => nd_ndim x | [] => 0 end)
  end%nat.

Fixpoint nd_shape (a : ndarray) : list nat :=
  match a with
  | Leaf _ => []
  | Node l => length l :: match l with x :: _ => nd_shape x | [] => [] end
  end.

Fixpoint mapM {A B} (f : A -> result B) (l : list A) : result (list B) :=
  match l with
  | [] => Ok []
  | x :: r => let+ y := f x in let+ r' := mapM f r in Ok (y :: r')
  end.

(** [n] new axes of length one in front. *)
Fixpoint nd_wrap (n : nat) (a : ndarray) : ndarray :=
  match n with
  | O => a
  | S n' => Node [nd_wrap n' a]
  end.

(** Elementwise [op] on two arrays of the same rank, an axis of length one
    being stretched to the other operand's length. *)
Fixpoint nd_zip (op : float -> float -> float) (a b : ndarray) : result ndarray :=
  match a, b with
  | Leaf x, _ => Ok (nd_map (op x) b)
  | Node _, Leaf y => Ok (nd_map (fun x => op x y) a)
  | Node la, Node lb =>
      if decide (length la = length lb) then
        let+ r := (fix go (la lb : list ndarray) : result (list ndarray) :=
                     match la, lb with
                     | x :: la', y :: lb' =>
                         let+ z := nd_zip op x y in
                         let+ r := go la' lb' in Ok (z :: r)
                     | _, _ => Ok []
                     end) la lb in
        Ok (Node r)
      else
        match la, lb with
        | [x], _ => let+ r := mapM (nd_zip op x) lb in Ok (Node r)
        | _, [y] =>
            let+ r := (fix go (la : list ndarray) : result (list ndarray) :=
                         match la with
                         | x :: la' =>
                             let+ z := nd_zip op x y in
                             let+ r := go la' in Ok (z :: r)
                         | [] => Ok []
                         end) la in
            Ok (Node r)
        | _, _ => Raise ValueError
        end
  end.

(** [a op b] with numpy broadcasting: the operand of lower rank gets axes of
    length one in front. *)
Definition nd_broadcast (op : float -> float -> float) (a b : ndarray) : result ndarray :=
  nd_zip op (nd_wrap (nd_ndim b - nd_ndim a) a) (nd_wrap (nd_ndim a - nd_ndim b) b).

Definition nd_mul := nd_broadcast PrimFloat.mul.
Definition nd_add := nd_broadcast PrimFloat.add.

(** A slice [start:stop] of a list. *)
Definition slice_list {A} (s : option (nat * nat)) (l : list A) : list A :=
  match s with
  | None => l
  | Some (start, stop) => take (stop - start) (drop start l)
  end.

(** [a[tuple(ss)]] for a tuple of slices, [None] being [slice(None)]. *)
Fixpoint nd_slice (ss : list (option (nat * nat))) (a : ndarray) : result ndarray :=
  match ss with
  | [] => Ok a
  | s :: r =>
      match a with
      | Leaf _ => Raise IndexError
      | Node l => let+ l' := mapM (nd_slice r) (slice_list s l) in Ok (Node l')
      end
  end.

(** The position that Python and numpy read for the integer index [k] in a
    sequence of [n] items: a negative index counts from the end, and an
    index outside [-n .. n-1] is refused. *)
Definition py_item_index (n : nat) (k : Z) : option nat :=
  if (0 <=? k) && (k <? Z.of_nat n) then Some (Z.to_nat k)
  else if (k <? 0) && (- Z.of_nat n <=? k) then Some (Z.to_nat (k + Z.of_nat n))
  else None.

(** [a[k]] for one integer [k]. *)
Definition nd_getitem (k : Z) (a : ndarray) : result ndarray :=
  match a with
  | Leaf _ => Raise IndexError
  | Node l =>
      match py_item_index (length l) k with
      | Some i => match l !! i with
                  | Some x => Ok x
                  | None => Raise IndexError
                  end
      | None => Raise IndexError
      end
  end.

(** [a[tuple(idx)]] for a tuple of integers. *)
Fixpoint nd_index (idx : list nat) (a : ndarray) : result ndarray :=
  match idx with
  | [] => Ok a
  | i :: r =>
      match a with
      | Leaf _ => Raise IndexError
      | Node l => match l !! i with
                  | Some x => nd_index r x
                  | None => Raise IndexError
                  end
      end
  end.

(** [a.item()] *)
Definition nd_item (a : ndarray) : result float :=
  match nd_flat a with
  | [x] => Ok x
  | _ => Raise ValueError
  end.

(** [target[...] = value]: the value is stretched to the target's shape. *)
Fixpoint nd_fill (target value : ndarray) : result ndarray :=
  match target with
  | Leaf _ => match value with
              | Leaf y => Ok (Leaf y)
              | Node _ => Raise ValueError
              end
  | Node lt =>
      match value with
      | Leaf y => Ok (nd_map (fun _ => y) target)
      | Node lv =>
          if decide (length lt = length lv) then
            let+ r := (fix go (lt lv : list ndarray) : result (list ndarray) :=
                         match lt, lv with
                         | x :: lt', y :: lv' =>
                             let+ z := nd_fill x y in
                             let+ r := go lt' lv' in Ok (z :: r)
                         | _, _ => Ok []
                         end) lt lv in
            Ok (Node r)
          else
            match lv with
            | [y] =>
                let+ r := (fix go (lt : list ndarray) : result (list ndarray) :=
                             match lt with
                             | x :: lt' =>
                                 let+ z := nd_fill x y in
                                 let+ r := go lt' in Ok (z :: r)
                             | [] => Ok []
                             end) lt in
                Ok (Node r)
            | _ => Raise ValueError
            end
      end
  end.

(** Put the entries of [part] (of the shape of [a[tuple(ss)]]) back into
    [a]. *)
Fixpoint nd_unslice (ss : list (option (nat * nat))) (a part : ndarray) : result ndarray :=
  match ss with
  | [] => Ok part
  | s :: r =>
      match a, part with
      | Node l, Node lp =>
          let start := match s with Some (start, _) => start | None => O end in
          let mid := slice_list s l in
          let+ mid' := (fix go (mid lp : list ndarray) : result (list ndarray) :=
                          match mid, lp with
                          | x :: mid', p :: lp' =>
                              let+ z := nd_unslice r x p in
                              let+ rest := go mid' lp' in Ok (z :: rest)
                          | _, _ => Ok []
                          end) mid lp in
          Ok (Node (take start l ++ mid' ++ drop (start + length mid) l))
      | _, _ => Raise IndexError
      end
  end.

(** [a[tuple(ss)] = value] *)
Definition nd_setslice (ss : list (option (nat * nat))) (a value : ndarray) : result ndarray :=
  let+ target := nd_slice ss a in
  let+ filled := nd_fill target value in
  nd_unslice ss a filled.

(** An array of zeros of a given shape. *)
Fixpoint nd_zeros (sh : list nat) : ndarray :=
  match sh with
  | [] => Leaf 0%float
  | n :: r => Node (replicate n (nd_zeros r))
  end.

(** ** Tensor-product spaces (external collaborator) *)

(** What this module asks of a [TensorProductSpace]: its number of axes,
    the axes whose matrices are not diagonal, the local index range per
    axis, the coefficient slice of each basis, the shape of a [Function]
    on it, and for [matvec] along two axes the state of its transforms. *)
Record TensorProductSpace := mkSpace {
  dimensions : nat;
  get_nondiagonal_axes : list nat;
  local_slice : list (nat * nat);
  bases_slices : list (nat * nat);
  function_shape : list nat;
  is_padded : bool;
  pencil_axis : nat;
  subcomm_sizes : list nat
}.

(** [space[axis].broadcast_to_ndims(x)]: the 1-D array [x] laid along
    [axis] of an array of rank [dimensions], all other axes of length
    one. *)
Definition broadcast_to_ndims (sp : TensorProductSpace) (axis : nat) (x : list float)
  : result ndarray :=
  if (axis <? dimensions sp)%nat
  then Ok (nd_wrap axis (Node (map (fun xi => nd_wrap (dimensions sp - axis - 1) (Leaf xi)) x)))
  else Raise IndexError.

(** ** TPMatrix *)

(** The attribute [pmat]: the number 1 until a simplification links it. *)
Inductive pmat_t :=
| PmatInt
| PmatOne (m : SparseMatrix)
| PmatAll (ms : list SparseMatrix).

Record TPMatrix := mkTPMatrix {
  mats : list SparseMatrix;
  space : TensorProductSpace;
  trialspace : TensorProductSpace;
  tscale : ndarray;
  pmat : pmat_t;
  naxes : list nat;
  global_index : option (Z * Z);
  _issimplified : bool
}.

Definition set_tscale (T : TPMatrix) (s : ndarray) : TPMatrix :=
  mkTPMatrix (mats T) (space T) (trialspace T) s (pmat T) (naxes T)
             (global_index T) (_issimplified T).

(** [TPMatrix(mats, testspace, trialspace, scale, global_index, ...)] *)
Definition TPMatrix_new (ms : list SparseMatrix) (testspace trialsp : TensorProductSpace)
    (s : ndarray) (gi : option (Z * Z)) : result TPMatrix :=
  if negb (Nat.eqb (length ms) (dimensions testspace)) then Raise AssertionError
  else Ok (mkTPMatrix ms testspace trialsp s PmatInt
                      (get_nondiagonal_axes testspace) gi false).

(** [np.setxor1d(a, b)]: the sorted values that are in exactly one of the
    two. *)
Definition setxor1d (a b : list nat) : list nat :=
  let only_a := filter (fun x => x ∉ b) a in
  let only_b := filter (fun x => x ∉ a) b in
  merge_sort le (remove_dups (only_a ++ only_b)).

Definition diagonal_axes_of (T : TPMatrix) : list nat :=
  setxor1d (naxes T) (seq 0 (dimensions (space T))).

(** One round of the loop of [get_simplified] over [axis]: the matrix to
    append and the new scale. *)
Definition simplify_axis (h : heap) (T : TPMatrix) (diagonal_axes : list nat)
    (axis : nat) (mat : SparseMatrix) (sc : ndarray)
  : result (SparseMatrix * ndarray) :=
  if bool_decide (axis ∈ diagonal_axes) then
    let+ d := __getitem__ mat 0 in
    let+ sc' :=
      match d with
      | Scalar x => nd_mul sc (Leaf x)
      | Arr l =>
          let+ dn := broadcast_to_ndims (space T) axis
                       (map (fun x => x * scale mat)%float (harr h l)) in
          nd_mul sc dn
      end in
    Ok (Identity (shape mat) 1%float, sc')
  else Ok (mat, sc).

Fixpoint simplify_loop (h : heap) (T : TPMatrix) (diagonal_axes : list nat)
    (axis : nat) (todo : list SparseMatrix) (sc : ndarray)
  : result (list SparseMatrix * ndarray) :=
  match todo with
  | [] => Ok ([], sc)
  | mat :: r =>
      let+ p := simplify_axis h T diagonal_axes axis mat sc in
      let+ q := simplify_loop h T diagonal_axes (S axis) r (snd p) in
      Ok (fst p :: fst q, snd q)
  end.

(** The slices of the step "Decomposition": the local range along every
    axis where the scale has more than one entry. *)
Fixpoint decomposition_slices (ls : list (nat * nat)) (ss : list (option (nat * nat)))
    (axis : nat) (sh : list nat) : result (list (option (nat * nat))) :=
  match sh with
  | [] => Ok ss
  | n :: r =>
      if (1 <? n)%nat then
        match ls !! axis with
        | Some s =>
            if (axis <? length ss)%nat
            then decomposition_slices ls (<[axis := Some s]> ss) (S axis) r
            else Raise IndexError
        | None => Raise IndexError
        end
      else decomposition_slices ls ss (S axis) r
  end.

Definition link_pmat (T : TPMatrix) : result pmat_t :=
  match naxes T with
  | [a] => match mats T !! a with
           | Some m => Ok (PmatOne m)
           | None => Raise IndexError
           end
  | [_; _] => Ok (PmatAll (mats T))
  | _ => Ok (pmat T)
  end.

(** [self.get_simplified()] *)
Definition get_simplified (h : heap) (T : TPMatrix) : result TPMatrix :=
  let diagonal_axes := diagonal_axes_of T in
  if Nat.eqb (length diagonal_axes) 0 || _issimplified T then Ok T
  else
    let+ p := simplify_loop h T diagonal_axes 0 (mats T) (tscale T) in
    let+ tpmat := TPMatrix_new (fst p) (space T) (trialspace T) (snd p) (global_index T) in
    let+ sc :=
      if (1 <? dimensions (space T))%nat then
        let+ ss := decomposition_slices (local_slice (space T))
                     (replicate (dimensions (space T)) None) 0 (nd_shape (tscale tpmat)) in
        nd_slice ss (tscale tpmat)
      else Ok (tscale tpmat) in
    let tpmat := set_tscale tpmat sc in
    let+ pm := link_pmat tpmat in
    Ok (mkTPMatrix (mats tpmat) (space tpmat) (trialspace tpmat) (tscale tpmat) pm
                   (naxes tpmat) (global_index tpmat) true).

(** [self.__eq__(a)] *)
Fixpoint mats_eq (h : heap) (ms0 ms1 : list SparseMatrix) : result bool :=
  match ms0, ms1 with
  | m0 :: r0, m1 :: r1 =>
      if negb (pykey_eqb (get_key m0) (get_key m1)) then Ok false
      else
        let+ e := py_eq h m0 m1 in
        if negb e then Ok false else mats_eq h r0 r1
  | _, _ => Ok true
  end.

Definition TPMatrix___eq__ (h : heap) (T a : TPMatrix) : result bool :=
  if negb (bool_decide (global_index T = global_index a)) then Ok false
  else mats_eq h (mats T) (mats a).

(** [self.__iadd__(a)]: the updated [self]. *)
Definition TPMatrix___iadd__ (h : heap) (T a : TPMatrix) : result TPMatrix :=
  let+ e := TPMatrix___eq__ h T a in
  if negb e then Raise AssertionError
  else
    let+ s := nd_add (tscale T) (tscale a) in
    Ok (set_tscale T s).

(** The loop [for b in B: if a == b: b += a; found = True]: the list [B]
    as the loop leaves it, and [found]. *)
Fixpoint merge_equal (h : heap) (a : TPMatrix) (B : list TPMatrix)
  : result (list TPMatrix * bool) :=
  match B with
  | [] => Ok ([], false)
  | b :: r =>
      let+ e := TPMatrix___eq__ h a b in
      if e : bool then
        let+ b' := TPMatrix___iadd__ h b a in
        let+ q := merge_equal h a r in
        Ok (b' :: fst q, true)
      else
        let+ q := merge_equal h a r in
        Ok (b :: fst q, snd q)
  end.

(** The loop [for a in A[1:]] of [get_simplified_tpmatrices]. *)
Fixpoint add_equal_matrices (h : heap) (rest B : list TPMatrix) : result (list TPMatrix) :=
  match rest with
  | [] => Ok B
  | a :: r =>
      let+ q := merge_equal h a B in
      add_equal_matrices h r (if snd q then fst q else fst q ++ [a])
  end.

Definition get_simplified_tpmatrices (h : heap) (tpmats : list TPMatrix)
  : result (list TPMatrix) :=
  let+ A := mapM (get_simplified h) tpmats in
  match A with
  | [] => Raise IndexError
  | a0 :: rest => add_equal_matrices h rest [a0]
  end.

(** [self.is_bc_matrix()] *)
Definition TPMatrix_is_bc_matrix (T : TPMatrix) : bool :=
  existsb is_bc_matrix (mats T).

(** ** Matrix-vector products and solves of a TPMatrix *)

(** The numerical kernels this module calls in other modules:
    [SparseMatrix.matvec] along an axis (whose format is read from the
    configuration), the transfers between two pencils, the planning of an
    unpadded space, and the solvers of [shenfun.la]. *)
Record kernels := mkKernels {
  sparse_matvec : list (list float) -> SparseMatrix -> ndarray -> ndarray -> nat -> result ndarray;
  get_unplanned : TensorProductSpace -> TensorProductSpace;
  transfer_forward : TensorProductSpace -> nat -> ndarray -> result ndarray;
  transfer_backward : TensorProductSpace -> nat -> ndarray -> ndarray -> result ndarray;
  SolverGeneric1ND : list (list float) -> TPMatrix -> ndarray -> option ndarray ->
                     list (Z * float) -> result ndarray;
  SolverGeneric2ND : list (list float) -> TPMatrix -> ndarray -> option ndarray ->
                     list (Z * float) -> result ndarray
}.

(** [npaxes.remove(axis)] *)
Fixpoint list_remove (x : nat) (l : list nat) : result (list nat) :=
  match l with
  | [] => Raise ValueError
  | y :: r => if Nat.eqb x y then Ok r
              else let+ r' := list_remove x r in Ok (y :: r')
  end.

(** The body of [matvec] once [tpmat = self.get_simplified()] is known;
    [rank] is [v.rank] ([0] for a plain array), and with a positive rank
    [v] is the list of the components. *)
Definition matvec_simplified (K : kernels) (h : heap) (tpmat : TPMatrix)
    (rank : nat) (v c : ndarray) : result ndarray :=
  let c := nd_map (fun _ => 0%float) c in
  match naxes tpmat with
  | [] =>
      let+ p := nd_mul (tscale tpmat) v in
      nd_fill c p
  | [axis] =>
      match pmat tpmat with
      | PmatOne m =>
          let+ c1 :=
            if Nat.eqb rank 0 then sparse_matvec K h m v c axis
            else
              match global_index tpmat with
              | Some (_, j) =>
                  let+ vj := nd_getitem j v in
                  sparse_matvec K h m vj c axis
              | None => Raise TypeError
              end in
          let+ p := nd_mul c1 (tscale tpmat) in
          nd_fill c1 p
      | _ => Raise AttributeError
      end
  | [a0; a1] =>
      let sp := if is_padded (space tpmat) then get_unplanned K (space tpmat)
                else space tpmat in
      let axis := pencil_axis sp in
      match subcomm_sizes sp !! axis with
      | None => Raise IndexError
      | Some n =>
          if negb (Nat.eqb n 1) then Raise AssertionError
          else
            let+ npaxes := list_remove axis [a0; a1] in
            match npaxes with
            | [] => Raise IndexError
            | second_axis :: _ =>
                match mats tpmat !! axis with
                | None => Raise IndexError
                | Some bb =>
                    let+ c1 := sparse_matvec K h bb v c axis in
                    let+ cB := transfer_forward K sp second_axis c1 in
                    match mats tpmat !! second_axis with
                    | None => Raise IndexError
                    | Some bb2 =>
                        let+ cC := sparse_matvec K h bb2 cB (nd_map (fun _ => 0%float) cB)
                                     second_axis in
                        let+ c2 := transfer_backward K sp second_axis cC c1 in
                        let+ p := nd_mul c2 (tscale tpmat) in
                        nd_fill c2 p
                    end
                end
            end
      end
  | _ => Ok c
  end.

(** [self.matvec(v, c)] *)
Definition TPMatrix_matvec (K : kernels) (h : heap) (T : TPMatrix)
    (rank : nat) (v c : ndarray) : result ndarray :=
  let+ tpmat := get_simplified h T in
  matvec_simplified K h tpmat rank v c.

(** The entry of [d = np.where(np.isfinite(1/s), 1/s, 0)]. *)
Definition guarded_inverse (s : float) : float :=
  let d := (1 / s)%float in
  if is_finite d then d else 0%float.

(** [self.solve(b, u, constraints)]: the array [u] it returns ([None] when
    no branch applies and no [u] was given). *)
Definition TPMatrix_solve (K : kernels) (h : heap) (T : TPMatrix)
    (b : ndarray) (u : option ndarray) (constraints : list (Z * float))
  : result (option ndarray) :=
  let+ tpmat := get_simplified h T in
  match naxes tpmat with
  | [] =>
      let sl := map Some (bases_slices (trialspace tpmat)) in
      let d := nd_map (fun s => 1 / s)%float (tscale tpmat) in
      let+ _ :=
        match constraints with
        | [] => Ok tt
        | (r, x) :: _ => if (r =? 0) && (x =? 0)%float then Ok tt else Raise AssertionError
        end in
      let d := nd_map (fun x => if is_finite x then x else 0%float) d in
      let u0 := match u with
                | Some u0 => u0
                | None => nd_zeros (function_shape (space tpmat))
                end in
      let+ bs := nd_slice sl b in
      let+ ds := nd_slice sl d in
      let+ p := nd_mul bs ds in
      let+ u1 := nd_setslice sl u0 p in
      Ok (Some u1)
  | [_] => let+ r := SolverGeneric1ND K h tpmat b u constraints in Ok (Some r)
  | [_; _] => let+ r := SolverGeneric2ND K h tpmat b u constraints in Ok (Some r)
  | _ => Ok u
  end.

(** Python's [x / y] on floats. *)
Definition py_div (x y : float) : result float :=
  if (y =? 0)%float then Raise ZeroDivisionError else Ok (x / y)%float.

(** [Identity.solve(b, u)]: the returned array. *)
Definition Identity_solve (A : SparseMatrix) (b : ndarray) (u : option ndarray)
  : result ndarray :=
  let+ u0 :=
    match u with
    | None => Ok b
    | Some u0 =>
        if bool_decide (nd_shape u0 = nd_shape b) then nd_fill u0 b
        else Raise AssertionError
    end in
  let+ r := py_div 1%float (scale A) in
  Ok (nd_map (fun x => x * r)%float u0).

(** ** BlockMatrix *)

(** A cell of [self.mats]: the integer it was created with, or a list of
    TPMatrices. *)
Inductive cell :=
| CellNumber (n : Z)
| CellList (l : list TPMatrix).

Record BlockMatrix := mkBlockMatrix {
  bm_mats : list (list cell);
  (** [isinstance(self.testbase, MixedFunctionSpace)] *)
  testbase_is_mixed : bool
}.

Definition cell_exists (p : TPMatrix -> bool) (c : cell) : bool :=
  match c with
  | CellNumber _ => false
  | CellList l => existsb p l
  end.

Definition contains_bc_matrix (B : BlockMatrix) : bool :=
  existsb (existsb (cell_exists TPMatrix_is_bc_matrix)) (bm_mats B).

Definition contains_regular_matrix (B : BlockMatrix) : bool :=
  existsb (existsb (cell_exists (fun m => negb (TPMatrix_is_bc_matrix m)))) (bm_mats B).

(** Matrices of [scipy.sparse], as the expressions that build them; the
    shape checks of [kron], [+] and [bmat] are scipy's and are not
    modelled. *)
Unset Elimination Schemes.
Inductive spmatrix :=
| SpDiags (sh : nat * nat) (D : dict (list float))
| SpScale (s : float) (a : spmatrix)
| SpKron (a b : spmatrix)
| SpAdd (a b : spmatrix)
| SpBmat (blocks : list (list (option spmatrix))).
Set Elimination Schemes.

(** [SparseMatrix.diags(format)] *)
Definition SparseMatrix_diags (h : heap) (A : SparseMatrix) : result spmatrix :=
  let+ D := sp_diags h (shape A) (_storage A) in
  Ok (SpScale (scale A) (SpDiags (shape A) D)).

Definition mat_diags_at (h : heap) (m : TPMatrix) (i : nat) : result spmatrix :=
  match mats m !! i with
  | Some A => SparseMatrix_diags h A
  | None => Raise IndexError
  end.

(** [TPMatrix.diags(format)] *)
Definition TPMatrix_diags (h : heap) (m : TPMatrix) : result spmatrix :=
  if _issimplified m then Raise AssertionError
  else
    let dg := SparseMatrix_diags h in
    let+ mat :=
      match mats m with
      | [m0; m1] =>
          let+ d0 := dg m0 in let+ d1 := dg m1 in Ok (SpKron d0 d1)
      | [m0; m1; m2] =>
          let+ d0 := dg m0 in let+ d1 := dg m1 in let+ d2 := dg m2 in
          Ok (SpKron d0 (SpKron d1 d2))
      | [m0; m1; m2; m3] =>
          let+ d0 := dg m0 in let+ d1 := dg m1 in let+ d2 := dg m2 in
          let+ d3 := dg m3 in
          Ok (SpKron d0 (SpKron d1 (SpKron d2 d3)))
      | [m0; m1; m2; m3; m4] =>
          let+ d0 := dg m0 in let+ d1 := dg m1 in let+ d2 := dg m2 in
          let+ d3 := dg m3 in let+ d4 := dg m4 in
          Ok (SpKron d0 (SpKron d1 (SpKron d2 (SpKron d3 d4))))
      | _ => Raise UnboundLocalError
      end in
    let+ s := nd_item (tscale m) in
    Ok (SpScale s mat).

(** [m.scale[tuple(np.where(np.array(m.scale.shape) == 1, 0, it))]] *)
Definition scale_at (m : TPMatrix) (it : list nat) : result float :=
  let sh := nd_shape (tscale m) in
  let pick (n i : nat) : nat := if Nat.eqb n 1 then O else i in
  let+ iit :=
    if Nat.eqb (length sh) (length it) then Ok (zip_with pick sh it)
    else match sh, it with
         | [n], _ => Ok (map (pick n) it)
         | _, [i] => Ok (map (fun n => pick n i) sh)
         | _, _ => Raise ValueError
         end in
  let+ x := nd_index iit (tscale m) in
  match x with
  | Leaf s => Ok s
  | Node _ => Raise ValueError
  end.

Definition naxes_at (m : TPMatrix) (i : nat) : result nat :=
  match naxes m !! i with
  | Some a => Ok a
  | None => Raise IndexError
  end.

(** The contribution of one TPMatrix of a cell. *)
Definition term_diags (h : heap) (mixed : bool) (first : TPMatrix) (it : list nat)
    (m : TPMatrix) : result spmatrix :=
  if mixed then TPMatrix_diags h m
  else if Nat.eqb (length (naxes first)) 2 then
    if Nat.eqb (length (mats first)) 2 then
      let+ s := nd_item (tscale m) in
      let+ d0 := mat_diags_at h m 0 in
      let+ d1 := mat_diags_at h m 1 in
      Ok (SpScale s (SpKron d0 d1))
    else
      let+ s := scale_at m it in
      let+ a0 := naxes_at m 0 in
      let+ d0 := mat_diags_at h m a0 in
      let+ a1 := naxes_at m 1 in
      let+ d1 := mat_diags_at h m a1 in
      Ok (SpScale s (SpKron d0 d1))
  else
    let+ s := scale_at m it in
    let+ a0 := naxes_at m 0 in
    let+ d0 := mat_diags_at h m a0 in
    Ok (SpScale s d0).

Fixpoint add_terms (h : heap) (mixed : bool) (first : TPMatrix) (it : list nat)
    (d : spmatrix) (rest : list TPMatrix) : result spmatrix :=
  match rest with
  | [] => Ok d
  | mj :: r =>
      let+ dj := term_diags h mixed first it mj in
      add_terms h mixed first it (SpAdd d dj) r
  end.

(** One cell of the block matrix. *)
Definition cell_diags (h : heap) (mixed : bool) (it : list nat) (c : cell)
  : result (option spmatrix) :=
  match c with
  | CellNumber _ => Ok None
  | CellList [] => Raise IndexError
  | CellList (m :: rest) =>
      let+ d := term_diags h mixed m it m in
      let+ d' := add_terms h mixed m it d rest in
      Ok (Some d')
  end.

(** The assembly that follows the test of [diags]. *)
Definition assemble_blocks (h : heap) (B : BlockMatrix) (it : list nat) : result spmatrix :=
  let+ bm := mapM (mapM (cell_diags h (testbase_is_mixed B) it)) (bm_mats B) in
  Ok (SpBmat bm).

(** [self.diags(it, format)] *)
Definition BlockMatrix_diags (h : heap) (B : BlockMatrix) (it : list nat) : result spmatrix :=
  if contains_bc_matrix B && contains_regular_matrix B then Raise RuntimeError
  else assemble_blocks h B it.

(** ** More methods of SparseMatrix *)

(** [del d[key]] on a dictionary; [None] when the key is missing. *)
Fixpoint dict_del {V} (k : Z) (d : dict V) : option (dict V) :=
  match d with
  | [] => None
  | (k', v) :: r =>
      if k =? k' then Some r
      else match dict_del k r with
           | Some r' => Some ((k', v) :: r')
           | None => None
           end
  end.

(** [del self[key]]: the updated [self]. *)
Definition __delitem__ (A : SparseMatrix) (key : Z) : result SparseMatrix :=
  match dict_del key (_storage A) with
  | Some d => Ok (set_storage A d)
  | None => Raise KeyError
  end.

(** [iter(self)] *)
Definition __iter__ (A : SparseMatrix) : list Z := dict_keys (_storage A).

(** [self.isdiagonal()] *)
Definition isdiagonal (A : SparseMatrix) : bool :=
  if Nat.eqb (__len__ A) 1 then
    if dict_contains 0 (_storage A) then true else false
  else false.

(** [self.isidentity()] *)
Definition isidentity (h : heap) (A : SparseMatrix) : result bool :=
  if negb (Nat.eqb (__len__ A) 1) then Ok false
  else if negb (dict_contains 0 (_storage A)) then Ok false
  else
    let+ d := __getitem__ A 0 in
    if forallb (fun x => x =? 1)%float (dentries h d) then Ok true else Ok false.

(** [self.__neg__()] *)
Definition __neg__ (A : SparseMatrix) : M SparseMatrix :=
  let* c := copy A in
  ret (set_scale c (scale A * -1)%float).

(** The loop [for key, val in d.items(): self[key] = val] on the storage of
    [self]. *)
Fixpoint store_items (todo : dict dval) (f : dict dval) : dict dval :=
  match todo with
  | [] => f
  | (k, v) :: r => store_items r (dict_set k v f)
  end.

(** [self.__iadd__(d)] for two distinct objects: the updated [self] and the
    operand [d] as the call leaves it. *)
Definition __iadd__ (A d : SparseMatrix) : M (SparseMatrix * SparseMatrix) :=
  if negb (shape_eqb (shape d) (shape A)) then raise AssertionError
  else if (abs (scale d) <? 1e-16)%float then ret (A, d)
  else if (abs (scale A) <? 1e-16)%float then
    ret (mkSparseMatrix (store_items (_storage d) []) (shape A) (scale d) (cls A), d)
  else
    let* A' := incorporate_scale A in
    let* d' := incorporate_scale d in
    let* fs := merge_items false (_storage d') (_storage A') in
    ret (set_storage A' fs, d').

(** [self.__isub__(d)] for two distinct objects. *)
Definition __isub__ (A d : SparseMatrix) : M (SparseMatrix * SparseMatrix) :=
  if negb (shape_eqb (shape d) (shape A)) then raise AssertionError
  else if (abs (scale d) <? 1e-16)%float then ret (A, d)
  else if (abs (scale A) <? 1e-16)%float then
    ret (mkSparseMatrix (store_items (_storage d) []) (shape A) (- scale d)%float (cls A), d)
  else
    let* A' := incorporate_scale A in
    let* d' := incorporate_scale d in
    let* fs := merge_items true (_storage d') (_storage A') in
    ret (set_storage A' fs, d').

(** ** Matrix-vector product, format 'python' *)

(** A Python slice bound [i] on a sequence of [len] items: counted from
    the end when negative, and clipped. *)
Definition py_index (i : Z) (len : nat) : nat :=
  if i <? 0 then Z.to_nat (Z.max 0 (i + Z.of_nat len))
  else Z.to_nat (Z.min i (Z.of_nat len)).

(** [l[start:stop]] *)
Definition py_slice {A} (start stop : Z) (l : list A) : list A :=
  let s := py_index start (length l) in
  let e := py_index stop (length l) in
  take (e - s) (drop s l).

(** [c[start:stop] += x] on a 1-D array: [x] must have the length of the
    slice, or one entry. *)
Definition iadd_slice (start stop : Z) (c x : list float) : result (list float) :=
  let s := py_index start (length c) in
  let e := py_index stop (length c) in
  let seg := take (e - s) (drop s c) in
  if decide (length x = length seg) then
    Ok (take s c ++ zip_with PrimFloat.add seg x ++ drop (s + length seg) c)
  else
    match x with
    | [y] => Ok (take s c ++ map (fun a => a + y)%float seg ++ drop (s + length seg) c)
    | _ => Raise ValueError
    end.

(** The loop [for key, val in self.items()] of [matvec] on 1-D arrays. *)
Fixpoint matvec_items (h : heap) (N M : Z) (v : list float) (todo : dict dval)
    (c : list float) : result (list float) :=
  match todo with
  | [] => Ok c
  | (key, val) :: r =>
      let+ c' :=
        if key <? 0 then
          let+ x := broadcast2 PrimFloat.mul (dentries h val)
                      (py_slice 0 (Z.min M (N + key)) v) in
          iadd_slice (- key) (Z.min N (M - key)) c x
        else
          let+ x := broadcast2 PrimFloat.mul (dentries h val)
                      (py_slice key (Z.min M (N + key)) v) in
          iadd_slice 0 (Z.min N (M - key)) c x in
      matvec_items h N M v r c'
  end.

(** [self.matvec(v, c, format='python', axis=0)] for two distinct 1-D
    arrays [v] and [c]: the contents of [c] on return. *)
Definition matvec_python (h : heap) (A : SparseMatrix) (v c : list float)
  : result (list float) :=
  let N := Z.of_nat (fst (shape A)) in
  let M := Z.of_nat (snd (shape A)) in
  let+ c1 := matvec_items h N M v (_storage A) (map (fun _ => 0%float) c) in
  Ok (map (fun x => x * scale A)%float c1).

(** ** check_sanity *)

(** One entry of [np.isclose(a, b)] with the default tolerances. *)
Definition isclose (a b : float) : bool :=
  ((abs (a - b) <=? 1e-8 + 1e-5 * abs b)%float && is_finite b) || (a =? b)%float.

(** [np.allclose(a, b)] on 1-D operands. *)
Definition allclose (a b : list float) : result bool :=
  if decide (length a = length b) then
    Ok (forallb (fun p => isclose (fst p) (snd p)) (zip a b))
  else
    match a, b with
    | [x], _ => Ok (forallb (isclose x) b)
    | _, [y] => Ok (forallb (fun x => isclose x y) a)
    | _, _ => Raise ValueError
    end.

(** The loop [for key, val in A.items(): assert np.allclose(val*A.scale,
    Dsp[key])] over the items still to visit. *)
Fixpoint check_items (h : heap) (A Dsp : SparseMatrix) (todo : dict dval) : result unit :=
  match todo with
  | [] => Ok tt
  | (key, val) :: r =>
      let+ d := __getitem__ Dsp key in
      let+ b := allclose (map (fun x => x * scale A)%float (dentries h val))
                         (dentries h d) in
      if b : bool then check_items h A Dsp r else Raise AssertionError
  end.

(** [check_sanity(A, test, trial, measure)], where [D] is the dense matrix
    that [get_dense_matrix] or [get_denser_matrix] gives for the bases. *)
Definition check_sanity (A : SparseMatrix) (D : dense) : M unit :=
  let* Dsp := extract_diagonal_matrix D 1e-10 1e-10 in
  lift (fun h => check_items h A Dsp (_storage A)).

(** ** clean_diagonals *)

(** A Python integer as a float. *)
Definition float_of_nat (n : nat) : float :=
  PrimFloat.of_uint63 (Uint63.of_Z (Z.of_nat n)).

(** The loop [for key in list_keys: del self[key]]. *)
Fixpoint del_keys (ks : list Z) (A : SparseMatrix) : result SparseMatrix :=
  match ks with
  | [] => Ok A
  | k :: r =>
      let+ A' := __delitem__ A k in
      del_keys r A'
  end.

(** The test [abs(np.linalg.norm(val))/relmax < reltol] of one item. *)
Definition negligible (h : heap) (relmax reltol : float) (p : Z * dval) : bool :=
  (abs (norm (dentries h (snd p))) / relmax <? reltol)%float.

(** [self.clean_diagonals(reltol)], where [a] is the array that the product
    [self * np.ones(self.shape[1])] gives: the updated [self]. *)
Definition clean_diagonals (h : heap) (A : SparseMatrix) (a : list float) (reltol : float)
  : result SparseMatrix :=
  let+ m := abs_max a in
  let relmax := (m / float_of_nat (snd (shape A)))%float in
  let relmax := if (relmax =? 0)%float then 1%float else relmax in
  let list_keys := map fst (filter (fun p => negligible h relmax reltol p = true)
                                   (_storage A)) in
  del_keys list_keys A.

(** ** Simplification of a TPMatrix in place *)

(** One round of the loop [for axis in diagonal_axes] of
    [simplify_diagonal_matrices]: the updated [self]. *)
Definition simplify_inplace_axis (h : heap) (T : TPMatrix) (axis : nat)
  : result TPMatrix :=
  match mats T !! axis with
  | None => Raise IndexError
  | Some mat =>
      if Nat.eqb (length (mats T)) 1 then Ok T
      else
        let+ d := __getitem__ mat 0 in
        let+ sc' :=
          match d with
          | Scalar x => nd_mul (tscale T) (Leaf x)
          | Arr l =>
              let+ dn := broadcast_to_ndims (space T) axis
                           (map (fun x => x * scale mat)%float (harr h l)) in
              nd_mul (tscale T) dn
          end in
        Ok (mkTPMatrix (<[axis := Identity (shape mat) 1%float]> (mats T))
                       (space T) (trialspace T) sc' (pmat T) (naxes T)
                       (global_index T) (_issimplified T))
  end.

Fixpoint simplify_inplace_loop (h : heap) (T : TPMatrix) (axes : list nat)
  : result TPMatrix :=
  match axes with
  | [] => Ok T
  | axis :: r =>
      let+ T' := simplify_inplace_axis h T axis in
      simplify_inplace_loop h T' r
  end.

(** [self.simplify_diagonal_matrices()]: the updated [self]. *)
Definition simplify_diagonal_matrices (h : heap) (T : TPMatrix) : result TPMatrix :=
  if _issimplified T then Ok T
  else
    let diagonal_axes := diagonal_axes_of T in
    if Nat.eqb (length diagonal_axes) 0 then Ok T
    else
      let+ T1 := simplify_inplace_loop h T diagonal_axes in
      let+ sc :=
        if (1 <? dimensions (space T1))%nat then
          let+ ss := decomposition_slices (local_slice (space T1))
                       (replicate (dimensions (space T1)) None) 0 (nd_shape (tscale T1)) in
          nd_slice ss (tscale T1)
        else Ok (tscale T1) in
      let T2 := set_tscale T1 sc in
      let+ pm := link_pmat T2 in
      Ok (mkTPMatrix (mats T2) (space T2) (trialspace T2) (tscale T2) pm
                     (naxes T2) (global_index T2) true).

(** ** Copies of a TPMatrix *)

(** The loop [for mat in self.mats: mats.append(mat.__deepcopy__())]. *)
Fixpoint copy_mats (ms : list SparseMatrix) : M (list SparseMatrix) :=
  match ms with
  | [] => ret []
  | m :: r =>
      let* c := copy m in
      let* r' := copy_mats r in
      ret (c :: r')
  end.

(** [self.__deepcopy__()]: the matrices are copied, the scale array is
    handed on. *)
Definition TPMatrix___deepcopy__ (T : TPMatrix) : M TPMatrix :=
  let* ms := copy_mats (mats T) in
  lift (fun _ => TPMatrix_new ms (space T) (trialspace T) (tscale T) (global_index T)).

(** [self.copy()] *)
Definition TPMatrix_copy (T : TPMatrix) : M TPMatrix := TPMatrix___deepcopy__ T.

(** [self.__neg__()] *)
Definition TPMatrix___neg__ (T : TPMatrix) : M TPMatrix :=
  let* A := TPMatrix_copy T in
  ret (set_tscale A (nd_map (fun x => x * -1)%float (tscale T))).

(** ** Tests of a TPMatrix *)

(** [self.isidentity()]: [np.all] of the answers of the matrices. *)
Definition TPMatrix_isidentity (h : heap) (T : TPMatrix) : result bool :=
  let+ bs := mapM (isidentity h) (mats T) in
  Ok (forallb (fun b : bool => b) bs).

(** [self.isdiagonal()] *)
Definition TPMatrix_isdiagonal (T : TPMatrix) : bool :=
  forallb isdiagonal (mats T).

(** [self.get_key()] *)
Definition TPMatrix_get_key (T : TPMatrix) : result pykey :=
  match get_nondiagonal_axes (space T) with
  | [a] =>
      match mats T !! a with
      | Some m => Ok (get_key m)
      | None => Raise IndexError
      end
  | _ => Raise AssertionError
  end.

(** ** Arithmetic of a TPMatrix *)

(** [self.__mul__(a)] for a number [a]. *)
Definition TPMatrix___mul__ (T : TPMatrix) (a : float) : result TPMatrix :=
  TPMatrix_new (mats T) (space T) (trialspace T)
               (nd_map (fun x => x * a)%float (tscale T)) (global_index T).

(** [self.__add__(a)] *)
Definition TPMatrix___add__ (h : heap) (T a : TPMatrix) : result TPMatrix :=
  let+ e := TPMatrix___eq__ h T a in
  if negb e then Raise AssertionError
  else
    let+ s := nd_add (tscale T) (tscale a) in
    TPMatrix_new (mats T) (space T) (trialspace T) s (global_index T).

(** [self.__sub__(a)] *)
Definition TPMatrix___sub__ (h : heap) (T a : TPMatrix) : result TPMatrix :=
  let+ e := TPMatrix___eq__ h T a in
  if negb e then Raise AssertionError
  else
    let+ s := nd_broadcast PrimFloat.sub (tscale T) (tscale a) in
    TPMatrix_new (mats T) (space T) (trialspace T) s (global_index T).

(** ** TPMatrix objects and their lists of matrices *)

(** The attribute [mats] is a Python list: the constructor keeps the list
    it is given, and [simplify_diagonal_matrices] assigns to its items.  A
    store holds the lists by address; an object is the address of its list
    next to its other attributes, of which the field [mats] is not read. *)
Definition matstore := nat -> list SparseMatrix.

Record TPobject := mkTPobject {
  mats_at : nat;
  attrs : TPMatrix
}.

Definition with_mats (T : TPMatrix) (ms : list SparseMatrix) : TPMatrix :=
  mkTPMatrix ms (space T) (trialspace T) (tscale T) (pmat T) (naxes T)
             (global_index T) (_issimplified T).

(** The object as the store shows it. *)
Definition read (st : matstore) (o : TPobject) : TPMatrix :=
  with_mats (attrs o) (st (mats_at o)).

Definition write (st : matstore) (l : nat) (ms : list SparseMatrix) : matstore :=
  fun l' => if Nat.eqb l' l then ms else st l'.

(** [self * a], [self + a] and [self - a] hand [self.mats] to the
    constructor: the new object has the list of [self]. *)
Definition obj___mul__ (st : matstore) (o : TPobject) (a : float) : result TPobject :=
  let+ T := TPMatrix___mul__ (read st o) a in
  Ok (mkTPobject (mats_at o) T).

Definition obj___add__ (h : heap) (st : matstore) (o a : TPobject) : result TPobject :=
  let+ T := TPMatrix___add__ h (read st o) (read st a) in
  Ok (mkTPobject (mats_at o) T).

Definition obj___sub__ (h : heap) (st : matstore) (o a : TPobject) : result TPobject :=
  let+ T := TPMatrix___sub__ h (read st o) (read st a) in
  Ok (mkTPobject (mats_at o) T).

(** [self.simplify_diagonal_matrices()] on an object: the items of its list
    are assigned in the store. *)
Definition obj_simplify_diagonal_matrices (h : heap) (st : matstore) (o : TPobject)
  : result (TPobject * matstore) :=
  let+ T := simplify_diagonal_matrices h (read st o) in
  Ok (mkTPobject (mats_at o) T, write st (mats_at o) (mats T)).

(** ** More of BlockMatrix *)

Definition cell_mats (c : cell) : list TPMatrix :=
  match c with
  | CellNumber _ => []
  | CellList l => l
  end.

(** [self.get_mats()]: the matrices of all cells, row by row. *)
Definition get_mats (B : BlockMatrix) : list TPMatrix :=
  flat_map (flat_map cell_mats) (bm_mats B).

(** One round of the loop [for m in mat] of [__iadd__] on [self.mats]. *)
Definition add_term (h : heap) (rows : list (list cell)) (m : TPMatrix)
  : result (list (list cell)) :=
  match global_index m with
  | None => Raise TypeError
  | Some (gi, gj) =>
      match py_item_index (length rows) gi with
      | None => Raise IndexError
      | Some i =>
          match rows !! i with
          | None => Raise IndexError
          | Some row =>
              match py_item_index (length row) gj with
              | None => Raise IndexError
              | Some j =>
                  match row !! j with
                  | None => Raise IndexError
                  | Some (CellNumber _) => Ok (<[i := <[j := CellList [m]]> row]> rows)
                  | Some (CellList m0) =>
                      let+ q := merge_equal h m m0 in
                      Ok (<[i := <[j := CellList (if snd q then fst q else fst q ++ [m])]> row]>
                            rows)
                  end
              end
          end
      end
  end.

Fixpoint add_term_list (h : heap) (rows : list (list cell)) (tpmats : list TPMatrix)
  : result (list (list cell)) :=
  match tpmats with
  | [] => Ok rows
  | m :: r =>
      let+ rows' := add_term h rows m in
      add_term_list h rows' r
  end.

(** [self.__iadd__(a)] for a list [a] of TPMatrices: the object [self]
    after the call, and the value that the call returns.  The method has
    no [return], so the value is [None]. *)
Definition BlockMatrix___iadd__ (h : heap) (B : BlockMatrix) (tpmats : list TPMatrix)
  : result (BlockMatrix * option BlockMatrix) :=
  let+ rows := add_term_list h (bm_mats B) tpmats in
  Ok (mkBlockMatrix rows (testbase_is_mixed B), None).

(** The statement [B += a]: the value that the name [B] is bound to
    afterwards is the one [__iadd__] returns. *)
Definition iadd_statement (h : heap) (B : BlockMatrix) (tpmats : list TPMatrix)
  : result (option BlockMatrix) :=
  let+ r := BlockMatrix___iadd__ h B tpmats in
  Ok (snd r).

(** What the constructor reads from the attributes [testbase] and
    [trialbase] of a TPMatrix: the numbers of components, and whether the
    test base is a [MixedFunctionSpace]. *)
Record base_info := mkBaseInfo {
  test_components : nat;
  trial_components : nat;
  test_is_mixed : bool
}.

(** [BlockMatrix(tpmats)] for a list of TPMatrices; [base_of m] is [None]
    when [m.testbase] or [m.trialbase] is [None].  The last statement,
    [self += tpmats], rebinds only the local name [self]: the object under
    construction is the one [__iadd__] has filled. *)
Definition BlockMatrix___init__ (base_of : TPMatrix -> option base_info) (h : heap)
    (tpmats : list TPMatrix) : result BlockMatrix :=
  match tpmats with
  | [] => Raise IndexError
  | _ :: _ =>
      let+ tp := get_simplified_tpmatrices h tpmats in
      match tp with
      | [] => Raise IndexError
      | t0 :: _ =>
          match base_of t0 with
          | None => Raise AttributeError
          | Some bi =>
              let zeros := replicate (test_components bi)
                             (replicate (trial_components bi) (CellNumber 0)) in
              let+ r := BlockMatrix___iadd__ h (mkBlockMatrix zeros (test_is_mixed bi)) tp in
              Ok (fst r)
          end
      end
  end.

(** ** Boundary matrices taken out of lists *)

(** [a.remove(b)] on a list of TPMatrix objects, each with its identity:
    the first item that is [b], or that compares equal to [b], is
    removed. *)
Fixpoint remove_object (h : heap) (b : nat * TPMatrix) (a : list (nat * TPMatrix))
  : result (list (nat * TPMatrix)) :=
  match a with
  | [] => Raise ValueError
  | x :: r =>
      if Nat.eqb (fst x) (fst b) then Ok r
      else
        let+ e := TPMatrix___eq__ h (snd x) (snd b) in
        if e : bool then Ok r
        else let+ r' := remove_object h b r in Ok (x :: r')
  end.

(** The loop [for b in a.copy()] over the items still to visit; [a] is the
    list as it is now and [bc_mats] the list being filled. *)
Fixpoint extract_bc_loop (h : heap) (todo a bc_mats : list (nat * TPMatrix))
  : result (list (nat * TPMatrix) * list (nat * TPMatrix)) :=
  match todo with
  | [] => Ok (a, bc_mats)
  | b :: r =>
      if TPMatrix_is_bc_matrix (snd b) then
        let+ a' := remove_object h b a in
        extract_bc_loop h r a' (bc_mats ++ [b])
      else extract_bc_loop h r a bc_mats
  end.

Fixpoint extract_bc_lists (h : heap) (mats : list (list (nat * TPMatrix)))
    (bc_mats : list (nat * TPMatrix))
  : result (list (list (nat * TPMatrix)) * list (nat * TPMatrix)) :=
  match mats with
  | [] => Ok ([], bc_mats)
  | a :: r =>
      let+ p := extract_bc_loop h a a bc_mats in
      let+ q := extract_bc_lists h r (snd p) in
      Ok (fst p :: fst q, snd q)
  end.

(** [extract_bc_matrices(mats)]: the lists of [mats] as the call leaves
    them, and the list it returns. *)
Definition extract_bc_matrices (h : heap) (mats : list (list (nat * TPMatrix)))
  : result (list (list (nat * TPMatrix)) * list (nat * TPMatrix)) :=
  extract_bc_lists h mats [].

(** [BlockMatrices(tpmats)] for a list of TPMatrices. *)
Definition BlockMatrices (base_of : TPMatrix -> option base_info) (h : heap)
    (tpmats : list (nat * TPMatrix)) : result (BlockMatrix * BlockMatrix) :=
  let+ p := extract_bc_matrices h [tpmats] in
  if negb (0 <? length (snd p))%nat then Raise AssertionError
  else
    let+ B := BlockMatrix___init__ base_of h (map snd (concat (fst p))) in
    let+ Bbc := BlockMatrix___init__ base_of h (map snd (snd p)) in
    Ok (B, Bbc).

(** ** Lists of TPMatrix objects *)

(** [get_simplified] returns [self] when there is nothing to simplify, and
    [b += a] assigns to the attribute [scale] of the object [b].  The
    objects are kept in a store by address; [next_id] is the first address
    not in use. *)
Record tpstore := mkStore {
  next_id : nat;
  at_id : nat -> TPMatrix
}.

Definition update (s : nat -> TPMatrix) (a : nat) (T : TPMatrix) : nat -> TPMatrix :=
  fun x => if Nat.eqb x a then T else s x.

(** [tpmat.get_simplified()] on the object at [a]: the address of the
    result, which is [a] itself or a new object. *)
Definition get_simplified_obj (h : heap) (s : tpstore) (a : nat) : result (nat * tpstore) :=
  let T := at_id s a in
  if Nat.eqb (length (diagonal_axes_of T)) 0 || _issimplified T then Ok (a, s)
  else
    let+ T' := get_simplified h T in
    Ok (next_id s, mkStore (S (next_id s)) (update (at_id s) (next_id s) T')).

(** The loop [for tpmat in tpmats: A.append(tpmat.get_simplified())]. *)
Fixpoint simplify_objs (h : heap) (s : tpstore) (tpmats : list nat)
  : result (list nat * tpstore) :=
  match tpmats with
  | [] => Ok ([], s)
  | a :: r =>
      let+ p := get_simplified_obj h s a in
      let+ q := simplify_objs h (snd p) r in
      Ok (fst p :: fst q, snd q)
  end.

(** The loop [for b in B: if a == b: b += a; found = True]: the objects as
    the loop leaves them, and [found]. *)
Fixpoint merge_equal_obj (h : heap) (a : nat) (B : list nat) (s : nat -> TPMatrix)
  : result ((nat -> TPMatrix) * bool) :=
  match B with
  | [] => Ok (s, false)
  | b :: r =>
      let+ e := TPMatrix___eq__ h (s a) (s b) in
      if e : bool then
        let+ b' := TPMatrix___iadd__ h (s b) (s a) in
        let+ q := merge_equal_obj h a r (update s b b') in
        Ok (fst q, true)
      else merge_equal_obj h a r s
  end.

(** The loop [for a in A[1:]] of [get_simplified_tpmatrices]. *)
Fixpoint add_equal_objs (h : heap) (rest B : list nat) (s : nat -> TPMatrix)
  : result (list nat * (nat -> TPMatrix)) :=
  match rest with
  | [] => Ok (B, s)
  | a :: r =>
      let+ q := merge_equal_obj h a B s in
      add_equal_objs h r (if snd q then B else B ++ [a]) (fst q)
  end.

(** [get_simplified_tpmatrices(tpmats)] on a list of objects: the list
    returned and the objects as the call leaves them. *)
Definition get_simplified_tpmatrices_obj (h : heap) (s : tpstore) (tpmats : list nat)
  : result (list nat * tpstore) :=
  let+ p := simplify_objs h s tpmats in
  match fst p with
  | [] => Raise IndexError
  | a0 :: rest =>
      let+ q := add_equal_objs h rest [a0] (at_id (snd p)) in
      Ok (fst q, mkStore (next_id (snd p)) (snd q))
  end.

(** * Vocabulary of the statements *)

(** ** Heap and dictionaries *)

Definition resolve (h : heap) (d : dict dval) : dict (list float) :=
  map (fun p => (fst p, dentries h (snd p))) d.

Definition dval_valid (h : heap) (v : dval) : Prop :=
  match v with Arr l => (l < length h)%nat | Scalar _ => True end.

Definition locs_valid (h : heap) (d : dict dval) : Prop :=
  Forall (fun p => dval_valid h (snd p)) d.

Definition dval_fresh (n : nat) (v : dval) : Prop :=
  match v with Arr l => (n <= l)%nat | Scalar _ => True end.

(** The memo of a deep copy in progress: every array met so far has a
    copy with the same contents, created after the copy began. *)
Definition memo_ok (n0 : nat) (h : heap) (memo : list (loc * loc)) : Prop :=
  Forall (fun p => (fst p < length h)%nat /\ (n0 <= snd p < length h)%nat /\
                   harr h (snd p) = harr h (fst p)) memo.

Definition class_inv (A : SparseMatrix) : Prop :=
  cls A = Identity_cls -> _storage A = [(0, Scalar 1%float)].

Definition fresh_from (n : nat) (d : dict dval) : Prop :=
  Forall (fun p => dval_fresh n (snd p)) d.

Definition copy_cls (c : pyclass) : pyclass :=
  match c with Identity_cls => Identity_cls | _ => SparseMatrix_cls end.

(** A matrix whose assembled data are all finite: [diags] succeeds (at
    least one diagonal, offsets in bounds, lengths that fit) and no entry
    is infinite or NaN. *)
Definition finite_data (h : heap) (A : SparseMatrix) : Prop :=
  exists data, diags_csr_data h A = Ok data /\ forallb is_finite data = true.

Definition is_spectral (A : SparseMatrix) : bool :=
  match cls A with SpectralMatrix_cls _ _ _ => true | _ => false end.

(** The general branch of [__add__] and [__sub__]. *)
Definition combine (neg : bool) (A d : SparseMatrix) : M (SparseMatrix * SparseMatrix) :=
  let* c := deepcopy_dict A in
  let* f := incorporate_scale (SparseMatrix_new c (shape A) (scale A)) in
  let* d' := incorporate_scale d in
  let* fs := merge_items neg (_storage d') (_storage f) in
  ret (set_storage f fs, d').

Definition not_tiny (s : float) : Prop := (abs s <? 1e-15)%float = false.

Definition roundtrip_mul_div (A : SparseMatrix) (c : float) : M bool :=
  let* C := __mul__ A c in
  let* D := __truediv__ C c in
  lift (fun h => py_eq h D A).

Definition roundtrip_add_sub (A B : SparseMatrix) : M bool :=
  let* p := __add__ A B in
  let* q := __sub__ (fst p) (snd p) in
  lift (fun h => py_eq h (fst q) A).

Definition dense_wf (D : dense) : Prop :=
  length (drows D) = fst (dshape D) /\
  Forall (fun r => length r = snd (dshape D)) (drows D).

(** The retention test of a diagonal against a given global maximum. *)
Definition keepb (abstol reltol relmax : float) (u : list float) : bool :=
  match abs_max u with
  | Ok m => (abstol <? m)%float && (reltol <? m / relmax)%float
  | Raise _ => false
  end.

(** The retention test of the matrix [D]: the largest absolute value of
    the diagonal exceeds [abstol], and its quotient by the largest
    absolute entry of [D] exceeds [reltol]. *)
Definition retained (D : dense) (abstol reltol : float) (k : Z) : bool :=
  match abs_max (diagonal D k), abs_max (concat (drows D)) with
  | Ok m, Ok g => (abstol <? m)%float && (reltol <? m / g)%float
  | _, _ => false
  end.

(** The factor that the matrix of a diagonal axis brings to the scale:
    its diagonal value, times the matrix's own scale and laid along the
    axis when it is an array. *)
Definition diagonal_factor (h : heap) (T : TPMatrix) (axis : nat) (mat : SparseMatrix)
  : result ndarray :=
  let+ d := __getitem__ mat 0 in
  match d with
  | Scalar x => Ok (Leaf x)
  | Arr l => broadcast_to_ndims (space T) axis
               (map (fun x => x * scale mat)%float (harr h l))
  end.

Fixpoint multiply_all (sc : ndarray) (fs : list ndarray) : result ndarray :=
  match fs with
  | [] => Ok sc
  | f :: r => let+ sc' := nd_mul sc f in multiply_all sc' r
  end.

(** The factors of the diagonal axes among [ms], the matrices of the axes
    [axis], [axis + 1], ... *)
Fixpoint diagonal_factors (h : heap) (T : TPMatrix) (dax : list nat) (axis : nat)
    (ms : list SparseMatrix) : result (list ndarray) :=
  match ms with
  | [] => Ok []
  | mat :: r =>
      if bool_decide (axis ∈ dax) then
        let+ f := diagonal_factor h T axis mat in
        let+ fs := diagonal_factors h T dax (S axis) r in
        Ok (f :: fs)
      else diagonal_factors h T dax (S axis) r
  end.

Definition simplified_mat (dax : list nat) (axis : nat) (mat : SparseMatrix) : SparseMatrix :=
  if bool_decide (axis ∈ dax) then Identity (shape mat) 1%float else mat.

(** The part of the scale array that belongs to this process. *)
Definition local_part (sp : TensorProductSpace) (sc : ndarray) : result ndarray :=
  if (1 <? dimensions sp)%nat then
    let+ ss := decomposition_slices (local_slice sp) (replicate (dimensions sp) None) 0
                 (nd_shape sc) in
    nd_slice ss sc
  else Ok sc.

Fixpoint ndarray_ind (P : ndarray -> Prop)
    (HL : forall x, P (Leaf x))
    (HN : forall l, Forall P l -> P (Node l)) (a : ndarray) : P a :=
  match a with
  | Leaf x => HL x
  | Node l =>
      HN l ((fix go (l : list ndarray) : Forall P l :=
               match l with
               | [] => List.Forall_nil P
               | x :: r => List.Forall_cons P x r (ndarray_ind P HL HN x) (go r)
               end) l)
  end.

(** The zero-axes branch of [solve], with the two elementwise steps on the
    scale read as one. *)
Definition solve_zero_axes (tpmat : TPMatrix) (b : ndarray) (u : option ndarray)
    (constraints : list (Z * float)) : result (option ndarray) :=
  let sl := map Some (bases_slices (trialspace tpmat)) in
  let+ _ :=
    match constraints with
    | [] => Ok tt
    | (r, x) :: _ => if (r =? 0) && (x =? 0)%float then Ok tt else Raise AssertionError
    end in
  let d := nd_map guarded_inverse (tscale tpmat) in
  let u0 := match u with
            | Some u0 => u0
            | None => nd_zeros (function_shape (space tpmat))
            end in
  let+ bs := nd_slice sl b in
  let+ ds := nd_slice sl d in
  let+ p := nd_mul bs ds in
  let+ u1 := nd_setslice sl u0 p in
  Ok (Some u1).

(** The result is not the error of the mixture test. *)
Definition not_runtime {A} (r : result A) : Prop := r <> Raise RuntimeError.

(** Two arrays have the same shape. *)
Fixpoint same_shape (a b : ndarray) : Prop :=
  match a, b with
  | Leaf _, Leaf _ => True
  | Node la, Node lb =>
      (fix go (la lb : list ndarray) : Prop :=
         match la, lb with
         | [], [] => True
         | x :: la', y :: lb' => same_shape x y /\ go la' lb'
         | _, _ => False
         end) la lb
  | _, _ => False
  end.

(** [acc + s1 + s2 + ...], from left to right. *)
Fixpoint add_all (acc : ndarray) (l : list ndarray) : result ndarray :=
  match l with
  | [] => Ok acc
  | s :: r => let+ acc' := nd_add acc s in add_all acc' r
  end.

(** [a == b] on TPMatrices, read as a truth value ([False] when the
    comparison fails). *)
Definition teqb (h : list (list float)) (x y : TPMatrix) : bool :=
  match TPMatrix___eq__ h x y with Ok true => true | _ => false end.

(** [b] is the term [a] but for its scale array. *)
Definition same_core (b a : TPMatrix) : Prop := set_tscale b (tscale a) = a.

(** A term of [A] but for its scale array. *)
Definition variant (A : list TPMatrix) (b : TPMatrix) : Prop := exists a, a ∈ A /\ same_core b a.

(** What the inner loop makes of one term of [B]. *)
Definition absorbed (h : list (list float)) (a b b' : TPMatrix) : Prop :=
  if teqb h a b
  then exists s, nd_add (tscale b) (tscale a) = Ok s /\ b' = set_tscale b s /\
                 same_shape s (tscale b)
  else b' = b.

(** The scale array of [b] has the shape of those of its class in [A]. *)
Definition shape_ok (h : list (list float)) (A : list TPMatrix) (b : TPMatrix) : Prop :=
  forall x, x ∈ A -> teqb h b x = true -> same_shape (tscale b) (tscale x).

(** The members of the class of [b] among the terms [P] seen so far:
    [b] is the first of them but for the scale, which is the sum of
    theirs. *)
Definition class_ok (h : list (list float)) (P : list TPMatrix) (b : TPMatrix) : Prop :=
  exists a0 rest,
    filter (fun x => teqb h b x = true) P = a0 :: rest /\
    same_core b a0 /\
    add_all (tscale a0) (map tscale rest) = Ok (tscale b).

(** No two terms of [B] are equal. *)
Definition pairwise_distinct (h : list (list float)) (B : list TPMatrix) : Prop :=
  forall i j b b', i <> j -> B !! i = Some b -> B !! j = Some b' -> teqb h b b' = false.

(** [B] is the merge of the terms [P]. *)
Record merged (h : list (list float)) (A P B : list TPMatrix) : Prop := {
  m_variant : Forall (variant A) B;
  m_shape : Forall (shape_ok h A) B;
  m_class : Forall (class_ok h P) B;
  m_distinct : pairwise_distinct h B;
  m_cover : forall a, a ∈ P -> exists b, b ∈ B /\ teqb h a b = true
}.


(** * Concrete inputs *)

(** A 2 x 2 matrix with main diagonal [[1, 1]] and scale 2; next to it in
    the heap, the array [[2, 2]]. *)
Definition h_ex : list (list float) := [[1; 1]%float; [2; 2]%float].
Definition A_ex : SparseMatrix :=
  SparseMatrix_new [(0, Arr 0%nat)] (2%nat, 2%nat) 2%float.
Definition A1_ex : SparseMatrix :=
  SparseMatrix_new [(0, Arr 0%nat)] (2%nat, 2%nat) 1%float.
Definition B1_ex : SparseMatrix :=
  SparseMatrix_new [(0, Arr 1%nat)] (2%nat, 2%nat) 1%float.

(** [SparseMatrix({-6: 1, -1: 1, 0: 1, 3: 1, 4: 1}, (8, 8))] *)
Definition K5_ex : SparseMatrix :=
  SparseMatrix_new
    [(-6, Scalar 1%float); (-1, Scalar 1%float); (0, Scalar 1%float);
     (3, Scalar 1%float); (4, Scalar 1%float)] (8%nat, 8%nat) 1%float.

(** [A = SparseMatrix({0: np.array([1., 1.])}, (2, 2))] and
    [B = SparseMatrix({1: np.array([3.])}, (2, 2))]. *)
Definition h_alias : list (list float) := [[1; 1]%float; [3]%float].
Definition A_alias : SparseMatrix :=
  SparseMatrix_new [(0, Arr 0%nat)] (2%nat, 2%nat) 1%float.
Definition B_alias : SparseMatrix :=
  SparseMatrix_new [(1, Arr 1%nat)] (2%nat, 2%nat) 1%float.

(** [I = Identity((2, 2))] after [I[1] = np.array([3.])], the array at
    location 1 of the heap above. *)
Definition I_changed : SparseMatrix :=
  __setitem__ (Identity (2%nat, 2%nat) 1%float) 1 (Arr 1%nat).

(** A mass matrix of class [BJJmat] with diagonal [[1, 1]]. *)
Definition J_basis : basis := {| bclass := "Orthogonal"; boundary_condition := "" |}.
Definition BJJ_ex : SparseMatrix :=
  mkSparseMatrix [(0, Arr 0%nat)] (2%nat, 2%nat) 1%float
                 (SpectralMatrix_cls "BJJmat" (J_basis, 0) (J_basis, 0)).

(** A dense 2 x 3 matrix. *)
Definition D_ex : dense :=
  mkDense (2%nat, 3%nat) [[1; 0; 1e-12]%float; [5; 2; 0]%float].

Definition h_tp : list (list float) := [[2; 3]%float; [1; 1; 1]%float; [4; 4]%float].

(** Axis 0 carries a diagonal 2 x 2 matrix, axis 1 a 3 x 3 matrix with two
    diagonals. *)
Definition F_ex : SparseMatrix :=
  SparseMatrix_new [(0, Arr 0%nat)] (2%nat, 2%nat) 1%float.
Definition M_ex : SparseMatrix :=
  SparseMatrix_new [(0, Arr 1%nat); (2, Scalar 5%float)] (3%nat, 3%nat) 1%float.
Definition sp_ex : TensorProductSpace :=
  mkSpace 2 [1%nat] [(0, 2); (0, 3)]%nat [(0, 2); (0, 3)]%nat [2; 3]%nat false 1 [1; 1]%nat.
Definition T_ex (s : float) (gi : option (Z * Z)) : TPMatrix :=
  mkTPMatrix [F_ex; M_ex] sp_ex sp_ex (Node [Node [Leaf s]]) PmatInt [1%nat] gi false.

(** The same with a boundary matrix along axis 1. *)
Definition BC_basis : basis := {| bclass := "BCDirichlet"; boundary_condition := "Apply" |}.
Definition Mbc_ex : SparseMatrix :=
  mkSparseMatrix [(0, Arr 1%nat)] (3%nat, 3%nat) 1%float
                 (SpectralMatrix_cls "SpectralMatrix" (J_basis, 0) (BC_basis, 0)).
Definition Tbc_ex : TPMatrix :=
  mkTPMatrix [F_ex; Mbc_ex] sp_ex sp_ex (Node [Node [Leaf 1%float]]) PmatInt [1%nat] None false.

(** A term on a space with one axis, which is diagonal. *)
Definition sp0_ex : TensorProductSpace :=
  mkSpace 1 [] [(0, 2)]%nat [(0, 2)]%nat [2]%nat false 0 [1]%nat.
Definition F0_ex : SparseMatrix :=
  SparseMatrix_new [(0, Arr 2%nat)] (2%nat, 2%nat) 1%float.
Definition T0_ex : TPMatrix :=
  mkTPMatrix [F0_ex] sp0_ex sp0_ex (Node [Leaf 0.5%float; Leaf 0%float]) PmatInt [] None false.

Definition K_ex : kernels :=
  mkKernels (fun _ _ v _ _ => Ok v) (fun s => s) (fun _ _ v => Ok v)
            (fun _ _ v _ => Ok v) (fun _ _ b _ _ => Ok b) (fun _ _ b _ _ => Ok b).

Definition simplified_ex (T : TPMatrix) : TPMatrix :=
  Eval vm_compute in
    match get_simplified h_tp T with Ok T' => T' | Raise _ => T end.

Definition T1s_ex := Eval vm_compute in simplified_ex (T_ex 1 None).
Definition T2s_ex := Eval vm_compute in simplified_ex (T_ex 2 None).
Definition T3s_ex := Eval vm_compute in simplified_ex (T_ex 1 (Some (0, 1))).
Definition T0s_ex := Eval vm_compute in simplified_ex T0_ex.

(** Three TPMatrix objects: two terms that differ by the scale and one in
    another block. *)
Definition objs3_ex : tpstore :=
  mkStore 3 (fun x => match x with
                      | 0%nat => T_ex 1 None
                      | 1%nat => T_ex 2 None
                      | _ => T_ex 1 (Some (0, 1))
                      end).

(** * Vocabulary of the further properties *)

(** The difference [self[k] - self[-k]] that the symmetry test forms. *)
Definition mirror_diff (h : list (list float)) (A : SparseMatrix) (k : Z)
  : result (list float) :=
  let+ a := __getitem__ A k in
  let+ b := __getitem__ A (- k) in
  broadcast2 PrimFloat.sub (dentries h a) (dentries h b).

(** The diagonals at [k] and [-k] differ by less than 1e-8 in every entry. *)
Definition mirror_close (h : list (list float)) (A : SparseMatrix) (k : Z) : Prop :=
  exists df, mirror_diff h A k = Ok df /\
             Forall (fun x => (abs x <? 1e-8)%float = true) df.

(** ** Sums and differences, read on the entries *)

(** The scale of a matrix after [incorporate_scale]. *)
Definition folded_scale (s : float) : float :=
  if (abs (s - 1) <? 1e-8)%float then s else 1%float.

(** The entries of the diagonals of a matrix after [incorporate_scale]:
    multiplied by the scale, unless the scale is within 1e-8 of one. *)
Definition scaled_entries (h : list (list float)) (A : SparseMatrix) : dict (list float) :=
  if (abs (scale A - 1) <? 1e-8)%float then resolve h (_storage A)
  else map (fun p => (fst p, map (fun x => x * scale A)%float (snd p)))
           (resolve h (_storage A)).

(** The diagonal of a sum ([neg = false]) or a difference at one offset,
    from the diagonals of the two operands at that offset. *)
Definition combine_entry (neg : bool) (a b : option (list float))
  : result (option (list float)) :=
  match a, b with
  | Some x, Some y =>
      let+ c := broadcast2 (if neg then PrimFloat.sub else PrimFloat.add) x y in
      Ok (Some c)
  | Some x, None => Ok (Some x)
  | None, Some y => Ok (Some (if neg then map PrimFloat.opp y else y))
  | None, None => Ok None
  end.

(** The loops of [incorporate_scale] and of [__add__]/[__sub__], on
    entries. *)
Fixpoint scale_pure (s : float) (todo D : dict (list float)) : dict (list float) :=
  match todo with
  | [] => D
  | (k, v) :: r => scale_pure s r (dict_set k (map (fun x => x * s)%float v) D)
  end.

Fixpoint merge_pure (neg : bool) (todo F : dict (list float))
  : result (dict (list float)) :=
  match todo with
  | [] => Ok F
  | (k, v) :: r =>
      let+ w := combine_entry neg (dict_get k F) (Some v) in
      match w with
      | Some w => merge_pure neg r (dict_set k w F)
      | None => Ok F
      end
  end.

(** The steps that [__add__], [__sub__], [__iadd__] and [__isub__] share
    once the left operand [f] is chosen (a copy of [self], or [self]). *)
Definition fold_and_merge (neg : bool) (f d : SparseMatrix)
  : M (SparseMatrix * SparseMatrix) :=
  let* f' := incorporate_scale f in
  let* d' := incorporate_scale d in
  let* fs := merge_items neg (_storage d') (_storage f') in
  ret (set_storage f' fs, d').

(** ** Block matrices *)

(** [self.mats] has [r] rows of [c] cells. *)
Definition grid (r c : nat) (rows : list (list cell)) : Prop :=
  length rows = r /\ Forall (fun row => length row = c) rows.

(** Every matrix of a cell carries a global index that Python reads as the
    position of the cell (a negative index counts from the end), and no
    cell holds an empty list. *)
Definition placed (rows : list (list cell)) : Prop :=
  forall i j row l,
    rows !! i = Some row -> row !! j = Some (CellList l) ->
    l <> [] /\
    forall m, m ∈ l ->
      exists gi gj, global_index m = Some (gi, gj) /\
        py_item_index (length rows) gi = Some i /\ py_item_index (length row) gj = Some j.

(** The matrices of [L] carry global indices read as the position [(i, j)]
    in [nr] rows of [nc] cells. *)
Definition at_position (nr nc i j : nat) (L : list TPMatrix) : Prop :=
  Forall (fun g => exists gi gj, g = Some (gi, gj) /\
            py_item_index nr gi = Some i /\ py_item_index nc gj = Some j)
         (map global_index L).

(** Items of a list with one identity are one object. *)
Definition objects (a : list (nat * TPMatrix)) : Prop :=
  forall x y, x ∈ a -> y ∈ a -> fst x = fst y -> x = y.

(** In the list, a regular matrix compared with a boundary matrix is found
    different. *)
Definition bc_distinct (h : list (list float)) (a : list (nat * TPMatrix)) : Prop :=
  forall x b, x ∈ a -> b ∈ a ->
    TPMatrix_is_bc_matrix (snd x) = false -> TPMatrix_is_bc_matrix (snd b) = true ->
    TPMatrix___eq__ h (snd x) (snd b) = Ok false.

Definition is_bc (x : nat * TPMatrix) : Prop := TPMatrix_is_bc_matrix (snd x) = true.
Definition is_regular (x : nat * TPMatrix) : Prop := TPMatrix_is_bc_matrix (snd x) = false.

(** ** Copies of a TPMatrix *)

(** A matrix of a TPMatrix that can be copied and compared: its arrays are
    in the heap, and unless it is a [SpectralMatrix] its assembled data are
    finite. *)
Definition comparable (h : list (list float)) (m : SparseMatrix) : Prop :=
  locs_valid h (_storage m) /\ class_inv m /\
  (is_spectral m = false -> finite_data h m).

(** What a copy [c] of the matrix [m] is, read in the heap [h'] against
    [m] in the heap [h]. *)
Definition copy_of (h h' : list (list float)) (c m : SparseMatrix) : Prop :=
  shape c = shape m /\ scale c = scale m /\ cls c = copy_cls (cls m) /\
  dict_keys (_storage c) = dict_keys (_storage m) /\
  resolve h' (_storage c) = resolve h (_storage m).

(** What the copy [c] of any matrix [m] has of [m]: the shape, the scale,
    and the class [SparseMatrix] unless [m] is an [Identity]. *)
Definition copy_kind (c m : SparseMatrix) : Prop :=
  shape c = shape m /\ scale c = scale m /\ cls c = copy_cls (cls m).

(** A matrix whose key, if it is a [SpectralMatrix], is the name of its
    class: the name ends in "mat". *)
Definition mat_named (m : SparseMatrix) : Prop :=
  forall name tb rb, cls m = SpectralMatrix_cls name tb rb -> endswith_mat name = true.

(** ** The banded product, row by row *)

(** What the diagonal [a] at offset [k] of the assembled matrix adds to
    row [i] of the product with [v]: the entry [(i, i + k)] times
    [v[i + k]], when the diagonal has that entry. *)
Definition row_term (v : list float) (i : nat) (k : Z) (a : list float) : option float :=
  let j := Z.of_nat i + k in
  if 0 <=? j then
    match a !! Nat.min i (Z.to_nat j), v !! Z.to_nat j with
    | Some x, Some y => Some (x * y)%float
    | _, _ => None
    end
  else None.

(** Row [i] of the product, summed over the diagonals in their order from
    [acc]. *)
Definition row_sum (v : list float) (D : dict (list float)) (i : nat) (acc : float) : float :=
  fold_left (fun s p => match row_term v i (fst p) (snd p) with
                        | Some t => (s + t)%float
                        | None => s
                        end) D acc.

(** A stored diagonal fits its offset in a matrix of shape [sh]: the offset
    has entries in the matrix, and the diagonal has one entry or as many as
    the offset has. *)
Definition fits (h : list (list float)) (sh : nat * nat) (p : Z * dval) : Prop :=
  0 < diag_length sh (fst p) /\
  (length (dentries h (snd p)) = 1%nat \/
   Z.of_nat (length (dentries h (snd p))) = diag_length sh (fst p)).

(** ** check_sanity *)

(** The stored diagonal [p] of [A] passes the check against the dense
    matrix [D]: its offset is retained from [D], and the diagonal times the
    scale of [A] is close to the diagonal of [D]. *)
Definition sane (h : list (list float)) (A : SparseMatrix) (D : dense) (p : Z * dval) : Prop :=
  retained D 1e-10 1e-10 (fst p) = true /\
  allclose (map (fun x => x * scale A)%float (dentries h (snd p)))
           (diagonal D (fst p)) = Ok true.

(** ** Tests of a TPMatrix *)

(** The answer of a test that may raise, read as a boolean. *)
Definition passes (r : result bool) : bool :=
  match r with Ok b => b | Raise _ => false end.

(** Every matrix of [ms] at one of the axes [axes] passes [P]. *)
Definition at_axes (P : SparseMatrix -> bool) (ms : list SparseMatrix) (axes : list nat)
  : bool :=
  forallb (fun a => from_option P true (ms !! a)) axes.

(** The diagonal axes of a TPMatrix built on the space [sp]. *)
Definition diagonal_axes (sp : TensorProductSpace) : list nat :=
  setxor1d (get_nondiagonal_axes sp) (seq 0 (dimensions sp)).

(** ** Lists of TPMatrix objects *)

(** [get_simplified] returns the TPMatrix itself. *)
Definition returned_as_is (T : TPMatrix) : bool :=
  Nat.eqb (length (diagonal_axes_of T)) 0 || _issimplified T.

(** ** clean_diagonals *)

(** The number that [clean_diagonals] compares the norms with: the largest
    absolute entry of the product [a], divided by the number of columns,
    and 1 when that is zero. *)
Definition reference_size (A : SparseMatrix) (a : list float) : result float :=
  let+ m := abs_max a in
  let r := (m / float_of_nat (snd (shape A)))%float in
  Ok (if (r =? 0)%float then 1%float else r).

(** ** More concrete inputs *)

(** [SparseMatrix({2: 1, -2: 1, 0: 4}, (4, 4))]: the offsets are stored out
    of order. *)
Definition S3_ex : SparseMatrix :=
  SparseMatrix_new [(2, Scalar 1%float); (-2, Scalar 1%float); (0, Scalar 4%float)]
                   (4%nat, 4%nat) 1%float.

(** [SparseMatrix({-1: 1, 0: -2, 1: 1}, (4, 4))] *)
Definition L3_ex : SparseMatrix :=
  SparseMatrix_new [(-1, Scalar 1%float); (0, Scalar (-2)%float); (1, Scalar 1%float)]
                   (4%nat, 4%nat) 1%float.

(** Every TPMatrix has bases of one component, not mixed. *)
Definition base_ex (m : TPMatrix) : option base_info := Some (mkBaseInfo 1 1 false).

(** Two objects: a regular and a boundary TPMatrix. *)
Definition objs_ex : list (nat * TPMatrix) :=
  [(0%nat, T_ex 1 None); (1%nat, Tbc_ex)].

(** [SparseMatrix({0: np.array([1., 2.]), -1: 5}, (2, 3))], which holds the
    retained diagonals of the dense 2 x 3 matrix above. *)
Definition h_sane : list (list float) := [[1; 2]%float].
Definition A_sane : SparseMatrix :=
  SparseMatrix_new [(0, Arr 0%nat); (-1, Scalar 5%float)] (2%nat, 3%nat) 1%float.

(** An object whose list of matrices is at address 0 of the store, and its
    product with 2. *)
Definition st_ex : nat -> list SparseMatrix := fun _ => [F_ex; M_ex].
Definition o_ex : TPobject := mkTPobject 0 (T_ex 1 None).
Definition P_ex : TPobject :=
  mkTPobject 0 (mkTPMatrix [F_ex; M_ex] sp_ex sp_ex (Node [Node [Leaf 2%float]])
                           PmatInt [1%nat] None false).

(** Two objects, simplified forms of one term with the scales 1 and 2. *)
Definition objstore_ex : tpstore :=
  mkStore 2 (fun x => if Nat.eqb x 0 then T1s_ex else T2s_ex).

(** [SparseMatrix({0: np.array([1., 1.]), 1: 1e-12}, (2, 2))] *)
Definition C_ex : SparseMatrix :=
  SparseMatrix_new [(0, Arr 0%nat); (1, Scalar 1e-12%float)] (2%nat, 2%nat) 1%float.
Lemma SFcompare_Lt_asym a b : SFcompare a b = Some Lt -> SFcompare b a <> Some Lt.
Proof.
  destruct a as [sa|sa| |sa ma ea], b as [sb|sb| |sb mb eb]; simpl;
    try destruct sa; try destruct sb; try congruence.
  - rewrite (Z.compare_antisym ea eb). destruct (ea ?= eb) eqn:E; simpl; try congruence.
    change (PosDef.Pos.compare_cont Eq mb ma) with (Pos.compare_cont (CompOpp Eq) mb ma).
    rewrite <- Pos.compare_cont_antisym.
    destruct (Pos.compare_cont Eq ma mb); simpl; congruence.
  - rewrite (Z.compare_antisym ea eb). destruct (ea ?= eb) eqn:E; simpl; try congruence.
    change (PosDef.Pos.compare_cont Eq mb ma) with (Pos.compare_cont (CompOpp Eq) mb ma).
    rewrite <- Pos.compare_cont_antisym.
    destruct (Pos.compare_cont Eq ma mb); simpl; congruence.
Qed.

Lemma ltb_asym (a b : float) : (a <? b)%float = true -> (b <? a)%float = false.
Proof.
  rewrite !ltb_spec. unfold SFltb. intros H.
  destruct (SFcompare (Prim2SF a) (Prim2SF b)) as [[]|] eqn:E; try discriminate.
  apply SFcompare_Lt_asym in E.
  destruct (SFcompare (Prim2SF b) (Prim2SF a)) as [[]|]; congruence.
Qed.

Lemma sub_diag_finite (x : float) : is_finite x = true -> (x - x)%float = 0%float.
Proof.
  intros H. apply Prim2SF_inj. rewrite sub_spec.
  unfold is_finite, is_nan, is_infinity in H.
  rewrite !FloatAxioms.eqb_spec, abs_spec in H.
  destruct (Prim2SF x) as [s|s| |s m e] eqn:E; simpl in *.
  - destruct s; reflexivity.
  - destruct s; discriminate.
  - discriminate.
  - unfold SF64sub, SFsub. rewrite Z.min_id, Z.sub_diag. reflexivity.
Qed.

(** ** Heap and dictionary facts *)

Lemma harr_app h t l : (l < length h)%nat -> harr (h ++ t) l = harr h l.
Proof. intros H. unfold harr. by rewrite lookup_app_l. Qed.

Lemma harr_new h a : harr (h ++ [a]) (length h) = a.
Proof. unfold harr. by rewrite list_lookup_middle. Qed.

Lemma dentries_app h t v : dval_valid h v -> dentries (h ++ t) v = dentries h v.
Proof. destruct v; simpl; [done|]. apply harr_app. Qed.

Lemma resolve_app h t d : locs_valid h d -> resolve (h ++ t) d = resolve h d.
Proof.
  induction 1 as [|[k v] d Hv _ IH]; simpl; [done|].
  by rewrite IH, dentries_app.
Qed.

Lemma locs_valid_app h t d : locs_valid h d -> locs_valid (h ++ t) d.
Proof.
  intros H. eapply Forall_impl; [exact H|].
  intros [k [x|l]]; simpl; [done|].
  rewrite length_app. lia.
Qed.

Lemma sp_diags_rows_resolve h h' sh d d' :
  resolve h d = resolve h' d' -> sp_diags_rows h sh d = sp_diags_rows h' sh d'.
Proof.
  revert d'. induction d as [|[k v] d IH]; intros [|[k' v'] d']; simpl; try done.
  intros [= -> Hv Hd]. rewrite Hv. by rewrite (IH d' Hd).
Qed.

Lemma diags_csr_data_resolve h h' A a :
  shape A = shape a ->
  resolve h (_storage A) = resolve h' (_storage a) ->
  diags_csr_data h A = diags_csr_data h' a.
Proof.
  intros Hs Hr. unfold diags_csr_data, sp_diags. rewrite Hs.
  destruct (_storage A) as [|p d] eqn:EA, (_storage a) as [|p' d'] eqn:Ea; try done.
  by rewrite (sp_diags_rows_resolve h h' _ (p :: d) (p' :: d')).
Qed.

Lemma memo_get_ok n0 h memo l l' :
  memo_ok n0 h memo -> memo_get l memo = Some l' ->
  (n0 <= l' < length h)%nat /\ harr h l' = harr h l.
Proof.
  induction 1 as [|[a b] memo (Ha & Hb & Hab) _ IH]; simpl; [done|].
  destruct (Nat.eqb_spec l a) as [->|]; [|done].
  intros [= <-]. done.
Qed.

Lemma memo_ok_app n0 h t memo : memo_ok n0 h memo -> memo_ok n0 (h ++ t) memo.
Proof.
  intros H. eapply Forall_impl; [exact H|].
  intros [a b] (Ha & Hb & Hab); simpl in *.
  rewrite length_app. split; [lia|]. split; [lia|].
  rewrite !harr_app by lia. done.
Qed.

Lemma deepcopy_items_spec n0 d : forall memo h,
  locs_valid h d -> memo_ok n0 h memo -> (n0 <= length h)%nat ->
  exists d' t,
    deepcopy_items d memo h = Ok (d', h ++ t) /\
    resolve (h ++ t) d' = resolve h d /\
    dict_keys d' = dict_keys d /\
    locs_valid (h ++ t) d' /\
    Forall (fun p => dval_fresh n0 (snd p)) d'.
Proof.
  induction d as [|[k [x|l]] d IH]; intros memo h Hv Hm Hn; simpl.
  - exists [], []. rewrite app_nil_r. repeat split; constructor.
  - inversion Hv as [|? ? _ Hv']; subst.
    destruct (IH memo h Hv' Hm Hn) as (d' & t & E & Hr & Hk & Hl & Hf).
    exists ((k, Scalar x) :: d'), t. unfold bind. rewrite E. simpl.
    repeat split; try (constructor; done); by f_equal.
  - inversion Hv as [|? ? Hl0 Hv']; subst. simpl in Hl0.
    destruct (memo_get l memo) as [l'|] eqn:Eg.
    + destruct (memo_get_ok _ _ _ _ _ Hm Eg) as (Hb & Hc).
      destruct (IH memo h Hv' Hm Hn) as (d' & t & E & Hr & Hk & Hl & Hf).
      exists ((k, Arr l') :: d'), t. unfold bind. rewrite E. simpl.
      repeat split.
      * rewrite Hr. rewrite harr_app by lia. by rewrite Hc.
      * by f_equal.
      * constructor; [simpl; rewrite length_app; lia | done].
      * constructor; [simpl; lia | done].
    + unfold bind, alloc.
      assert (Hm' : memo_ok n0 (h ++ [harr h l]) ((l, length h) :: memo)).
      { constructor; [|by apply memo_ok_app].
        simpl. rewrite length_app. simpl. split; [lia|]. split; [lia|].
        rewrite harr_new. by rewrite harr_app. }
      destruct (IH ((l, length h) :: memo) (h ++ [harr h l])) as (d' & t & E & Hr & Hk & Hl & Hf).
      { by apply locs_valid_app. } { done. } { rewrite length_app. lia. }
      exists ((k, Arr (length h)) :: d'), (harr h l :: t).
      replace (h ++ harr h l :: t) with ((h ++ [harr h l]) ++ t)
        by (by rewrite <- app_assoc).
      rewrite E. simpl.
      repeat split.
      * rewrite Hr. f_equal.
        { f_equal. rewrite (harr_app (h ++ [harr h l]) t).
          - by rewrite harr_new.
          - rewrite length_app. simpl. lia. }
        rewrite (resolve_app h [harr h l]); done.
      * by f_equal.
      * constructor; [simpl; rewrite !length_app; simpl; lia | done].
      * constructor; [simpl; lia | done].
Qed.

(** ** Copies keep the values and create new arrays *)

Lemma deepcopy_dict_spec h A :
  locs_valid h (_storage A) ->
  exists d' t,
    deepcopy_dict A h = Ok (d', h ++ t) /\
    resolve (h ++ t) d' = resolve h (_storage A) /\
    dict_keys d' = dict_keys (_storage A) /\
    locs_valid (h ++ t) d' /\ fresh_from (length h) d'.
Proof.
  intros Hv. apply (deepcopy_items_spec (length h)); [done|constructor|lia].
Qed.

(** A copy without a condition on the class: the copy of an [Identity] is
    a new [Identity], whatever the storage of the original holds. *)
Lemma copy_total h A :
  locs_valid h (_storage A) ->
  exists c t,
    copy A h = Ok (c, h ++ t) /\
    shape c = shape A /\ scale c = scale A /\ cls c = copy_cls (cls A) /\
    locs_valid (h ++ t) (_storage c) /\ fresh_from (length h) (_storage c) /\
    (class_inv A ->
       resolve (h ++ t) (_storage c) = resolve h (_storage A) /\
       dict_keys (_storage c) = dict_keys (_storage A)) /\
    (cls A = Identity_cls -> c = Identity (shape A) (scale A) /\ t = []).
Proof.
  intros Hv. unfold copy.
  destruct (deepcopy_dict_spec h A Hv) as (d' & t & E & Hr & Hk & Hl & Hf).
  destruct (cls A) eqn:EA.
  - exists (SparseMatrix_new d' (shape A) (scale A)), t.
    unfold bind. rewrite E. simpl. done.
  - exists (Identity (shape A) (scale A)), [].
    rewrite app_nil_r. simpl.
    split; [done|]. split; [done|]. split; [done|]. split; [done|].
    split; [repeat constructor|]. split; [repeat constructor|]. split; [|done].
    intros Hc. by rewrite (Hc EA).
  - exists (SparseMatrix_new d' (shape A) (scale A)), t.
    unfold bind. rewrite E. simpl. done.
Qed.

Lemma copy_spec h A :
  locs_valid h (_storage A) -> class_inv A ->
  exists c t,
    copy A h = Ok (c, h ++ t) /\
    shape c = shape A /\ scale c = scale A /\ cls c = copy_cls (cls A) /\
    resolve (h ++ t) (_storage c) = resolve h (_storage A) /\
    dict_keys (_storage c) = dict_keys (_storage A) /\
    locs_valid (h ++ t) (_storage c) /\ fresh_from (length h) (_storage c).
Proof.
  intros Hv Hc. unfold copy.
  destruct (deepcopy_dict_spec h A Hv) as (d' & t & E & Hr & Hk & Hl & Hf).
  destruct (cls A) eqn:EA.
  - exists (SparseMatrix_new d' (shape A) (scale A)), t.
    unfold bind. rewrite E. simpl. done.
  - exists (Identity (shape A) (scale A)), [].
    rewrite app_nil_r, (Hc EA). simpl.
    repeat split; repeat constructor.
  - exists (SparseMatrix_new d' (shape A) (scale A)), t.
    unfold bind. rewrite E. simpl. done.
Qed.

(** ** Equality of matrices that read the same *)

Lemma fold_sq_zeros (l : list float) :
  Forall (fun x => x = 0%float) l ->
  fold_left (fun s x => (s + x * x)%float) l 0%float = 0%float.
Proof.
  induction 1 as [|x l -> _ IH]; simpl; [done|].
  exact IH.
Qed.

Lemma sub_self_zeros (l : list float) :
  forallb is_finite l = true ->
  Forall (fun x => x = 0%float) (zip_with PrimFloat.sub l l).
Proof.
  induction l as [|x l IH]; simpl; [constructor|].
  intros [Hx Hl]%andb_prop. constructor; [by apply sub_diag_finite | by apply IH].
Qed.

Lemma norm_sub_self (l : list float) :
  forallb is_finite l = true ->
  (norm (zip_with PrimFloat.sub l l) <? 1e-8)%float = true.
Proof.
  intros H. unfold norm, fsum_sq. rewrite fold_sq_zeros by by apply sub_self_zeros.
  reflexivity.
Qed.

Lemma eq_data_same h A a data :
  diags_csr_data h A = Ok data -> diags_csr_data h a = Ok data ->
  forallb is_finite data = true ->
  eq_data h A a = Ok true.
Proof.
  intros EA Ea Hf. unfold eq_data. rewrite EA, Ea. simpl.
  rewrite Nat.eqb_refl. simpl. by rewrite norm_sub_self.
Qed.

Lemma pykey_eqb_refl k : pykey_eqb k k = true.
Proof.
  destruct k; simpl; rewrite ?Z.eqb_refl, ?String.eqb_refl; done.
Qed.

Lemma shape_eqb_refl s : shape_eqb s s = true.
Proof. unfold shape_eqb. by rewrite !Nat.eqb_refl. Qed.

Lemma py_eq_copy_like h h' C A :
  is_spectral A = false -> cls C = copy_cls (cls A) ->
  shape C = shape A ->
  dict_keys (_storage C) = dict_keys (_storage A) ->
  resolve h' (_storage C) = resolve h (_storage A) ->
  resolve h' (_storage A) = resolve h (_storage A) ->
  finite_data h A ->
  py_eq h' C A = Ok true.
Proof.
  intros Hs Hc Hsh Hk Hr Hr' (data & Ed & Hf).
  assert (E1 : diags_csr_data h' C = Ok data).
  { rewrite <- Ed. by apply diags_csr_data_resolve. }
  assert (E2 : diags_csr_data h' A = Ok data).
  { rewrite <- Ed. by apply diags_csr_data_resolve. }
  assert (Hm : SparseMatrix___eq__ h' C A = Ok true).
  { unfold SparseMatrix___eq__. rewrite Hsh, shape_eqb_refl. simpl.
    unfold same_keys, __hash__. rewrite Hc.
    unfold is_spectral in Hs. destruct (cls A); try done; simpl;
      rewrite Hk, Z.eqb_refl; simpl; by apply eq_data_same with data. }
  unfold py_eq, method___eq__. rewrite Hc.
  unfold is_spectral in Hs. destruct (cls A); try done.
Qed.
Lemma mul_spec_copy h A y :
  locs_valid h (_storage A) -> class_inv A ->
  exists c t,
    __mul__ A y h = Ok (c, h ++ t) /\
    shape c = shape A /\ scale c = (scale A * y)%float /\ cls c = copy_cls (cls A) /\
    resolve (h ++ t) (_storage c) = resolve h (_storage A) /\
    dict_keys (_storage c) = dict_keys (_storage A) /\
    locs_valid (h ++ t) (_storage c) /\ fresh_from (length h) (_storage c).
Proof.
  intros Hv Hc.
  destruct (copy_spec h A Hv Hc) as (c & t & E & Hs & Hsc & Hcl & Hr & Hk & Hl & Hf).
  exists (set_scale c (scale c * y)%float), t.
  unfold __mul__, bind. rewrite E. simpl. rewrite Hsc. done.
Qed.

Lemma div_spec_copy h A y :
  locs_valid h (_storage A) -> class_inv A -> (1e-8 <? abs y)%float = true ->
  exists c t,
    __truediv__ A y h = Ok (c, h ++ t) /\
    shape c = shape A /\ scale c = (scale A / y)%float /\ cls c = copy_cls (cls A) /\
    resolve (h ++ t) (_storage c) = resolve h (_storage A) /\
    dict_keys (_storage c) = dict_keys (_storage A) /\
    locs_valid (h ++ t) (_storage c) /\ fresh_from (length h) (_storage c).
Proof.
  intros Hv Hc Hy.
  destruct (copy_spec h A Hv Hc) as (c & t & E & Hs & Hsc & Hcl & Hr & Hk & Hl & Hf).
  exists (set_scale c (scale c / y)%float), t.
  unfold __truediv__, __div__, bind. rewrite Hy. simpl. rewrite E. simpl. rewrite Hsc. done.
Qed.


Lemma py_eq_set_scale_l h A a s : py_eq h (set_scale A s) a = py_eq h A a.
Proof. reflexivity. Qed.

Lemma py_eq_set_scale_r h A a s : py_eq h A (set_scale a s) = py_eq h A a.
Proof. reflexivity. Qed.

Lemma pykey_spectral_frozenset A ks :
  is_spectral A = true -> pykey_eqb (get_key A) (KFrozenset ks) = false.
Proof.
  unfold is_spectral, get_key, __hash__.
  destruct (cls A) as [| |name [tb k] [rb q]]; try done.
  intros _. by destruct (endswith_mat name).
Qed.


(** ** Offsets kept by addition and subtraction *)

Lemma dict_set_keys {V} (k k' : Z) (v : V) (d : dict V) :
  k' ∈ dict_keys (dict_set k v d) <-> k' = k \/ k' ∈ dict_keys d.
Proof.
  induction d as [|[a b] d IH]; simpl.
  - rewrite list_elem_of_singleton. split; [by left|]. intros [H|H]; [done|]. inversion H.
  - destruct (Z.eqb_spec k a) as [->|Hne]; simpl.
    + rewrite elem_of_cons. tauto.
    + rewrite !elem_of_cons, IH. tauto.
Qed.

Lemma scale_items_keys s todo : forall d h d' h',
  scale_items s todo d h = Ok (d', h') ->
  forall k, k ∈ dict_keys d -> k ∈ dict_keys d'.
Proof.
  induction todo as [|[a v] todo IH]; intros d h d' h'; simpl.
  - intros [= <- <-]. done.
  - unfold bind. destruct (dval_map _ v h) as [[v' h1]|e] eqn:E; [|done].
    intros H k Hk. eapply IH; [exact H|]. apply dict_set_keys. by right.
Qed.

Lemma incorporate_scale_inv A h A' h' :
  incorporate_scale A h = Ok (A', h') ->
  cls A' = cls A /\ shape A' = shape A /\
  (scale A' = scale A \/ scale A' = 1%float) /\
  (forall k, k ∈ dict_keys (_storage A) -> k ∈ dict_keys (_storage A')).
Proof.
  unfold incorporate_scale.
  destruct (abs (scale A - 1) <? 1e-8)%float.
  - intros [= <- <-]. auto.
  - unfold bind.
    destruct (scale_items _ _ _ h) as [[d h1]|e] eqn:E; [|done].
    intros [= <- <-]. simpl. repeat split; auto.
    intros k Hk. eapply scale_items_keys; eauto.
Qed.

Lemma merge_items_keys neg todo : forall f h fs h',
  merge_items neg todo f h = Ok (fs, h') ->
  forall k, k ∈ dict_keys todo \/ k ∈ dict_keys f -> k ∈ dict_keys fs.
Proof.
  induction todo as [|[a v] todo IH]; intros f h fs h'; simpl.
  - intros [= <- <-] k [H|H]; [inversion H | done].
  - assert (Hstep : forall w h1, merge_items neg todo (dict_set a w f) h1 = Ok (fs, h') ->
              forall k, k ∈ a :: dict_keys todo \/ k ∈ dict_keys f -> k ∈ dict_keys fs).
    { intros w h1 H k Hk. eapply IH; [exact H|].
      rewrite dict_set_keys. rewrite elem_of_cons in Hk. tauto. }
    destruct (dict_get a f) as [fv|].
    + unfold bind. destruct (dval_binop _ fv v h) as [[w h1]|e]; [|done]. apply Hstep.
    + destruct neg.
      * unfold bind. destruct (dval_map _ v h) as [[w h1]|e]; [|done]. apply Hstep.
      * apply Hstep.
Qed.

Lemma add_general A d : not_tiny (scale A) -> not_tiny (scale d) ->
  __add__ A d = combine false A d.
Proof. unfold __add__, not_tiny. by intros -> ->. Qed.

Lemma sub_general A d : not_tiny (scale A) -> not_tiny (scale d) ->
  __sub__ A d = combine true A d.
Proof. unfold __sub__, not_tiny. by intros -> ->. Qed.

Lemma combine_inv neg A d h f d' h' :
  not_tiny (scale A) -> not_tiny (scale d) ->
  combine neg A d h = Ok ((f, d'), h') ->
  cls f = SparseMatrix_cls /\ not_tiny (scale f) /\ not_tiny (scale d') /\
  (forall k, k ∈ dict_keys (_storage d) -> k ∈ dict_keys (_storage d')) /\
  (forall k, k ∈ dict_keys (_storage d') -> k ∈ dict_keys (_storage f)).
Proof.
  intros HA Hd. unfold combine, bind.
  destruct (deepcopy_dict A h) as [[c h1]|e]; [|done].
  destruct (incorporate_scale _ h1) as [[f0 h2]|e] eqn:E1; [|done].
  destruct (incorporate_scale d h2) as [[d0 h3]|e] eqn:E2; [|done].
  destruct (merge_items neg _ _ h3) as [[fs h4]|e] eqn:E3; [|done].
  intros [= <- <- <-].
  apply incorporate_scale_inv in E1 as (Hc1 & _ & Hs1 & _).
  apply incorporate_scale_inv in E2 as (_ & _ & Hs2 & Hk2).
  simpl in *. repeat split; try done.
  - destruct Hs1 as [->| ->]; done.
  - destruct Hs2 as [->| ->]; done.
  - intros k Hk. eapply merge_items_keys; eauto.
Qed.

Lemma deepcopy_items_keys d : forall memo h d' h',
  deepcopy_items d memo h = Ok (d', h') -> dict_keys d' = dict_keys d.
Proof.
  induction d as [|[k [x|l]] d IH]; intros memo h d' h'; simpl.
  - by intros [= <- <-].
  - unfold bind. destruct (deepcopy_items d memo h) as [[r h1]|e] eqn:E; [|done].
    intros [= <- <-]. simpl. f_equal. by eapply IH.
  - destruct (memo_get l memo).
    + unfold bind. destruct (deepcopy_items d memo h) as [[r h1]|e] eqn:E; [|done].
      intros [= <- <-]. simpl. f_equal. by eapply IH.
    + unfold bind, alloc.
      destruct (deepcopy_items d _ _) as [[r h1]|e] eqn:E; [|done].
      intros [= <- <-]. simpl. f_equal. by eapply IH.
Qed.

(** The sum and the difference store every offset of both operands. *)
Lemma combine_keys neg A d h f d' h' :
  combine neg A d h = Ok ((f, d'), h') ->
  forall k, k ∈ dict_keys (_storage A) \/ k ∈ dict_keys (_storage d) ->
            k ∈ dict_keys (_storage f).
Proof.
  unfold combine, bind.
  destruct (deepcopy_dict A h) as [[c h1]|e] eqn:E0; [|done].
  destruct (incorporate_scale _ h1) as [[f0 h2]|e] eqn:E1; [|done].
  destruct (incorporate_scale d h2) as [[d0 h3]|e] eqn:E2; [|done].
  destruct (merge_items neg _ _ h3) as [[fs h4]|e] eqn:E3; [|done].
  intros [= <- <- <-] k Hk. simpl.
  apply deepcopy_items_keys in E0.
  apply incorporate_scale_inv in E1 as (_ & _ & _ & Hk1).
  apply incorporate_scale_inv in E2 as (_ & _ & _ & Hk2).
  eapply merge_items_keys; [exact E3|].
  destruct Hk as [Hk|Hk]; [right|left].
  - apply Hk1. simpl. by rewrite E0.
  - by apply Hk2.
Qed.

(** [D == A] for a plain [D] and an [A] that is not a [SpectralMatrix]
    compares the hashes of the two sets of offsets. *)
Lemma py_eq_true_hash h D A :
  cls D = SparseMatrix_cls -> is_spectral A = false -> py_eq h D A = Ok true ->
  frozenset_hash (dict_keys (_storage D)) = frozenset_hash (dict_keys (_storage A)).
Proof.
  intros HD Hs. unfold py_eq, method___eq__. rewrite HD.
  unfold is_spectral in Hs.
  destruct (cls A) as [| |name [tb p] [rb q]] eqn:EA; [| |done].
  - unfold SparseMatrix___eq__.
    destruct (shape_eqb _ _); [simpl|done].
    destruct (same_keys D A) eqn:Ek; [simpl|done].
    intros _. unfold same_keys, __hash__ in Ek. rewrite HD, EA in Ek. simpl in Ek.
    by apply Z.eqb_eq in Ek.
  - unfold SparseMatrix___eq__.
    destruct (shape_eqb _ _); [simpl|done].
    destruct (same_keys A D) eqn:Ek; [simpl|done].
    intros _. unfold same_keys, __hash__ in Ek. rewrite HD, EA in Ek. simpl in Ek.
    by apply Z.eqb_eq in Ek.
Qed.


(** ** The diagonals kept by [extract_diagonal_matrix] *)

Lemma dict_get_set_eq {V} (k : Z) (v : V) (d : dict V) :
  dict_get k (dict_set k v d) = Some v.
Proof.
  induction d as [|[a b] d IH]; simpl.
  - by rewrite Z.eqb_refl.
  - destruct (Z.eqb_spec k a) as [->|Hne]; simpl.
    + by rewrite Z.eqb_refl.
    + destruct (Z.eqb_spec k a); [done|]. exact IH.
Qed.

Lemma dict_get_set_ne {V} (k k' : Z) (v : V) (d : dict V) :
  k' <> k -> dict_get k' (dict_set k v d) = dict_get k' d.
Proof.
  intros Hne. induction d as [|[a b] d IH]; simpl.
  - destruct (Z.eqb_spec k' k); done.
  - destruct (Z.eqb_spec k a) as [->|Hka]; simpl.
    + destruct (Z.eqb_spec k' a); done.
    + destruct (Z.eqb_spec k' a); [done|]. exact IH.
Qed.

Lemma keep_diagonal_keepb abstol reltol relmax u :
  u <> [] -> keep_diagonal abstol reltol relmax u = Ok (keepb abstol reltol relmax u).
Proof.
  intros Hu. unfold keep_diagonal, keepb, abs_max.
  destruct u as [|x u]; [done|]. simpl.
  by destruct (abstol <? _)%float.
Qed.

Section ExtractLoop.
Variables (D : dense) (abstol reltol relmax : float) (offset_of : nat -> Z).
Hypothesis offset_inj : forall i j, offset_of i = offset_of j -> i = j.

Local Abbreviation keeps k := (keepb abstol reltol relmax (diagonal D k)).

Lemma extract_loop_spec todo : forall d h,
  NoDup todo ->
  (forall i, i ∈ todo -> diagonal D (offset_of i) <> []) ->
  exists d' t,
    extract_loop D abstol reltol relmax offset_of todo d h = Ok (d', h ++ t) /\
    (forall i, i ∈ todo -> keeps (offset_of i) = true ->
       exists l, dict_get (offset_of i) d' = Some (Arr l) /\
                 (l < length (h ++ t))%nat /\
                 harr (h ++ t) l = diagonal D (offset_of i)) /\
    (forall k, (forall i, i ∈ todo -> offset_of i = k -> keeps k = false) ->
       dict_get k d' = dict_get k d).
Proof.
  induction todo as [|i todo IH]; intros d h Hnd Hne; simpl.
  - exists d, []. rewrite app_nil_r. split; [done|]. split; [|done].
    intros i Hi. inversion Hi.
  - inversion Hnd as [|? ? Hni Hnd']; subst.
    assert (Hne' : forall j, j ∈ todo -> diagonal D (offset_of j) <> []).
    { intros j Hj. apply Hne. by right. }
    unfold bind at 1, lift.
    rewrite keep_diagonal_keepb by (apply Hne; by left).
    destruct (keeps (offset_of i)) eqn:Ek.
    + unfold bind, alloc.
      destruct (IH (dict_set (offset_of i) (Arr (length h)) d)
                   (h ++ [diagonal D (offset_of i)]) Hnd' Hne')
        as (d' & t & E & P1 & P2).
      exists d', (diagonal D (offset_of i) :: t).
      replace (h ++ diagonal D (offset_of i) :: t)
        with ((h ++ [diagonal D (offset_of i)]) ++ t) by (by rewrite <- app_assoc).
      split; [exact E|]. split.
      * intros j [->|Hj]%elem_of_cons Hkj; [|by apply P1].
        exists (length h). split; [|split].
        -- rewrite P2; [apply dict_get_set_eq|].
           intros j' Hj' Heq. apply offset_inj in Heq. by subst.
        -- rewrite !length_app. simpl. lia.
        -- rewrite harr_app by (rewrite length_app; simpl; lia).
           apply harr_new.
      * intros k Hk. rewrite P2.
        -- apply dict_get_set_ne. intros ->.
           rewrite (Hk i) in Ek; [done | by left | done].
        -- intros j Hj. apply Hk. by right.
    + destruct (IH d h Hnd' Hne') as (d' & t & E & P1 & P2).
      exists d', t. split; [exact E|]. split.
      * intros j [->|Hj]%elem_of_cons Hkj; [congruence | by apply P1].
      * intros k Hk. apply P2. intros j Hj. apply Hk. by right.
Qed.
End ExtractLoop.

Lemma dget_Some D r c :
  dense_wf D -> (r < fst (dshape D))%nat -> (c < snd (dshape D))%nat ->
  is_Some (dget D r c).
Proof.
  intros [Hr Hc] Hlr Hlc. unfold dget.
  destruct (drows D !! r) as [row|] eqn:E.
  - apply lookup_lt_is_Some.
    by rewrite (Forall_lookup_1 _ _ _ _ Hc E).
  - apply lookup_ge_None in E. lia.
Qed.

Lemma dget_None D r c :
  dense_wf D -> (fst (dshape D) <= r)%nat \/ (snd (dshape D) <= c)%nat ->
  dget D r c = None.
Proof.
  intros [Hr Hc] Hor. unfold dget.
  destruct (drows D !! r) as [row|] eqn:E; [|done].
  destruct Hor as [H|H].
  - apply lookup_lt_Some in E. lia.
  - apply lookup_ge_None.
    by rewrite (Forall_lookup_1 _ _ _ _ Hc E).
Qed.

Lemma diagonal_in_range D k :
  dense_wf D -> (0 < fst (dshape D))%nat -> (0 < snd (dshape D))%nat ->
  - Z.of_nat (fst (dshape D)) < k < Z.of_nat (snd (dshape D)) ->
  diagonal D k <> [].
Proof.
  intros Hwf Hr Hc Hk. unfold diagonal.
  destruct (Nat.min (fst (dshape D)) (snd (dshape D))) as [|n] eqn:En; [lia|].
  simpl.
  destruct (dget_Some D (Z.to_nat (- k)) (Z.to_nat k) Hwf) as [x Hx]; [lia|lia|].
  by rewrite Hx.
Qed.

Lemma diagonal_out_of_range D k :
  dense_wf D -> k <= - Z.of_nat (fst (dshape D)) \/ Z.of_nat (snd (dshape D)) <= k ->
  diagonal D k = [].
Proof.
  intros Hwf Hk. unfold diagonal.
  induction (seq 0 _) as [|t l IH]; [done|]. simpl.
  rewrite dget_None; [exact IH | done | lia].
Qed.

(** C3: for a non-empty dense matrix [D], [extract_diagonal_matrix]
    returns a matrix of the shape of [D] with scale one that stores offset
    [k], for every integer [k], exactly when the largest absolute value of
    the [k]-th diagonal of [D] exceeds [abstol] and, divided by the largest
    absolute entry of [D], exceeds [reltol]; a stored diagonal holds the
    entries of the [k]-th diagonal of [D]. *)
Theorem extract_diagonal_matrix_spec D abstol reltol h :
  dense_wf D -> (0 < fst (dshape D))%nat -> (0 < snd (dshape D))%nat ->
  exists S t,
    extract_diagonal_matrix D abstol reltol h = Ok (S, h ++ t) /\
    shape S = dshape D /\ scale S = 1%float /\
    forall k : Z,
      if retained D abstol reltol k
      then exists l, dict_get k (_storage S) = Some (Arr l) /\
                     harr (h ++ t) l = diagonal D k
      else dict_get k (_storage S) = None.
Proof.
  intros Hwf Hr Hc. unfold extract_diagonal_matrix.
  assert (Hg : exists g, abs_max (concat (drows D)) = Ok g).
  { destruct Hwf as [Hl Hf]. destruct (drows D) as [|r0 rs] eqn:E; [simpl in Hl; lia|].
    inversion Hf as [|? ? Hr0 _]; subst. destruct r0 as [|x r0]; [simpl in Hr0; lia|].
    simpl. unfold abs_max. simpl. eauto. }
  destruct Hg as [g Hg]. unfold bind at 1, lift. rewrite Hg.
  destruct (extract_loop_spec D abstol reltol g Z.of_nat Nat2Z.inj
              (seq 0 (snd (dshape D))) [] h) as (d1 & t1 & E1 & P1 & Q1).
  { apply NoDup_seq. }
  { intros i Hi%elem_of_seq. apply diagonal_in_range; [done|done|done|lia]. }
  unfold bind at 1. rewrite E1.
  destruct (extract_loop_spec D abstol reltol g (fun i => - Z.of_nat i)
              ltac:(cbv beta; intros i j; lia)
              (seq 1 (fst (dshape D) - 1)) d1 (h ++ t1)) as (d2 & t2 & E2 & P2 & Q2).
  { apply NoDup_seq. }
  { intros i Hi%elem_of_seq. apply diagonal_in_range; [done|done|done|lia]. }
  unfold bind. rewrite E2. simpl.
  exists (SparseMatrix_new d2 (dshape D) 1%float), (t1 ++ t2).
  rewrite app_assoc. split; [done|]. split; [done|]. split; [done|].
  intros k. simpl. unfold retained. rewrite Hg.
  assert (Hkeep : forall k', keepb abstol reltol g (diagonal D k') =
                 match abs_max (diagonal D k') with
                 | Ok m => (abstol <? m)%float && (reltol <? m / g)%float
                 | Raise _ => false end) by done.
  rewrite <- Hkeep.
  destruct (keepb abstol reltol g (diagonal D k)) eqn:Ek.
  - assert (Hin : - Z.of_nat (fst (dshape D)) < k < Z.of_nat (snd (dshape D))).
    { destruct (decide (- Z.of_nat (fst (dshape D)) < k < Z.of_nat (snd (dshape D)))); [done|].
      rewrite diagonal_out_of_range in Ek by (done || lia). done. }
    destruct (decide (0 <= k)) as [Hk|Hk].
    + destruct (P1 (Z.to_nat k)) as (l & Hl & Hlt & Hh).
      { apply elem_of_seq. lia. } { by rewrite Z2Nat.id. }
      rewrite Z2Nat.id in * by done.
      exists l. split.
      * rewrite Q2; [done|]. intros i Hi%elem_of_seq. lia.
      * by rewrite harr_app.
    + destruct (P2 (Z.to_nat (- k))) as (l & Hl & Hlt & Hh).
      { apply elem_of_seq. lia. }
      { rewrite Z2Nat.id by lia. by rewrite Z.opp_involutive. }
      rewrite Z2Nat.id, Z.opp_involutive in * by lia.
      exists l. done.
  - rewrite Q2, Q1; [done| |]; intros i _ <-; done.
Qed.

(** ** Simplification of a TPMatrix *)

Lemma get_simplified_idem h T T' :
  get_simplified h T = Ok T' -> get_simplified h T' = Ok T'.
Proof.
  unfold get_simplified at 1.
  destruct (Nat.eqb (length (diagonal_axes_of T)) 0 || _issimplified T) eqn:E.
  - intros [= <-]. unfold get_simplified. by rewrite E.
  - destruct (simplify_loop _ _ _ _ _ _) as [p|e]; [simpl|done].
    destruct (TPMatrix_new _ _ _ _ _) as [tp|e]; [simpl|done].
    destruct (if (1 <? _)%nat then _ else _) as [sc|e]; [simpl|done].
    destruct (link_pmat _) as [pm|e]; [simpl|done].
    intros [= <-]. unfold get_simplified. simpl.
    by rewrite orb_true_r.
Qed.

Lemma simplify_axis_spec h T dax axis mat sc m1 sc1 :
  simplify_axis h T dax axis mat sc = Ok (m1, sc1) ->
  m1 = simplified_mat dax axis mat /\
  if bool_decide (axis ∈ dax)
  then exists f, diagonal_factor h T axis mat = Ok f /\ nd_mul sc f = Ok sc1
  else sc1 = sc.
Proof.
  unfold simplify_axis, simplified_mat, diagonal_factor.
  destruct (bool_decide (axis ∈ dax)); [|by intros [= <- <-]].
  destruct (__getitem__ mat 0) as [[x|l]|e]; simpl; [| |done].
  - destruct (nd_mul sc (Leaf x)) as [s1|e] eqn:Em; [simpl|done].
    intros [= <- <-]. eauto.
  - destruct (broadcast_to_ndims _ _ _) as [dn|e]; [simpl|done].
    destruct (nd_mul sc dn) as [s1|e] eqn:Em; [simpl|done].
    intros [= <- <-]. eauto.
Qed.

Lemma simplify_loop_spec h T dax ms : forall axis sc ms' sc',
  simplify_loop h T dax axis ms sc = Ok (ms', sc') ->
  ms' = imap (fun i => simplified_mat dax (axis + i)) ms /\
  exists fs, diagonal_factors h T dax axis ms = Ok fs /\ multiply_all sc fs = Ok sc'.
Proof.
  induction ms as [|mat ms IH]; intros axis sc ms' sc'; simpl.
  - intros [= <- <-]. split; [done|]. by exists [].
  - destruct (simplify_axis h T dax axis mat sc) as [[m1 sc1]|e] eqn:E1; [simpl|done].
    destruct (simplify_loop h T dax (S axis) ms sc1) as [[ms2 sc2]|e] eqn:E2; [simpl|done].
    intros [= <- <-].
    destruct (IH _ _ _ _ E2) as (-> & fs & Hfs & Hmul).
    apply simplify_axis_spec in E1 as [-> Hsc]. split.
    + rewrite Nat.add_0_r. f_equal. apply imap_ext. intros i x0 _. simpl.
      f_equal. lia.
    + rewrite Hfs. destruct (bool_decide (axis ∈ dax)).
      * destruct Hsc as (f & -> & Hm). simpl. exists (f :: fs). split; [done|].
        simpl. by rewrite Hm.
      * subst sc1. by exists fs.
Qed.

(** C4: [matvec] of [T] is [matvec] of the simplified form of [T] (the
    method simplifies first, and simplification is idempotent), so the two
    results are the same array.  The simplified form of a term [T] with a
    diagonal axis has an [Identity] at every diagonal axis and the matrix of
    [T] itself at every other axis, and its scale array is the scale array
    of [T] multiplied by the diagonal of each replaced matrix, restricted to
    the local slice; [T] is an argument and is not changed. *)
Theorem get_simplified_matvec K h T :
  (forall rank v c,
     TPMatrix_matvec K h T rank v c =
     let+ T' := get_simplified h T in TPMatrix_matvec K h T' rank v c) /\
  (forall T',
     get_simplified h T = Ok T' ->
     diagonal_axes_of T <> [] -> _issimplified T = false ->
     _issimplified T' = true /\
     length (mats T') = length (mats T) /\
     (forall axis mat, mats T !! axis = Some mat ->
        mats T' !! axis =
        Some (if bool_decide (axis ∈ diagonal_axes_of T)
              then Identity (shape mat) 1%float else mat)) /\
     (exists fs sc,
        diagonal_factors h T (diagonal_axes_of T) 0 (mats T) = Ok fs /\
        multiply_all (tscale T) fs = Ok sc /\
        local_part (space T) sc = Ok (tscale T'))).
Proof.
  split.
  - intros rank v c. unfold TPMatrix_matvec.
    destruct (get_simplified h T) as [T'|e] eqn:E; [simpl|done].
    by rewrite (get_simplified_idem h T T' E).
  - intros T' E Hd Hs. unfold get_simplified in E.
    rewrite Hs, orb_false_r in E.
    destruct (diagonal_axes_of T) as [|a0 dax] eqn:Ed; [done|]. simpl in E.
    destruct (simplify_loop _ _ _ _ _ _) as [[ms sc]|e] eqn:E1; [simpl in E|done].
    apply simplify_loop_spec in E1 as (-> & fs & Hfs & Hmul).
    unfold TPMatrix_new in E.
    destruct (negb _); [done|]. simpl in E.
    fold (local_part (space T) sc) in E.
    destruct (local_part (space T) sc) as [sc'|e] eqn:E2; [simpl in E|done].
    destruct (link_pmat _) as [pm|e]; [simpl in E|done].
    injection E as <-. simpl. split; [done|]. split; [by rewrite length_imap|].
    split.
    + intros axis mat Hm. rewrite list_lookup_imap, Hm. done.
    + by exists fs, sc.
Qed.

(** ** Division by the scale in the solves *)

Lemma nd_map_map f g a : nd_map g (nd_map f a) = nd_map (fun x => g (f x)) a.
Proof.
  induction a as [x|l IH] using ndarray_ind; simpl; [done|].
  f_equal. rewrite map_map. induction IH as [|a l Ha _ IHl]; simpl; [done|].
  by rewrite Ha, IHl.
Qed.

Lemma nd_flat_map f a : nd_flat (nd_map f a) = map f (nd_flat a).
Proof.
  induction a as [x|l IH] using ndarray_ind; simpl; [done|].
  rewrite map_map. induction IH as [|a l Ha _ IHl]; simpl; [done|].
  by rewrite map_app, Ha, IHl.
Qed.

Lemma float_of_spec (s : float) :
  match Prim2SF s with
  | S754_zero b => s = (if b then neg_zero else zero)
  | S754_infinity b => s = (if b then neg_infinity else infinity)
  | S754_nan => s = nan
  | S754_finite _ _ _ => True
  end.
Proof.
  pose proof (SF2Prim_Prim2SF s) as H.
  destruct (Prim2SF s) as [[]|[]| |]; try done; rewrite <- H; reflexivity.
Qed.

Lemma is_zero_cases (s : float) :
  (s =? 0)%float = true -> s = zero \/ s = neg_zero.
Proof.
  rewrite FloatAxioms.eqb_spec. pose proof (float_of_spec s) as H.
  destruct (Prim2SF s) as [[]|[]| |[] m e]; try done; auto.
Qed.

Lemma not_finite_cases (s : float) :
  is_finite s = false -> s = infinity \/ s = neg_infinity \/ s = nan.
Proof.
  unfold is_finite, is_nan, is_infinity.
  rewrite !FloatAxioms.eqb_spec, abs_spec. pose proof (float_of_spec s) as H.
  destruct (Prim2SF s) as [[]|[]| |[] m e] eqn:E; simpl; try done; auto.
  - unfold SFeqb. simpl. rewrite Z.compare_refl, Pos.compare_cont_refl. done.
  - unfold SFeqb. simpl. rewrite Z.compare_refl, Pos.compare_cont_refl. done.
Qed.

Lemma guarded_inverse_spec (s : float) :
  is_finite (guarded_inverse s) = true /\
  ((s =? 0)%float = true \/ is_finite s = false ->
   (guarded_inverse s =? 0)%float = true) /\
  (is_finite (1 / s)%float = true -> guarded_inverse s = (1 / s)%float).
Proof.
  unfold guarded_inverse. split; [|split].
  - destruct (is_finite (1 / s)%float) eqn:E; done.
  - intros [[-> | ->]%is_zero_cases | [-> | [-> | ->]]%not_finite_cases]; reflexivity.
  - by intros ->.
Qed.

(** C6: when the simplified form has no non-diagonal axis, [solve]
    multiplies the right-hand side by the guarded inverse of the scale
    array, every entry of which is finite: the inverse [1 / s] where that is
    finite, and zero where [s] is zero or not finite.  [Identity.solve] has
    no such guard: with a zero scale it raises [ZeroDivisionError], and
    otherwise it multiplies by [1 / scale]. *)
Theorem solve_division_policy :
  (forall K h T T' b u constraints,
     get_simplified h T = Ok T' -> naxes T' = [] ->
     TPMatrix_solve K h T b u constraints = solve_zero_axes T' b u constraints /\
     Forall (fun x => is_finite x = true) (nd_flat (nd_map guarded_inverse (tscale T'))) /\
     nd_flat (nd_map guarded_inverse (tscale T')) = map guarded_inverse (nd_flat (tscale T'))) /\
  (forall s,
     ((s =? 0)%float = true \/ is_finite s = false ->
      (guarded_inverse s =? 0)%float = true) /\
     (is_finite (1 / s)%float = true -> guarded_inverse s = (1 / s)%float)) /\
  (forall A b,
     ((scale A =? 0)%float = true -> Identity_solve A b None = Raise ZeroDivisionError) /\
     ((scale A =? 0)%float = false ->
      Identity_solve A b None = Ok (nd_map (fun x => x * (1 / scale A))%float b))).
Proof.
  split; [|split].
  - intros K h T T' b u cs E Hn. split; [|split].
    + unfold TPMatrix_solve, solve_zero_axes. rewrite E. simpl. rewrite Hn.
      rewrite nd_map_map. done.
    + rewrite nd_flat_map. apply Forall_map, Forall_forall. intros s _.
      apply guarded_inverse_spec.
    + apply nd_flat_map.
  - intros s. apply guarded_inverse_spec.
  - intros A b. unfold Identity_solve, py_div. simpl. split; intros ->; done.
Qed.

(** ** The test of [BlockMatrix.diags] *)

Lemma rbind_not_runtime {A B} (r : result A) (k : A -> result B) :
  not_runtime r -> (forall a, not_runtime (k a)) -> not_runtime (rbind r k).
Proof. destruct r as [a|e]; simpl; [auto|]. unfold not_runtime. congruence. Qed.

Lemma mapM_not_runtime {A B} (f : A -> result B) (l : list A) :
  (forall x, not_runtime (f x)) -> not_runtime (mapM f l).
Proof.
  intros Hf. induction l as [|x l IH]; simpl; [done|].
  apply rbind_not_runtime; [apply Hf|]. intros y.
  apply rbind_not_runtime; [apply IH|]. done.
Qed.

Ltac not_rt :=
  repeat first
    [ progress intros
    | done
    | apply rbind_not_runtime
    | apply mapM_not_runtime
    | match goal with
      | |- not_runtime (if ?b then _ else _) => destruct b
      | |- not_runtime (match ?x with _ => _ end) => destruct x
      | |- not_runtime (Ok _) => discriminate
      | |- not_runtime (Raise _) => discriminate
      end ].

Lemma sp_diags_not_runtime h sh d : not_runtime (sp_diags h sh d).
Proof.
  assert (H : forall d, not_runtime (sp_diags_rows h sh d)).
  { clear d. induction d as [|[k v] d IH]; simpl; [done|].
    apply rbind_not_runtime; [|intros a; apply rbind_not_runtime; [apply IH|done]].
    unfold sp_diag. not_rt. }
  unfold sp_diags. destruct d; [done|apply H].
Qed.

Lemma SparseMatrix_diags_not_runtime h A : not_runtime (SparseMatrix_diags h A).
Proof.
  unfold SparseMatrix_diags. apply rbind_not_runtime; [apply sp_diags_not_runtime|done].
Qed.

Lemma nd_index_not_runtime idx : forall a, not_runtime (nd_index idx a).
Proof.
  induction idx as [|i idx IH]; intros a; simpl; [done|].
  destruct a as [x|l]; [done|]. destruct (l !! i); [apply IH|done].
Qed.

Lemma scale_at_not_runtime m it : not_runtime (scale_at m it).
Proof.
  unfold scale_at. apply rbind_not_runtime.
  - not_rt.
  - intros iit. apply rbind_not_runtime; [apply nd_index_not_runtime|]. not_rt.
Qed.

Lemma mat_diags_at_not_runtime h m i : not_runtime (mat_diags_at h m i).
Proof.
  unfold mat_diags_at. destruct (mats m !! i); [apply SparseMatrix_diags_not_runtime|done].
Qed.

Lemma nd_item_not_runtime a : not_runtime (nd_item a).
Proof. unfold nd_item. not_rt. Qed.

Lemma naxes_at_not_runtime m i : not_runtime (naxes_at m i).
Proof. unfold naxes_at. not_rt. Qed.

Lemma TPMatrix_diags_not_runtime h m : not_runtime (TPMatrix_diags h m).
Proof.
  unfold TPMatrix_diags. destruct (_issimplified m); [done|].
  apply rbind_not_runtime.
  - pose proof (SparseMatrix_diags_not_runtime h) as Hd.
    destruct (mats m) as [|m0 [|m1 [|m2 [|m3 [|m4 [|m5 r]]]]]]; try done;
      repeat (apply rbind_not_runtime; [apply Hd|intros]); done.
  - intros mat. apply rbind_not_runtime; [apply nd_item_not_runtime|done].
Qed.

Lemma term_diags_not_runtime h mixed first it m :
  not_runtime (term_diags h mixed first it m).
Proof.
  unfold term_diags.
  pose proof (TPMatrix_diags_not_runtime h m).
  pose proof (scale_at_not_runtime m it).
  pose proof (nd_item_not_runtime (tscale m)).
  pose proof (mat_diags_at_not_runtime h m).
  pose proof (naxes_at_not_runtime m).
  destruct mixed; [done|].
  destruct (Nat.eqb (length (naxes first)) 2); [destruct (Nat.eqb (length (mats first)) 2)|];
    repeat (apply rbind_not_runtime; [done|intros]); done.
Qed.

Lemma add_terms_not_runtime h mixed first it rest : forall d,
  not_runtime (add_terms h mixed first it d rest).
Proof.
  induction rest as [|mj rest IH]; intros d; simpl; [done|].
  apply rbind_not_runtime; [apply term_diags_not_runtime|]. intros dj. apply IH.
Qed.

Lemma cell_diags_not_runtime h mixed it c : not_runtime (cell_diags h mixed it c).
Proof.
  destruct c as [n|[|m rest]]; simpl; try done.
  apply rbind_not_runtime; [apply term_diags_not_runtime|]. intros d.
  apply rbind_not_runtime; [apply add_terms_not_runtime|done].
Qed.

Lemma assemble_blocks_not_runtime h B it : not_runtime (assemble_blocks h B it).
Proof.
  unfold assemble_blocks. apply rbind_not_runtime; [|done].
  apply mapM_not_runtime. intros row. apply mapM_not_runtime. intros c.
  apply cell_diags_not_runtime.
Qed.

(** A row of cells whose matrices have no non-diagonal axis: the first
    cell that holds a list raises [IndexError]. *)
Lemma row_without_axes h it (row : list cell) :
  Forall (fun m => naxes m = [] /\ exists s, scale_at m it = Ok s)
         (flat_map cell_mats row) ->
  mapM (cell_diags h false it) row = Raise IndexError \/
  (flat_map cell_mats row = [] /\ exists r, mapM (cell_diags h false it) row = Ok r).
Proof.
  induction row as [|c row IH]; simpl; intros HF.
  - right. split; [done|]. by eexists.
  - apply Forall_app in HF as [Hc Hrow].
    destruct c as [n|[|m rest]]; simpl.
    + destruct (IH Hrow) as [->|[Hnil [r ->]]]; simpl; [by left|].
      right. split; [done|]. by eexists.
    + by left.
    + left. simpl in Hc. apply Forall_cons in Hc as [[Hn [s Hs]] _].
      unfold term_diags. rewrite Hn. simpl. rewrite Hs. simpl.
      unfold naxes_at. rewrite Hn. done.
Qed.

Lemma rows_without_axes h it (rows : list (list cell)) :
  Forall (fun m => naxes m = [] /\ exists s, scale_at m it = Ok s)
         (flat_map (flat_map cell_mats) rows) ->
  mapM (mapM (cell_diags h false it)) rows = Raise IndexError \/
  flat_map (flat_map cell_mats) rows = [].
Proof.
  induction rows as [|row rows IH]; simpl; intros HF; [by right|].
  apply Forall_app in HF as [Hrow Hrows].
  destruct (row_without_axes h it row Hrow) as [->|[Hnil [r ->]]]; simpl; [by left|].
  rewrite Hnil. simpl.
  destruct (IH Hrows) as [->|Hn]; simpl; [by left | by right].
Qed.



(** ** Sums of scale arrays of one shape *)

Lemma same_shape_Node la lb :
  same_shape (Node la) (Node lb) <-> Forall2 same_shape la lb.
Proof.
  simpl. revert lb. induction la as [|x la IH]; intros [|y lb].
  - split; [constructor | done].
  - split; [done | intros H; inversion H].
  - split; [done | intros H; inversion H].
  - split.
    + intros [Hxy H]. constructor; [done | by apply IH].
    + intros H. inversion H; subst. split; [done | by apply IH].
Qed.

Lemma same_shape_sym a : forall b, same_shape a b -> same_shape b a.
Proof.
  induction a as [x|la IH] using ndarray_ind; intros [y|lb]; try done.
  rewrite !same_shape_Node. intros F. revert IH.
  induction F as [|a b la lb Hab _ IHF]; intros IH; [constructor|].
  inversion IH; subst. constructor; auto.
Qed.

Lemma same_shape_trans a : forall b c,
  same_shape a b -> same_shape b c -> same_shape a c.
Proof.
  induction a as [x|la IH] using ndarray_ind; intros [y|lb] [z|lc]; try done.
  rewrite !same_shape_Node. intros F. revert lc IH.
  induction F as [|a b la lb Hab _ IHF]; intros lc IH G.
  - inversion G. constructor.
  - inversion G; subst. inversion IH; subst. constructor; eauto.
Qed.

Lemma same_shape_ndim a b : same_shape a b -> nd_ndim a = nd_ndim b.
Proof.
  revert b. induction a as [x|la IH] using ndarray_ind; intros [y|lb]; try done.
  rewrite same_shape_Node. intros F. simpl. f_equal.
  destruct F as [|a b la lb Hab _]; [done|].
  inversion IH; subst. auto.
Qed.

Lemma same_shape_map f a : same_shape (nd_map f a) a.
Proof.
  induction a as [x|la IH] using ndarray_ind; [done|].
  simpl nd_map. apply same_shape_Node.
  induction IH as [|a la Ha _ IHl]; simpl; constructor; auto.
Qed.

Lemma nd_zip_same_shape op a : forall b,
  same_shape a b -> exists c, nd_zip op a b = Ok c /\ same_shape c a.
Proof.
  induction a as [x|la IH] using ndarray_ind; intros [y|lb]; try done.
  - intros _. by exists (Leaf (op x y)).
  - rewrite same_shape_Node. intros F. simpl.
    rewrite decide_True by (by apply Forall2_length in F).
    assert (H : exists lc,
              (fix go (la lb : list ndarray) : result (list ndarray) :=
                 match la, lb with
                 | x :: la', y :: lb' =>
                     let+ z := nd_zip op x y in
                     let+ r := go la' lb' in Ok (z :: r)
                 | _, _ => Ok []
                 end) la lb = Ok lc /\ Forall2 same_shape lc la).
    { revert IH. induction F as [|a b la lb Hab _ IHF]; intros IH.
      - exists []. split; [done | constructor].
      - inversion IH as [|? ? Ha IH']; subst.
        destruct (Ha b Hab) as (c & Ec & Hc).
        destruct (IHF IH') as (lc & Elc & Hlc).
        exists (c :: lc). split; [|by constructor].
        rewrite Ec. simpl. rewrite Elc. done. }
    destruct H as (lc & -> & Hlc). simpl.
    exists (Node lc). split; [done|]. by apply same_shape_Node.
Qed.

Lemma nd_add_same_shape a b :
  same_shape a b -> exists c, nd_add a b = Ok c /\ same_shape c a.
Proof.
  intros H. unfold nd_add, nd_broadcast.
  rewrite (same_shape_ndim a b H), Nat.sub_diag. simpl.
  by apply nd_zip_same_shape.
Qed.

Lemma add_all_snoc acc l s :
  add_all acc (l ++ [s]) = let+ x := add_all acc l in nd_add x s.
Proof.
  revert acc. induction l as [|s0 l IH]; intros acc; simpl.
  - by destruct (nd_add acc s).
  - destruct (nd_add acc s0) as [acc'|e]; simpl; [apply IH|done].
Qed.

(** ** Merging structurally equal terms *)

Section Merge.
Variable h : list (list float).
Variable A : list TPMatrix.

Local Abbreviation teqb := (teqb h).
Local Abbreviation variant := (variant A).
Local Abbreviation absorbed := (absorbed h).
Local Abbreviation shape_ok := (shape_ok h A).
Local Abbreviation class_ok := (class_ok h).
Local Abbreviation pairwise_distinct := (pairwise_distinct h).
Local Abbreviation merged := (merged h A).
Local Abbreviation m_variant := (m_variant h A).
Local Abbreviation m_shape := (m_shape h A).
Local Abbreviation m_class := (m_class h A).
Local Abbreviation m_distinct := (m_distinct h A).
Local Abbreviation m_cover := (m_cover h A).


(** On the terms of [A] the comparison never fails and is an equivalence,
    and equal terms have scale arrays of one shape. *)
Hypothesis Htot : forall x y, x ∈ A -> y ∈ A -> exists r, TPMatrix___eq__ h x y = Ok r.
Hypothesis Hrefl : forall x, x ∈ A -> teqb x x = true.
Hypothesis Hsym : forall x y, x ∈ A -> y ∈ A -> teqb x y = true -> teqb y x = true.
Hypothesis Htrans : forall x y z, x ∈ A -> y ∈ A -> z ∈ A ->
  teqb x y = true -> teqb y z = true -> teqb x z = true.
Hypothesis Hshape : forall x y, x ∈ A -> y ∈ A -> teqb x y = true ->
  same_shape (tscale x) (tscale y).



Lemma same_core_refl a : same_core a a.
Proof. by destruct a. Qed.

Lemma same_core_set b a s : same_core b a -> same_core (set_tscale b s) a.
Proof. unfold same_core. by destruct b. Qed.

Lemma variant_in a : a ∈ A -> variant a.
Proof. intros Ha. exists a. split; [done | apply same_core_refl]. Qed.

Lemma teq_core_l b a y : same_core b a -> TPMatrix___eq__ h b y = TPMatrix___eq__ h a y.
Proof. by intros <-. Qed.

Lemma teq_core_r b a x : same_core b a -> TPMatrix___eq__ h x b = TPMatrix___eq__ h x a.
Proof. by intros <-. Qed.

Lemma teqb_core b a b' a' :
  same_core b a -> same_core b' a' -> teqb b b' = teqb a a'.
Proof.
  intros H H'. unfold teqb. by rewrite (teq_core_l _ _ _ H), (teq_core_r _ _ _ H').
Qed.

Lemma teq_total x y : variant x -> variant y -> TPMatrix___eq__ h x y = Ok (teqb x y).
Proof.
  intros (a & Ha & Ca) (c & Hc & Cc). unfold teqb.
  rewrite (teq_core_l _ _ _ Ca), (teq_core_r _ _ _ Cc).
  destruct (Htot a c Ha Hc) as [[] ->]; done.
Qed.

Lemma v_refl x : variant x -> teqb x x = true.
Proof. intros (a & Ha & Ca). rewrite (teqb_core _ _ _ _ Ca Ca). auto. Qed.

Lemma v_sym x y : variant x -> variant y -> teqb x y = teqb y x.
Proof.
  intros (a & Ha & Ca) (c & Hc & Cc).
  rewrite (teqb_core _ _ _ _ Ca Cc), (teqb_core _ _ _ _ Cc Ca).
  destruct (teqb a c) eqn:E1, (teqb c a) eqn:E2; try done.
  - by rewrite (Hsym a c) in E2.
  - by rewrite (Hsym c a) in E1.
Qed.

Lemma v_trans x y z :
  variant x -> variant y -> variant z ->
  teqb x y = true -> teqb y z = true -> teqb x z = true.
Proof.
  intros (a & Ha & Ca) (c & Hc & Cc) (d & Hd & Cd).
  rewrite (teqb_core _ _ _ _ Ca Cc), (teqb_core _ _ _ _ Cc Cd),
          (teqb_core _ _ _ _ Ca Cd). eauto.
Qed.

Lemma shape_ok_in a : a ∈ A -> shape_ok a.
Proof. intros Ha x Hx E. by apply Hshape. Qed.


Lemma merge_equal_spec a B :
  a ∈ A ->
  Forall variant B -> Forall shape_ok B ->
  exists B', merge_equal h a B = Ok (B', existsb (teqb a) B) /\
             Forall2 (absorbed a) B B'.
Proof.
  intros Ha. pose proof (variant_in a Ha) as Va.
  induction B as [|b B IH]; intros VB SB; simpl.
  - exists []. split; [done | constructor].
  - inversion VB as [|? ? Vb VB']; inversion SB as [|? ? Sb SB']; subst.
    destruct (IH VB' SB') as (B' & E & F).
    rewrite (teq_total a b Va Vb). simpl.
    destruct (teqb a b) eqn:Eab; simpl.
    + unfold TPMatrix___iadd__. rewrite (teq_total b a Vb Va), <- (v_sym a b Va Vb), Eab.
      simpl.
      destruct (nd_add_same_shape (tscale b) (tscale a)) as (s & Es & Hs).
      { apply Sb; [done|]. by rewrite <- (v_sym a b Va Vb). }
      rewrite Es. simpl. rewrite E. simpl.
      exists (set_tscale b s :: B'). split; [done|]. constructor; [|done].
      unfold absorbed. rewrite Eab. eauto.
    + rewrite E. simpl. exists (b :: B'). split; [done|]. constructor; [|done].
      unfold absorbed. by rewrite Eab.
Qed.




Lemma absorbed_core a b b' : absorbed a b b' -> same_core b' b.
Proof.
  unfold absorbed. destruct (teqb a b).
  - intros (s & _ & -> & _). unfold same_core. by destruct b.
  - intros ->. apply same_core_refl.
Qed.

Lemma variant_core b' b : same_core b' b -> variant b -> variant b'.
Proof.
  intros Hc (a & Ha & Ca). exists a. split; [done|].
  unfold same_core in *. rewrite <- Ca at 2. rewrite <- Hc. by destruct b'.
Qed.

Lemma teqb_core_l b' b x : same_core b' b -> teqb b' x = teqb b x.
Proof. intros H. unfold teqb. by rewrite (teq_core_l _ _ _ H). Qed.

Lemma teqb_core_r b' b x : same_core b' b -> teqb x b' = teqb x b.
Proof. intros H. unfold teqb. by rewrite (teq_core_r _ _ _ H). Qed.

Lemma filter_snoc b P a :
  filter (fun x => teqb b x = true) (P ++ [a]) =
  filter (fun x => teqb b x = true) P ++ (if teqb b a then [a] else []).
Proof.
  rewrite filter_app. f_equal. rewrite filter_cons, filter_nil.
  destruct (decide (teqb b a = true)) as [->|Hn]; [done|].
  by destruct (teqb b a).
Qed.

Lemma filter_teqb_core b' b (P : list TPMatrix) :
  same_core b' b ->
  filter (fun x => teqb b' x = true) P = filter (fun x => teqb b x = true) P.
Proof.
  intros Hc. induction P as [|x P IH]; [done|].
  rewrite !filter_cons, IH, (teqb_core_l _ _ x Hc). done.
Qed.

Lemma class_ok_absorb P a b b' :
  variant a -> variant b -> class_ok P b -> absorbed a b b' ->
  class_ok (P ++ [a]) b'.
Proof.
  intros Va Vb (a0 & rest & Hf & Hc & Hadd). unfold absorbed.
  destruct (teqb a b) eqn:Eab.
  - intros (s & Es & -> & Hs).
    exists a0, (rest ++ [a]). split; [|split].
    + rewrite (filter_teqb_core (set_tscale b s) b) by (unfold same_core; by destruct b).
      rewrite filter_snoc, Hf, <- (v_sym a b Va Vb), Eab. done.
    + by apply same_core_set.
    + rewrite map_app. simpl. rewrite add_all_snoc, Hadd. simpl. done.
  - intros ->. exists a0, rest. split; [|done].
    rewrite filter_snoc, Hf, <- (v_sym a b Va Vb), Eab. by rewrite app_nil_r.
Qed.

Lemma absorbed_shape a b b' :
  shape_ok b -> absorbed a b b' -> shape_ok b'.
Proof.
  intros Sb. unfold absorbed. destruct (teqb a b).
  - intros (s & _ & -> & Hs) x Hx E. simpl.
    apply same_shape_trans with (tscale b); [done|]. by apply Sb.
  - by intros ->.
Qed.

Lemma absorbed_none a B B1 :
  existsb (teqb a) B = false -> Forall2 (absorbed a) B B1 -> B1 = B.
Proof.
  intros He F. induction F as [|b b' B B1 Hb _ IH]; [done|].
  simpl in He. apply orb_false_elim in He as [Eb He].
  unfold absorbed in Hb. rewrite Eb in Hb. subst b'. by rewrite IH.
Qed.

Lemma merged_found P B a B1 :
  merged P B -> variant a ->
  existsb (teqb a) B = true -> Forall2 (absorbed a) B B1 ->
  merged (P ++ [a]) B1.
Proof.
  intros [MV MS MC MD MCov] Va He F.
  assert (Hcore : forall i b b', B !! i = Some b -> B1 !! i = Some b' ->
                    variant b /\ absorbed a b b').
  { intros i b b' Hb Hb'. split.
    - by apply (Forall_lookup_1 _ _ _ _ MV Hb).
    - by apply (Forall2_lookup_lr _ _ _ _ _ _ F Hb Hb'). }
  assert (Hback : forall i b', B1 !! i = Some b' -> exists b, B !! i = Some b).
  { intros i b' Hb'. destruct (Forall2_lookup_r _ _ _ _ _ F Hb') as (b & Hb & _). eauto. }
  constructor.
  - apply Forall_lookup. intros i b' Hb'. destruct (Hback i b' Hb') as [b Hb].
    destruct (Hcore i b b' Hb Hb') as [Vb Hab].
    apply variant_core with b; [by apply absorbed_core with a | done].
  - apply Forall_lookup. intros i b' Hb'. destruct (Hback i b' Hb') as [b Hb].
    destruct (Hcore i b b' Hb Hb') as [Vb Hab].
    apply absorbed_shape with a b; [|done]. by apply (Forall_lookup_1 _ _ _ _ MS Hb).
  - apply Forall_lookup. intros i b' Hb'. destruct (Hback i b' Hb') as [b Hb].
    destruct (Hcore i b b' Hb Hb') as [Vb Hab].
    apply class_ok_absorb with b; try done. by apply (Forall_lookup_1 _ _ _ _ MC Hb).
  - intros i j b1 b2 Hij H1 H2.
    destruct (Hback i b1 H1) as [c1 Hc1]. destruct (Hback j b2 H2) as [c2 Hc2].
    destruct (Hcore i c1 b1 Hc1 H1) as [_ Ha1%absorbed_core].
    destruct (Hcore j c2 b2 Hc2 H2) as [_ Ha2%absorbed_core].
    rewrite (teqb_core_l _ _ _ Ha1), (teqb_core_r _ _ _ Ha2). by apply (MD i j).
  - assert (Hfwd : forall b, b ∈ B -> exists b', b' ∈ B1 /\ same_core b' b).
    { intros b [i Hb]%list_elem_of_lookup_1.
      destruct (Forall2_lookup_l _ _ _ _ _ F Hb) as (b' & Hb' & Hab).
      exists b'. split; [by eapply list_elem_of_lookup_2 | by apply absorbed_core with a]. }
    intros x [Hx | ->%list_elem_of_singleton]%elem_of_app.
    + destruct (MCov x Hx) as (b & Hb & Exb). destruct (Hfwd b Hb) as (b' & Hb' & Hc).
      exists b'. split; [done|]. by rewrite (teqb_core_r _ _ _ Hc).
    + apply existsb_exists in He as (b & Hb%list_elem_of_In & Eab).
      destruct (Hfwd b Hb) as (b' & Hb' & Hc).
      exists b'. split; [done|]. by rewrite (teqb_core_r _ _ _ Hc).
Qed.

Lemma merged_new P B a :
  merged P B -> Forall variant P -> a ∈ A ->
  existsb (teqb a) B = false ->
  merged (P ++ [a]) (B ++ [a]).
Proof.
  intros [MV MS MC MD MCov] VP Ha He. pose proof (variant_in a Ha) as Va.
  assert (Hno : forall b, b ∈ B -> teqb a b = false).
  { intros b Hb%list_elem_of_In. destruct (teqb a b) eqn:E; [|done].
    assert (existsb (teqb a) B = true); [|congruence].
    apply existsb_exists. eauto. }
  assert (HnoP : forall x, x ∈ P -> teqb a x = false).
  { intros x Hx. destruct (teqb a x) eqn:E; [|done].
    destruct (MCov x Hx) as (b & Hb & Exb).
    rewrite <- (Hno b Hb). symmetry. apply v_trans with x; try done.
    - by apply (proj1 (Forall_forall _ _) VP).
    - by apply (proj1 (Forall_forall _ _) MV). }
  constructor.
  - apply Forall_app. split; [done | by constructor].
  - apply Forall_app. split; [done|]. constructor; [by apply shape_ok_in | constructor].
  - apply Forall_app. split.
    + apply Forall_forall. intros b Hb.
      pose proof (proj1 (Forall_forall _ _) MC b Hb) as (a0 & rest & Hf & Hc & Hadd).
      pose proof (proj1 (Forall_forall _ _) MV b Hb) as Vb.
      exists a0, rest. split; [|done].
      rewrite filter_snoc, Hf, <- (v_sym a b Va Vb), (Hno b Hb). by rewrite app_nil_r.
    + constructor; [|constructor]. exists a, []. split; [|split].
      * rewrite filter_snoc, (v_refl a Va).
        assert (Hnil : filter (fun x => teqb a x = true) P = []).
        { clear -HnoP. induction P as [|x P' IH]; [done|].
          rewrite filter_cons. destruct (decide (teqb a x = true)) as [E|_].
          - rewrite HnoP in E; [done | by left].
          - apply IH. intros y Hy. apply HnoP. by right. }
        by rewrite Hnil.
      * apply same_core_refl.
      * done.
  - intros i j b1 b2 Hij H1 H2.
    destruct (decide (i < length B)%nat) as [Hi|Hi], (decide (j < length B)%nat) as [Hj|Hj].
    + rewrite lookup_app_l in H1, H2 by done. by apply (MD i j).
    + rewrite lookup_app_l in H1 by done. rewrite lookup_app_r in H2 by lia.
      apply list_lookup_singleton_Some in H2 as [_ <-].
      pose proof (list_elem_of_lookup_2 _ _ _ H1) as Hb.
      rewrite (v_sym b1 a); [by apply Hno | by apply (proj1 (Forall_forall _ _) MV) | done].
    + rewrite lookup_app_l in H2 by done. rewrite lookup_app_r in H1 by lia.
      apply list_lookup_singleton_Some in H1 as [_ <-].
      apply Hno. by eapply list_elem_of_lookup_2.
    + rewrite lookup_app_r in H1, H2 by lia.
      apply list_lookup_singleton_Some in H1 as [H1 _].
      apply list_lookup_singleton_Some in H2 as [H2 _]. lia.
  - intros x [Hx | ->%list_elem_of_singleton]%elem_of_app.
    + destruct (MCov x Hx) as (b & Hb & Exb). exists b. split; [|done].
      apply elem_of_app. by left.
    + exists a. split; [apply elem_of_app; right; by apply list_elem_of_singleton|].
      by apply v_refl.
Qed.

Lemma add_equal_matrices_spec rest : forall P B,
  merged P B -> Forall variant P -> Forall (fun a => a ∈ A) rest ->
  exists B', add_equal_matrices h rest B = Ok B' /\ merged (P ++ rest) B'.
Proof.
  induction rest as [|a rest IH]; intros P B HM VP HA; simpl.
  - exists B. by rewrite app_nil_r.
  - inversion HA as [|? ? Ha HA']; subst.
    pose proof (variant_in a Ha) as Va.
    destruct (merge_equal_spec a B Ha (m_variant _ _ HM) (m_shape _ _ HM))
      as (B1 & E & F).
    rewrite E. simpl.
    assert (HM' : merged (P ++ [a]) (if existsb (teqb a) B then B1 else B1 ++ [a])).
    { destruct (existsb (teqb a) B) eqn:He.
      - by apply merged_found with B.
      - rewrite (absorbed_none a B B1 He F). by apply merged_new. }
    destruct (IH (P ++ [a]) _ HM') as (B' & E' & HM''); [|done|].
    { apply Forall_app. split; [done | by constructor]. }
    exists B'. split; [done|]. by rewrite <- app_assoc in HM''.
Qed.

Lemma merged_first a0 : a0 ∈ A -> merged [a0] [a0].
Proof.
  intros Ha. pose proof (variant_in a0 Ha) as Va. constructor.
  - by constructor.
  - constructor; [by apply shape_ok_in | constructor].
  - constructor; [|constructor]. exists a0, []. split; [|split].
    + rewrite filter_cons, filter_nil. by rewrite decide_True by by apply v_refl.
    + apply same_core_refl.
    + done.
  - intros [|i] [|j] b b' Hij; simpl; try done.
  - intros x ->%list_elem_of_singleton. exists a0. split; [by left | by apply v_refl].
Qed.

Lemma merged_unique P B a i j b b' :
  merged P B -> variant a ->
  B !! i = Some b -> B !! j = Some b' ->
  teqb a b = true -> teqb a b' = true -> i = j.
Proof.
  intros HM Va Hb Hb' E E'. destruct (decide (i = j)) as [|Hne]; [done|].
  pose proof (Forall_lookup_1 _ _ _ _ (m_variant _ _ HM) Hb) as Vb.
  pose proof (Forall_lookup_1 _ _ _ _ (m_variant _ _ HM) Hb') as Vb'.
  pose proof (m_distinct _ _ HM i j b b' Hne Hb Hb') as Hd.
  rewrite (v_trans b a b') in Hd; try done. by rewrite (v_sym b a).
Qed.

Lemma mapM_length {X Y} (f : X -> result Y) l l' :
  mapM f l = Ok l' -> length l' = length l.
Proof.
  revert l'. induction l as [|x l IH]; intros l'; simpl.
  - by intros [= <-].
  - destruct (f x) as [y|e]; [simpl|done].
    destruct (mapM f l) as [r|e]; [simpl|done].
    intros [= <-]. simpl. by rewrite (IH r).
Qed.

Lemma get_simplified_tpmatrices_merged tpmats :
  mapM (get_simplified h) tpmats = Ok A -> tpmats <> [] ->
  exists B, get_simplified_tpmatrices h tpmats = Ok B /\ merged A B.
Proof.
  intros E Hne.
  assert (HA : exists a0 rest, A = a0 :: rest).
  { apply mapM_length in E. clear -E Hne.
    destruct A as [|a0 rest]; [destruct tpmats; done | eauto]. }
  destruct HA as (a0 & rest & EA).
  assert (Hg : get_simplified_tpmatrices h tpmats = add_equal_matrices h rest [a0]).
  { unfold get_simplified_tpmatrices. rewrite E. simpl. clear -EA. by rewrite EA. }
  rewrite Hg.
  assert (Ha0 : a0 ∈ A) by (rewrite EA; by left).
  destruct (add_equal_matrices_spec rest [a0] [a0]) as (B & EB & HM).
  - by apply merged_first.
  - constructor; [by apply variant_in | constructor].
  - apply Forall_forall. intros x Hx. rewrite EA. by right.
  - exists B. split; [done|]. simpl in HM. by rewrite <- EA in HM.
Qed.
End Merge.

(** ** The merge on the objects *)

Lemma get_simplified_obj_spec h s a a' s' :
  get_simplified_obj h s a = Ok (a', s') ->
  (next_id s <= next_id s')%nat /\
  (forall x, (x < next_id s)%nat -> at_id s' x = at_id s x) /\
  ((a' = a /\ returned_as_is (at_id s a) = true) \/ (next_id s <= a')%nat).
Proof.
  unfold get_simplified_obj. fold (returned_as_is (at_id s a)).
  destruct (returned_as_is (at_id s a)).
  - intros [= <- <-]. split; [done|]. split; [done|]. by left.
  - destruct (get_simplified h (at_id s a)) as [T'|e]; [simpl|done].
    intros [= <- <-]. simpl. split; [lia|]. split; [|by right].
    intros x Hx. unfold update. destruct (Nat.eqb_spec x (next_id s)); [lia|done].
Qed.

Lemma get_simplified_obj_self h s a :
  returned_as_is (at_id s a) = true -> get_simplified_obj h s a = Ok (a, s).
Proof.
  intros H. unfold get_simplified_obj. fold (returned_as_is (at_id s a)). by rewrite H.
Qed.

Lemma simplify_objs_spec h tpmats : forall s A s',
  Forall (fun a => a < next_id s)%nat tpmats ->
  simplify_objs h s tpmats = Ok (A, s') ->
  (next_id s <= next_id s')%nat /\
  (forall x, (x < next_id s)%nat -> at_id s' x = at_id s x) /\
  Forall (fun x => (x ∈ tpmats /\ returned_as_is (at_id s x) = true) \/
                   (next_id s <= x)%nat) A.
Proof.
  induction tpmats as [|a r IH]; intros s A s' Hlt; simpl.
  - intros [= <- <-]. split; [done|]. split; [done|]. constructor.
  - apply Forall_cons in Hlt as [Ha Hr].
    destruct (get_simplified_obj h s a) as [[a1 s1]|e] eqn:E1; [simpl|done].
    destruct (simplify_objs h s1 r) as [[A2 s2]|e] eqn:E2; [simpl|done].
    intros [= <- <-].
    apply get_simplified_obj_spec in E1 as (Hn1 & Hf1 & Ha1).
    apply IH in E2 as (Hn2 & Hf2 & HA2);
      [|eapply Forall_impl; [exact Hr|]; intros x Hx; simpl in Hx; lia].
    split; [lia|]. split.
    { intros x Hx. rewrite Hf2 by lia. by apply Hf1. }
    constructor.
    + destruct Ha1 as [[-> Hs]|Hge]; [left|by right]. split; [by left|done].
    + eapply Forall_impl; [exact HA2|]. intros x [[Hx Hs]|Hge]; [left|right; lia].
      split; [by right|]. rewrite <- Hf1; [done|].
      by apply (proj1 (Forall_forall _ _) Hr).
Qed.

Lemma merge_equal_obj_frame h a B : forall s s' f,
  merge_equal_obj h a B s = Ok (s', f) ->
  forall x, x ∉ B -> s' x = s x.
Proof.
  induction B as [|b r IH]; intros s s' f; simpl.
  - by intros [= <- <-].
  - destruct (TPMatrix___eq__ h (s a) (s b)) as [[]|e]; simpl; [| |done].
    + destruct (TPMatrix___iadd__ h (s b) (s a)) as [b'|e]; [simpl|done].
      destruct (merge_equal_obj h a r _) as [[s2 f2]|e] eqn:E; [simpl|done].
      intros [= <- <-] x [Hxb Hxr]%not_elem_of_cons.
      rewrite (IH _ _ _ E x Hxr). unfold update.
      by destruct (Nat.eqb_spec x b).
    + intros E x [Hxb Hxr]%not_elem_of_cons. by apply (IH _ _ _ E).
Qed.

Lemma add_equal_objs_frame h rest : forall B s B' s',
  add_equal_objs h rest B s = Ok (B', s') ->
  forall x, x ∉ B ++ rest -> s' x = s x.
Proof.
  induction rest as [|a r IH]; intros B s B' s'; simpl.
  - by intros [= <- <-].
  - destruct (merge_equal_obj h a B s) as [[s1 f]|e] eqn:E1; [simpl|done].
    intros E x Hx. rewrite elem_of_app, elem_of_cons in Hx.
    rewrite (IH _ _ _ _ E x).
    + apply (merge_equal_obj_frame _ _ _ _ _ _ E1). tauto.
    + destruct f; rewrite ?elem_of_app, ?list_elem_of_singleton; tauto.
Qed.

Lemma eq_scale_blind h T a x y :
  TPMatrix___eq__ h (set_tscale T x) (set_tscale a y) = TPMatrix___eq__ h T a.
Proof. done. Qed.

Lemma get_simplified_as_is h T :
  returned_as_is T = true -> get_simplified h T = Ok T.
Proof. intros H. unfold get_simplified. fold (returned_as_is T). by rewrite H. Qed.

Lemma map_update_notin (st : nat -> TPMatrix) b T (l : list nat) :
  b ∉ l -> map (update st b T) l = map st l.
Proof.
  induction l as [|x l IH]; [done|]. intros [Hx Hl]%not_elem_of_cons. simpl.
  rewrite IH by done. unfold update. by destruct (Nat.eqb_spec x b); [subst|].
Qed.

Lemma map_frame (st st' : nat -> TPMatrix) (l : list nat) :
  (forall x, x ∈ l -> st' x = st x) -> map st' l = map st l.
Proof.
  induction l as [|x l IH]; [done|]. intros H. simpl.
  rewrite IH, H; [done|by left|]. intros y Hy. apply H. by right.
Qed.

(** On distinct objects the first loop gives the simplified forms of the
    terms, each at an address of its own. *)
Lemma simplify_objs_sim h tpmats : forall s,
  NoDup tpmats -> Forall (fun a => a < next_id s)%nat tpmats ->
  match mapM (get_simplified h) (map (at_id s) tpmats) with
  | Ok A =>
      exists Ao s1,
        simplify_objs h s tpmats = Ok (Ao, s1) /\
        map (at_id s1) Ao = A /\ NoDup Ao /\
        (next_id s <= next_id s1)%nat /\
        (forall x, (x < next_id s)%nat -> at_id s1 x = at_id s x) /\
        Forall (fun x => x ∈ tpmats \/ (next_id s <= x)%nat) Ao /\
        Forall (fun x => x < next_id s1)%nat Ao
  | Raise e => simplify_objs h s tpmats = Raise e
  end.
Proof.
  induction tpmats as [|a r IH]; intros s Hnd Hlt.
  - simpl. exists [], s. repeat split; try done; constructor.
  - apply NoDup_cons in Hnd as [Har Hnd]. apply Forall_cons in Hlt as [Ha Hr].
    cbn [map mapM simplify_objs].
    unfold get_simplified_obj. fold (returned_as_is (at_id s a)).
    destruct (returned_as_is (at_id s a)) eqn:Eas.
    + rewrite (get_simplified_as_is h _ Eas). cbn [rbind fst snd].
      specialize (IH s Hnd Hr).
      destruct (mapM (get_simplified h) (map (at_id s) r)) as [A|e].
      * destruct IH as (Ao & s1 & E & Hm & HndA & Hn & Hf & Hcl & Hb).
        rewrite E. cbn [rbind fst snd].
        exists (a :: Ao), s1. split; [done|]. split.
        { simpl. by rewrite Hm, (Hf a Ha). }
        split.
        { apply NoDup_cons. split; [|done]. intros Hin.
          apply (proj1 (Forall_forall _ _) Hcl) in Hin as [Hin|Hin]; [done|lia]. }
        split; [done|]. split; [done|]. split.
        { constructor; [left; by left|]. eapply Forall_impl; [exact Hcl|].
          intros x [Hx|Hx]; [left; by right | by right]. }
        constructor; [lia | done].
      * by rewrite IH.
    + destruct (get_simplified h (at_id s a)) as [T'|e]; [|done].
      cbn [rbind fst snd].
      set (s1 := mkStore (S (next_id s)) (update (at_id s) (next_id s) T')).
      assert (Hf1 : forall x, (x < next_id s)%nat -> at_id s1 x = at_id s x).
      { intros x Hx. subst s1. simpl. unfold update.
        destruct (Nat.eqb_spec x (next_id s)); [lia|done]. }
      specialize (IH s1 Hnd).
      rewrite (map_frame (at_id s) (at_id s1) r) in IH.
      2:{ intros x Hx. apply Hf1. by apply (proj1 (Forall_forall _ _) Hr). }
      destruct (mapM (get_simplified h) (map (at_id s) r)) as [A|e].
      * destruct IH as (Ao & s2 & E & Hm & HndA & Hn & Hf & Hcl & Hb).
        { eapply Forall_impl; [exact Hr|]. intros x Hx. subst s1. simpl in *. lia. }
        rewrite E. cbn [rbind fst snd].
        exists (next_id s :: Ao), s2. split; [done|]. split.
        { simpl. rewrite Hm. f_equal. rewrite Hf by (subst s1; simpl; lia).
          subst s1. simpl. unfold update. by rewrite Nat.eqb_refl. }
        split.
        { apply NoDup_cons. split; [|done]. intros Hin.
          apply (proj1 (Forall_forall _ _) Hcl) in Hin as [Hin|Hin].
          - apply (proj1 (Forall_forall _ _) Hr) in Hin. lia.
          - subst s1. simpl in Hin. lia. }
        split; [subst s1; simpl in *; lia|]. split.
        { intros x Hx. rewrite Hf by (subst s1; simpl; lia). by apply Hf1. }
        split.
        { constructor; [right; lia|]. eapply Forall_impl; [exact Hcl|].
          intros x [Hx|Hx]; [left; by right | right; subst s1; simpl in *; lia]. }
        constructor; [subst s1; simpl in *; lia | done].
      * rewrite IH; [done|].
        eapply Forall_impl; [exact Hr|]. intros x Hx. subst s1. simpl in *. lia.
Qed.

(** The inner loop on objects does to the objects of [B] what it does to
    their values. *)
Lemma merge_equal_obj_sim h a B : forall st,
  NoDup B -> a ∉ B ->
  match merge_equal h (st a) (map st B) with
  | Ok q =>
      exists st',
        merge_equal_obj h a B st = Ok (st', snd q) /\ map st' B = fst q /\
        (forall x, x ∉ B -> st' x = st x)
  | Raise e => merge_equal_obj h a B st = Raise e
  end.
Proof.
  induction B as [|b r IH]; intros st Hnd Ha.
  - simpl. by exists st.
  - apply NoDup_cons in Hnd as [Hbr Hnd]. apply not_elem_of_cons in Ha as [Hab Har].
    cbn [map merge_equal merge_equal_obj].
    destruct (TPMatrix___eq__ h (st a) (st b)) as [[]|e]; cbn [rbind]; [| |done].
    + destruct (TPMatrix___iadd__ h (st b) (st a)) as [b'|e]; cbn [rbind]; [|done].
      specialize (IH (update st b b') Hnd Har).
      rewrite (map_update_notin st b b' r Hbr) in IH.
      assert (Eu : update st b b' a = st a).
      { unfold update. by destruct (Nat.eqb_spec a b). }
      rewrite Eu in IH.
      destruct (merge_equal h (st a) (map st r)) as [q|e]; cbn [rbind]; [|by rewrite IH].
      destruct IH as (st' & E & Hm & Hf). rewrite E. cbn [rbind fst snd].
      exists st'. split; [done|]. split.
      * simpl. rewrite Hm. f_equal. rewrite (Hf b Hbr). unfold update.
        by rewrite Nat.eqb_refl.
      * intros x [Hxb Hxr]%not_elem_of_cons. rewrite (Hf x Hxr). unfold update.
        by destruct (Nat.eqb_spec x b).
    + specialize (IH st Hnd Har).
      destruct (merge_equal h (st a) (map st r)) as [q|e]; cbn [rbind]; [|by rewrite IH].
      destruct IH as (st' & E & Hm & Hf). rewrite E. cbn [fst snd].
      exists st'. split; [done|]. split.
      * simpl. by rewrite Hm, (Hf b Hbr).
      * intros x [Hxb Hxr]%not_elem_of_cons. by apply Hf.
Qed.

(** The outer loop on distinct objects. *)
Lemma add_equal_objs_sim h rest : forall B st,
  NoDup (B ++ rest) ->
  match add_equal_matrices h (map st rest) (map st B) with
  | Ok B1 =>
      exists Bo st',
        add_equal_objs h rest B st = Ok (Bo, st') /\ map st' Bo = B1 /\ NoDup Bo
  | Raise e => add_equal_objs h rest B st = Raise e
  end.
Proof.
  induction rest as [|a r IH]; intros B st Hnd.
  - simpl. exists B, st. rewrite app_nil_r in Hnd. done.
  - cbn [map add_equal_matrices add_equal_objs].
    apply NoDup_app in Hnd as (HB & Hdis & Har).
    apply NoDup_cons in Har as [Har Hr].
    assert (HaB : a ∉ B) by (intros Hin; apply (Hdis a Hin); by left).
    pose proof (merge_equal_obj_sim h a B st HB HaB) as Hm.
    destruct (merge_equal h (st a) (map st B)) as [[B1 found]|e]; cbn [rbind];
      [|by rewrite Hm].
    destruct Hm as (st1 & E & HmB & Hf). rewrite E. cbn [rbind fst snd] in *.
    assert (Hmr : map st1 r = map st r).
    { apply map_frame. intros x Hx. apply Hf. intros Hin. apply (Hdis x Hin). by right. }
    specialize (IH (if found then B else B ++ [a]) st1).
    assert (Hval : map st1 (if found then B else B ++ [a]) =
                   if found then B1 else B1 ++ [st a]).
    { destruct found; [done|]. rewrite map_app, HmB. simpl. by rewrite (Hf a HaB). }
    rewrite Hval, Hmr in IH. apply IH.
    destruct found.
    + apply NoDup_app. split; [done|]. split; [|done].
      intros x Hx Hxr. apply (Hdis x Hx). by right.
    + rewrite <- app_assoc. simpl. apply NoDup_app. split; [done|]. split.
      * intros x Hx Hin. by apply (Hdis x Hx).
      * by apply NoDup_cons.
Qed.

(** On distinct objects the call returns the objects whose values the
    merge of the values gives. *)
Lemma get_simplified_tpmatrices_sim h s tpmats B :
  NoDup tpmats -> Forall (fun a => a < next_id s)%nat tpmats ->
  get_simplified_tpmatrices h (map (at_id s) tpmats) = Ok B ->
  exists Bo s',
    get_simplified_tpmatrices_obj h s tpmats = Ok (Bo, s') /\
    map (at_id s') Bo = B /\ NoDup Bo.
Proof.
  intros Hnd Hlt. unfold get_simplified_tpmatrices, get_simplified_tpmatrices_obj.
  pose proof (simplify_objs_sim h tpmats s Hnd Hlt) as H1.
  destruct (mapM (get_simplified h) (map (at_id s) tpmats)) as [A|e]; [|done].
  destruct H1 as (Ao & s1 & E & Hm & HndA & _). rewrite E. cbn [rbind fst snd].
  destruct Ao as [|a0 rest]; simpl in Hm; subst A; [done|].
  pose proof (add_equal_objs_sim h rest [a0] (at_id s1) HndA) as H2.
  simpl in H2.
  destruct (add_equal_matrices h _ _) as [B1|e]; [|done].
  destruct H2 as (Bo & st' & E2 & Hm2 & HndB). intros [= <-].
  rewrite E2. cbn [rbind fst snd]. by exists Bo, (mkStore (next_id s1) st').
Qed.


(** ** Concrete matrices *)

(** C1: a matrix with five offsets that are not symmetric about zero is
    not given the fallback solver: the symmetry test reads the diagonal at
    offset -3, which is not stored, and [get_solver] raises [KeyError]. *)
Theorem get_solver_five_offsets :
  __len__ K5_ex = 5%nat /\
  sorted_keys K5_ex = [-6; -1; 0; 3; 4] /\
  get_solver [] K5_ex = Raise KeyError.
Proof. repeat split; vm_compute; reflexivity. Qed.

(** C9: the sum [C = A + B] stores, at an offset that only [B] has, the
    very array of [B]: a store into [C]'s diagonal changes [B]. *)
Theorem add_shares_operand_array :
  exists C B' h',
    __add__ A_alias B_alias h_alias = Ok ((C, B'), h') /\
    dict_get 1 (_storage C) = Some (Arr 1%nat) /\
    dict_get 1 (_storage B') = Some (Arr 1%nat) /\
    resolve h' (_storage B') = [(1, [3]%float)] /\
    exists h'',
      arr_setitem 1 0 7%float h' = Ok (tt, h'') /\
      resolve h'' (_storage B') = [(1, [7]%float)].
Proof.
  do 3 eexists. split; [vm_compute; reflexivity|].
  repeat split. eexists. split; vm_compute; reflexivity.
Qed.



(** C6, counterexample: [Identity((2, 2), 0.).solve(b)] replaces nothing by
    zero; the division [1/self.scale] fails. *)
Lemma identity_solve_zero_scale :
  Identity_solve (Identity (2%nat, 2%nat) 0%float) (Node [Leaf 1%float; Leaf 2%float]) None
  = Raise ZeroDivisionError.
Proof. reflexivity. Qed.

(** C8, counterexample: the [Identity] that was given a second diagonal
    stores the offsets 0 and 1; its quotient by 2 holds the unit diagonal
    only. *)
Lemma truediv_changed_identity :
  locs_valid h_alias (_storage I_changed) /\ (1e-8 <? abs 2)%float = true /\
  resolve h_alias (_storage I_changed) = [(0, [1]%float); (1, [3]%float)] /\
  exists c h',
    __truediv__ I_changed 2%float h_alias = Ok (c, h') /\
    resolve h' (_storage c) = [(0, [1]%float)].
Proof.
  split; [repeat constructor|]. split; [reflexivity|]. split; [reflexivity|].
  do 2 eexists. split; [vm_compute; reflexivity|]. reflexivity.
Qed.




(** C3, witness *)
Lemma extract_diagonal_matrix_witness :
  dense_wf D_ex /\
  exists S t,
    extract_diagonal_matrix D_ex 1e-10 1e-10 [] = Ok (S, [] ++ t) /\
    shape S = dshape D_ex /\ scale S = 1%float /\
    forall k : Z,
      if retained D_ex 1e-10 1e-10 k
      then exists l, dict_get k (_storage S) = Some (Arr l) /\
                     harr ([] ++ t) l = diagonal D_ex k
      else dict_get k (_storage S) = None.
Proof.
  assert (Hwf : dense_wf D_ex) by (split; [reflexivity | repeat constructor]).
  split; [exact Hwf|].
  apply (extract_diagonal_matrix_spec D_ex 1e-10 1e-10 [] Hwf); simpl; lia.
Defined.

(** ** Concrete tensor-product matrices *)



(** C4, witness *)
Lemma get_simplified_matvec_witness :
  get_simplified h_tp (T_ex 1 None) = Ok T1s_ex /\
  diagonal_axes_of (T_ex 1 None) = [0%nat] /\
  mats T1s_ex = [Identity (2%nat, 2%nat) 1%float; M_ex] /\
  (forall rank v c,
     TPMatrix_matvec K_ex h_tp (T_ex 1 None) rank v c
     = TPMatrix_matvec K_ex h_tp T1s_ex rank v c).
Proof.
  assert (E : get_simplified h_tp (T_ex 1 None) = Ok T1s_ex) by (vm_compute; reflexivity).
  destruct (get_simplified_matvec K_ex h_tp (T_ex 1 None)) as [P1 P2].
  split; [exact E|]. split; [reflexivity|]. split; [reflexivity|].
  intros rank v c. rewrite (P1 rank v c), E. reflexivity.
Defined.

(** C6, witness *)
Lemma solve_division_policy_witness :
  get_simplified h_tp T0_ex = Ok T0s_ex /\ naxes T0s_ex = [] /\
  tscale T0s_ex = Node [Leaf 2%float; Leaf 0%float] /\
  TPMatrix_solve K_ex h_tp T0_ex (Node [Leaf 1%float; Leaf 1%float]) None []
  = Ok (Some (Node [Leaf 0.5%float; Leaf 0%float])) /\
  Forall (fun x => is_finite x = true) (nd_flat (nd_map guarded_inverse (tscale T0s_ex))).
Proof.
  assert (E : get_simplified h_tp T0_ex = Ok T0s_ex) by (vm_compute; reflexivity).
  assert (Hn : naxes T0s_ex = []) by reflexivity.
  destruct solve_division_policy as (P1 & _ & _).
  destruct (P1 K_ex h_tp T0_ex T0s_ex (Node [Leaf 1%float; Leaf 1%float]) None [] E Hn)
    as (Q1 & Q2 & _).
  split; [exact E|]. split; [exact Hn|]. split; [reflexivity|]. split; [|exact Q2].
  rewrite Q1. vm_compute. reflexivity.
Defined.

(** C5, counterexample: a list that holds one simplified term three times.
    The sum of the three scale arrays is [[6], [9]]; the term returned has
    the scale array [[8], [12]], four times that of the term. *)
Lemma merge_same_object_thrice :
  tscale (at_id objstore_ex 0%nat) = Node [Node [Leaf 2%float]; Node [Leaf 3%float]] /\
  add_all (tscale (at_id objstore_ex 0%nat))
          [tscale (at_id objstore_ex 0%nat); tscale (at_id objstore_ex 0%nat)]
  = Ok (Node [Node [Leaf 6%float]; Node [Leaf 9%float]]) /\
  exists s',
    get_simplified_tpmatrices_obj h_tp objstore_ex [0; 0; 0]%nat = Ok ([0%nat], s') /\
    tscale (at_id s' 0%nat) = Node [Node [Leaf 8%float]; Node [Leaf 12%float]].
Proof.
  split; [reflexivity|]. split; [reflexivity|].
  destruct (get_simplified_tpmatrices_obj h_tp objstore_ex [0; 0; 0]%nat)
    as [[B s']|e] eqn:E; vm_compute in E; [|discriminate E].
  injection E as <- <-. eexists. split; reflexivity.
Qed.


(** * Further properties of the module *)

(** ** The matrix as a dictionary of diagonals *)

Lemma dict_get_keys {V} (k : Z) (d : dict V) :
  dict_get k d = None <-> k ∉ dict_keys d.
Proof.
  induction d as [|[a b] d IH]; simpl.
  - split; [intros _ H; inversion H | done].
  - destruct (Z.eqb_spec k a) as [->|Hne].
    + split; [done|]. intros H. exfalso. apply H. by left.
    + rewrite IH. rewrite not_elem_of_cons. tauto.
Qed.

Lemma dict_contains_keys {V} (k : Z) (d : dict V) :
  dict_contains k d = true <-> k ∈ dict_keys d.
Proof.
  unfold dict_contains. destruct (dict_get k d) eqn:E.
  - split; [intros _|done]. destruct (decide (k ∈ dict_keys d)) as [|Hn]; [done|].
    apply dict_get_keys in Hn. congruence.
  - apply dict_get_keys in E. split; [done|]. intros H. by destruct E.
Qed.

Lemma dict_set_length {V} (k : Z) (v : V) (d : dict V) :
  length (dict_set k v d) = if dict_contains k d then length d else S (length d).
Proof.
  unfold dict_contains. induction d as [|[a b] d IH]; simpl; [done|].
  destruct (Z.eqb_spec k a) as [->|Hne]; simpl; [done|].
  rewrite IH. by destruct (dict_get k d).
Qed.

Lemma dict_del_None {V} (k : Z) (d : dict V) :
  dict_del k d = None <-> dict_get k d = None.
Proof.
  induction d as [|[a b] d IH]; simpl; [done|].
  destruct (Z.eqb_spec k a) as [->|Hne]; [done|].
  destruct (dict_del k d); [|tauto].
  split; [done|]. intros H. apply IH in H. done.
Qed.

Lemma filter_ne_id (k : Z) (l : list Z) :
  k ∉ l -> filter (fun x => x <> k) l = l.
Proof.
  induction l as [|x l IH]; [done|]. intros [Hx Hl]%not_elem_of_cons.
  rewrite filter_cons_True by done. by rewrite IH.
Qed.

Lemma dict_del_spec {V} (k : Z) (d d' : dict V) :
  NoDup (dict_keys d) -> dict_del k d = Some d' ->
  dict_get k d' = None /\
  (forall k', k' <> k -> dict_get k' d' = dict_get k' d) /\
  S (length d') = length d /\
  dict_keys d' = filter (fun x => x <> k) (dict_keys d).
Proof.
  revert d'. induction d as [|[a b] d IH]; intros d' Hnd; simpl; [done|].
  apply NoDup_cons in Hnd as [Ha Hnd].
  destruct (Z.eqb_spec k a) as [->|Hne].
  - intros [= <-]. split; [by apply dict_get_keys|]. split; [|split; [done|]].
    + intros k' Hk'. by destruct (Z.eqb_spec k' a).
    + rewrite filter_cons_False by (intros H; by apply H).
      by rewrite filter_ne_id.
  - destruct (dict_del k d) as [r|] eqn:E; [|done]. intros [= <-].
    destruct (IH r Hnd eq_refl) as (H1 & H2 & H3 & H4). simpl.
    destruct (Z.eqb_spec k a); [done|]. split; [done|]. split; [|split].
    + intros k' Hk'. destruct (Z.eqb_spec k' a); [done|]. by apply H2.
    + by rewrite H3.
    + rewrite filter_cons_True by (by intros ->). by rewrite H4.
Qed.

Lemma dict_del_set_new {V} (k : Z) (v : V) (d : dict V) :
  dict_get k d = None -> dict_del k (dict_set k v d) = Some d.
Proof.
  induction d as [|[a b] d IH]; simpl.
  - by rewrite Z.eqb_refl.
  - destruct (Z.eqb_spec k a) as [->|Hne]; [done|]. intros H. simpl.
    destruct (Z.eqb_spec k a); [done|]. by rewrite IH.
Qed.

Lemma dict_set_NoDup {V} (k : Z) (v : V) (d : dict V) :
  NoDup (dict_keys d) -> NoDup (dict_keys (dict_set k v d)).
Proof.
  induction d as [|[a b] d IH]; simpl.
  - intros _. apply NoDup_singleton.
  - intros [Ha Hnd]%NoDup_cons. destruct (Z.eqb_spec k a) as [->|Hne]; simpl.
    + by apply NoDup_cons.
    + apply NoDup_cons. split; [|by apply IH].
      rewrite dict_set_keys. intros [->|H]; done.
Qed.

(** X1: a matrix is a dictionary of its diagonals.  A stored value is read
    back, other offsets are not touched, and the number of diagonals grows
    only for a new offset; deleting a missing offset raises [KeyError];
    deleting a stored one makes it missing and leaves the others; storing at
    a new offset and deleting it again gives the matrix back. *)
Theorem setitem_getitem_delitem A k v :
  NoDup (__iter__ A) ->
  __getitem__ (__setitem__ A k v) k = Ok v /\
  (forall k', k' <> k -> __getitem__ (__setitem__ A k v) k' = __getitem__ A k') /\
  __len__ (__setitem__ A k v) =
    (if dict_contains k (_storage A) then __len__ A else S (__len__ A)) /\
  NoDup (__iter__ (__setitem__ A k v)) /\
  exists A',
    __delitem__ (__setitem__ A k v) k = Ok A' /\
    __getitem__ A' k = Raise KeyError /\
    __delitem__ A' k = Raise KeyError /\
    (forall k', k' <> k -> __getitem__ A' k' = __getitem__ A k') /\
    (dict_contains k (_storage A) = false -> A' = A).
Proof.
  intros Hnd. unfold __getitem__, __setitem__, __len__, __delitem__, __iter__. simpl.
  rewrite dict_get_set_eq. split; [done|]. split.
  { intros k' Hk'. by rewrite dict_get_set_ne. }
  split; [apply dict_set_length|]. split; [by apply dict_set_NoDup|].
  destruct (dict_del k (dict_set k v (_storage A))) as [d'|] eqn:E.
  - destruct (dict_del_spec k _ d' (dict_set_NoDup k v _ Hnd) E) as (H1 & H2 & _ & _).
    eexists. split; [done|]. simpl. rewrite H1. split; [done|].
    split. { apply dict_del_None in H1. by rewrite H1. }
    split.
    + intros k' Hk'. by rewrite H2, dict_get_set_ne.
    + unfold dict_contains. destruct (dict_get k (_storage A)) eqn:Eg; [done|]. intros _.
      rewrite dict_del_set_new in E by done. injection E as <-. by destruct A.
  - apply dict_del_None in E. by rewrite dict_get_set_eq in E.
Qed.

(** ** The choice of a solver *)

Lemma insert_sorted_perm x l : insert_sorted x l ≡ₚ x :: l.
Proof.
  induction l as [|y l IH]; simpl; [done|].
  destruct (x <=? y); [done|]. rewrite IH. apply Permutation_swap.
Qed.

Lemma insert_sorted_sorted x l : Sorted Z.le l -> Sorted Z.le (insert_sorted x l).
Proof.
  induction l as [|y l IH]; simpl; intros Hs.
  - repeat constructor.
  - destruct (Z.leb_spec x y) as [Hxy|Hxy].
    + constructor; [done|]. by constructor.
    + apply Sorted_inv in Hs as [Hs Hd]. constructor; [by apply IH|].
      destruct l as [|z l]; simpl.
      * constructor. lia.
      * destruct (x <=? z); constructor; [lia|]. by inversion Hd.
Qed.

Lemma sorted_keys_perm A : sorted_keys A ≡ₚ dict_keys (_storage A).
Proof.
  unfold sorted_keys. induction (dict_keys (_storage A)) as [|x l IH]; simpl; [done|].
  by rewrite insert_sorted_perm, IH.
Qed.

Lemma sorted_keys_sorted A : Sorted Z.le (sorted_keys A).
Proof.
  unfold sorted_keys. induction (dict_keys (_storage A)) as [|x l IH]; simpl.
  - constructor.
  - by apply insert_sorted_sorted.
Qed.

Lemma keys_are_perm A ks :
  Sorted Z.le ks -> keys_are A ks = true <-> dict_keys (_storage A) ≡ₚ ks.
Proof.
  intros Hs. unfold keys_are. rewrite bool_decide_eq_true. split.
  - intros <-. symmetry. apply sorted_keys_perm.
  - intros Hp. apply (Sorted_unique Z.le); [apply sorted_keys_sorted | done |].
    by rewrite sorted_keys_perm.
Qed.

Lemma keys_are_false A ks :
  Sorted Z.le ks -> ~ dict_keys (_storage A) ≡ₚ ks -> keys_are A ks = false.
Proof.
  intros Hs Hn. destruct (keys_are A ks) eqn:E; [|done].
  apply keys_are_perm in E; done.
Qed.

Lemma keys_are_length A ks :
  dict_keys (_storage A) ≡ₚ ks -> __len__ A = length ks.
Proof.
  intros Hp. apply Permutation_length in Hp.
  unfold __len__. unfold dict_keys in Hp. by rewrite length_map in Hp.
Qed.

#[local] Ltac sorted_list := repeat (constructor; try lia).

(** [x] is in the left list of the permutation [H] and not in the right. *)
#[local] Ltac not_perm x H :=
  let Hin := fresh in
  match type of H with
  | _ ≡ₚ ?r => assert (Hin : x ∈ r) by (rewrite <- H; by left)
  end;
  repeat (apply elem_of_cons in Hin as [Hin|Hin]; [lia|]);
  by apply elem_of_nil in Hin.

(** X2: the solver depends on the set of stored offsets, not on the order
    in which the diagonals were stored.  Offsets {0, 2} give [TwoDMA],
    {-2, 0, 2} give [TDMA] and {-2, 0, 2, 4} give [FDMA], whatever the
    diagonals hold; {-1, 0, 1} and {-4, -2, 0, 2, 4} give [TDMA_O] and
    [PDMA] when the symmetry test holds and [Solve] when it does not; every
    other set gives [Solve], after the symmetry test has run (and may have
    failed) when there are five offsets. *)
Theorem get_solver_table h A :
  let ks := dict_keys (_storage A) in
  (ks ≡ₚ [0; 2] -> get_solver h A = Ok TwoDMA) /\
  (ks ≡ₚ [-2; 0; 2] -> get_solver h A = Ok TDMA) /\
  (ks ≡ₚ [-2; 0; 2; 4] -> get_solver h A = Ok FDMA) /\
  (ks ≡ₚ [-1; 0; 1] ->
     get_solver h A = let+ s := issymmetric h A in Ok (if s then TDMA_O else Solve)) /\
  (ks ≡ₚ [-4; -2; 0; 2; 4] ->
     get_solver h A = let+ s := issymmetric h A in Ok (if s then PDMA else Solve)) /\
  (~ ks ≡ₚ [0; 2] -> ~ ks ≡ₚ [-2; 0; 2] -> ~ ks ≡ₚ [-2; 0; 2; 4] ->
   ~ ks ≡ₚ [-1; 0; 1] -> ~ ks ≡ₚ [-4; -2; 0; 2; 4] ->
     get_solver h A =
       if Nat.eqb (length ks) 5 then let+ s := issymmetric h A in Ok Solve
       else Ok Solve).
Proof.
  intros ks. subst ks. repeat split.
  - intros Hp. unfold get_solver. rewrite (keys_are_length _ _ Hp). simpl.
    by rewrite (proj2 (keys_are_perm A [0; 2] ltac:(sorted_list)) Hp).
  - intros Hp. unfold get_solver. rewrite (keys_are_length _ _ Hp). simpl.
    by rewrite (proj2 (keys_are_perm A [-2; 0; 2] ltac:(sorted_list)) Hp).
  - intros Hp. unfold get_solver. rewrite (keys_are_length _ _ Hp). simpl.
    by rewrite (proj2 (keys_are_perm A [-2; 0; 2; 4] ltac:(sorted_list)) Hp).
  - intros Hp. unfold get_solver. rewrite (keys_are_length _ _ Hp). simpl.
    rewrite (proj2 (keys_are_perm A [-1; 0; 1] ltac:(sorted_list)) Hp).
    rewrite keys_are_false; [| sorted_list |].
    + destruct (issymmetric h A) as [[]|]; done.
    + intros Hq. rewrite Hp in Hq. not_perm (-1) Hq.
  - intros Hp. unfold get_solver. rewrite (keys_are_length _ _ Hp). simpl.
    rewrite (proj2 (keys_are_perm A [-4; -2; 0; 2; 4] ltac:(sorted_list)) Hp).
    destruct (issymmetric h A) as [[]|]; done.
  - intros H2 H3 H4 H3s H5. unfold get_solver, __len__.
    unfold dict_keys. rewrite length_map.
    rewrite !keys_are_false; try done; try sorted_list.
    destruct (length (_storage A)) as [|[|[|[|[|[|n]]]]]]; try done.
    simpl. destruct (issymmetric h A) as [[]|]; done.
Qed.

(** ** The symmetry test *)

Lemma issymmetric_items_true h A todo :
  issymmetric_items h A todo = Ok true <->
  forall k, k ∈ dict_keys todo -> 0 < k -> mirror_close h A k.
Proof.
  induction todo as [|[key v] todo IH]; simpl.
  - split; [|done]. intros _ k Hk. inversion Hk.
  - destruct (Z.leb_spec key 0) as [Hle|Hlt].
    + rewrite IH. split.
      * intros H k [->|Hk]%elem_of_cons Hpos; [lia | by apply H].
      * intros H k Hk. apply H. by right.
    + assert (Hstep : (forall k, k ∈ key :: dict_keys todo -> 0 < k -> mirror_close h A k) <->
                      mirror_close h A key /\
                      forall k, k ∈ dict_keys todo -> 0 < k -> mirror_close h A k).
      { split.
        - intros H. split; [apply H; [by left | done]|]. intros k Hk. apply H. by right.
        - intros [H1 H2] k [->|Hk]%elem_of_cons Hpos; [done | by apply H2]. }
      rewrite Hstep, <- IH. unfold mirror_close, mirror_diff.
      destruct (__getitem__ A key) as [a|e]; simpl.
      2:{ split; [done|]. by intros [(df & ? & _) _]. }
      destruct (__getitem__ A (- key)) as [b|e]; simpl.
      2:{ split; [done|]. by intros [(df & ? & _) _]. }
      destruct (broadcast2 _ _ _) as [df|e]; simpl.
      2:{ split; [done|]. by intros [(df & ? & _) _]. }
      destruct (forallb (fun x => abs x <? 1e-8)%float df) eqn:Ef; simpl.
      * split; [|by intros [_ ?]]. intros H. split; [|done]. exists df. split; [done|].
        apply Forall_forall. intros x Hx. rewrite forallb_forall in Ef.
        apply Ef. by apply list_elem_of_In.
      * split; [done|]. intros [(df' & [= <-] & Hall) _]. exfalso.
        assert (forallb (fun x => abs x <? 1e-8)%float df = true); [|congruence].
        apply forallb_forall. intros x Hx%list_elem_of_In.
        by apply (proj1 (Forall_forall _ _) Hall).
Qed.

Lemma issymmetric_items_total h A todo :
  (forall k, k ∈ dict_keys todo -> 0 < k -> exists df, mirror_diff h A k = Ok df) ->
  exists r, issymmetric_items h A todo = Ok r.
Proof.
  induction todo as [|[key v] todo IH]; simpl; intros H; [by eexists|].
  destruct (IH ltac:(intros k Hk; apply H; by right)) as [r Hr].
  destruct (Z.leb_spec key 0) as [Hle|Hlt]; [by exists r|].
  destruct (H key ltac:(by left) Hlt) as [df Hdf]. unfold mirror_diff in Hdf.
  destruct (__getitem__ A key) as [a|e]; [simpl in *|done].
  destruct (__getitem__ A (- key)) as [b|e]; [simpl in *|done].
  rewrite Hdf. simpl.
  destruct (forallb _ df); simpl; [by exists r | by eexists].
Qed.

Local Abbreviation zsum l := (foldr Z.add 0 l).

Lemma zsum_perm (l1 l2 : list Z) : l1 ≡ₚ l2 -> zsum l1 = zsum l2.
Proof. induction 1; simpl; lia. Qed.

Lemma zsum_app (l1 l2 : list Z) : zsum (l1 ++ l2) = zsum l1 + zsum l2.
Proof. induction l1; simpl; lia. Qed.

Lemma zsum_opp (l : list Z) : zsum (map Z.opp l) = - zsum l.
Proof. induction l; simpl; lia. Qed.

Lemma zsum_nonpos (l : list Z) : Forall (fun x => x < 0) l -> zsum l <= 0.
Proof. induction 1; simpl; lia. Qed.

Lemma zsum_signs (l : list Z) :
  zsum l = zsum (filter (fun x => 0 < x) l) + zsum (filter (fun x => x < 0) l).
Proof.
  induction l as [|x l IH]; [done|]. rewrite !filter_cons. simpl.
  destruct (decide (0 < x)), (decide (x < 0)); simpl; lia.
Qed.

(** Offsets without repetition that sum to zero and hold the mirror of every
    positive offset hold the mirror of every offset. *)
Lemma mirrored_keys (ks : list Z) :
  NoDup ks -> zsum ks = 0 ->
  (forall k, k ∈ ks -> 0 < k -> - k ∈ ks) ->
  forall k, k ∈ ks -> - k ∈ ks.
Proof.
  intros Hnd Hsum Hpos k Hk.
  destruct (Z.lt_trichotomy 0 k) as [Hk0|[<-|Hk0]]; [by apply Hpos | done |].
  destruct (decide (- k ∈ ks)) as [|Hnot]; [done|]. exfalso.
  set (P := filter (fun x => 0 < x) ks). set (N := filter (fun x => x < 0) ks).
  assert (HL : (k :: map Z.opp P) ⊆+ N).
  { apply NoDup_submseteq.
    - apply NoDup_cons. split.
      + intros (p & E & [Hp1 Hp2]%list_elem_of_filter)%list_elem_of_fmap.
        apply Hnot. by replace (- k) with p by lia.
      + apply (@NoDup_fmap_2 _ _ Z.opp ltac:(intros x y ?; lia)). by apply NoDup_filter.
    - intros x [->|(p & -> & [Hp1 Hp2]%list_elem_of_filter)%list_elem_of_fmap]%elem_of_cons;
        apply list_elem_of_filter.
      + done.
      + split; [lia | by apply Hpos]. }
  apply submseteq_Permutation in HL as [R HR].
  assert (HRneg : Forall (fun x => x < 0) R).
  { apply Forall_forall. intros x Hx.
    assert (Hin : x ∈ N) by (rewrite HR; apply elem_of_app; by right).
    by apply list_elem_of_filter in Hin as [? _]. }
  apply zsum_nonpos in HRneg.
  pose proof (zsum_signs ks) as Hs. fold P in Hs. fold N in Hs.
  rewrite (zsum_perm _ _ HR) in Hs. simpl in Hs.
  rewrite zsum_app, zsum_opp in Hs. lia.
Qed.

Lemma zsum_bound (B : Z) (l : list Z) :
  Forall (fun k => - B <= k <= B) l ->
  - (Z.of_nat (length l) * B) <= zsum l <= Z.of_nat (length l) * B.
Proof.
  induction 1 as [|x l Hx _ IH]; simpl length; simpl foldr; [lia|].
  rewrite Nat2Z.inj_succ, Z.mul_succ_l. lia.
Qed.

Lemma nodup_range_length (B : Z) (l : list Z) :
  0 <= B -> NoDup l -> Forall (fun k => - B <= k <= B) l ->
  Z.of_nat (length l) <= 2 * B + 1.
Proof.
  intros HB Hnd HF.
  assert (HL : l ⊆+ seqZ (- B) (2 * B + 1)).
  { apply NoDup_submseteq; [done|]. intros x Hx.
    apply (proj1 (Forall_forall _ _) HF) in Hx. apply elem_of_seqZ. lia. }
  apply submseteq_length in HL. rewrite length_seqZ in HL. lia.
Qed.

(** Offsets without repetition and below [2^31] in absolute value: their
    sum does not wrap around. *)
Lemma np_sum_small (l : list Z) :
  NoDup l -> Forall (fun k => - 2 ^ 31 < k < 2 ^ 31) l ->
  np_sum_int64 l = zsum l.
Proof.
  intros Hnd HF. unfold np_sum_int64, int64_wrap.
  change (2 ^ 31) with 2147483648 in HF.
  change (2 ^ 63) with 9223372036854775808.
  change (2 ^ 64) with 18446744073709551616.
  assert (HF' : Forall (fun k => - 2147483647 <= k <= 2147483647) l).
  { eapply Forall_impl; [exact HF|]. intros k Hk. simpl in Hk. lia. }
  pose proof (zsum_bound 2147483647 l HF') as Hb.
  pose proof (nodup_range_length 2147483647 l ltac:(lia) Hnd HF') as Hl.
  rewrite Z.mod_small by nia. lia.
Qed.


(** ** Diagonal and identity matrices *)

Lemma dict_get_resolve h k d :
  dict_get k (resolve h d) = dentries h <$> dict_get k d.
Proof.
  induction d as [|[a v] d IH]; simpl; [done|]. by destruct (k =? a).
Qed.

Lemma isidentity_resolve h h' A C :
  resolve h' (_storage C) = resolve h (_storage A) ->
  isidentity h' C = isidentity h A /\ isdiagonal C = isdiagonal A.
Proof.
  intros Hr.
  assert (Hlen : __len__ C = __len__ A).
  { unfold __len__. apply (f_equal length) in Hr. unfold resolve in Hr.
    by rewrite !length_map in Hr. }
  assert (Hget : dentries h' <$> dict_get 0 (_storage C) =
                 dentries h <$> dict_get 0 (_storage A)).
  { by rewrite <- !dict_get_resolve, Hr. }
  unfold isidentity, isdiagonal, dict_contains, __getitem__. rewrite Hlen.
  destruct (dict_get 0 (_storage C)) as [v|], (dict_get 0 (_storage A)) as [w|];
    simpl in Hget; try done.
  injection Hget as Hget. simpl. by rewrite Hget.
Qed.


(** ** Sums and differences on the entries *)

Lemma SFcompare_Lt_trans a b c :
  SFcompare a b = Some Lt -> SFcompare b c = Some Lt -> SFcompare a c = Some Lt.
Proof.
  destruct a as [sa|sa| |sa ma ea], b as [sb|sb| |sb mb eb], c as [sc|sc| |sc mc ec]; simpl;
    try destruct sa; try destruct sb; try destruct sc; try congruence;
    change (PosDef.Pos.compare_cont Eq) with Pos.compare;
    destruct (Z.compare_spec ea eb), (Z.compare_spec eb ec), (Z.compare_spec ea ec);
    try congruence; try lia; subst;
    destruct (Pos.compare_spec ma mb), (Pos.compare_spec mb mc), (Pos.compare_spec ma mc);
    simpl; try congruence; try lia.
Qed.

Lemma ltb_trans (a b c : float) :
  (a <? b)%float = true -> (b <? c)%float = true -> (a <? c)%float = true.
Proof.
  rewrite !ltb_spec. unfold SFltb. intros H1 H2.
  destruct (SFcompare (Prim2SF a) (Prim2SF b)) as [[]|] eqn:E1; try discriminate.
  destruct (SFcompare (Prim2SF b) (Prim2SF c)) as [[]|] eqn:E2; try discriminate.
  by rewrite (SFcompare_Lt_trans _ _ _ E1 E2).
Qed.

Lemma not_tiny_16 (s : float) : not_tiny s -> (abs s <? 1e-16)%float = false.
Proof.
  unfold not_tiny. intros H. destruct (abs s <? 1e-16)%float eqn:E; [|done].
  rewrite (ltb_trans _ _ _ E) in H; [done|]. by vm_compute.
Qed.

Lemma resolve_dict_set h k v d :
  resolve h (dict_set k v d) = dict_set k (dentries h v) (resolve h d).
Proof.
  induction d as [|[a b] d IH]; simpl; [done|].
  destruct (k =? a); simpl; [done|]. by rewrite IH.
Qed.

Lemma resolve_keys h d : dict_keys (resolve h d) = dict_keys d.
Proof. unfold resolve, dict_keys. rewrite map_map. done. Qed.

Lemma locs_valid_dict_set h k v d :
  locs_valid h d -> dval_valid h v -> locs_valid h (dict_set k v d).
Proof.
  intros Hd Hv. induction Hd as [|[a b] d Hb Hd IH]; simpl.
  - by repeat constructor.
  - destruct (k =? a); constructor; simpl; auto.
Qed.

Lemma locs_valid_get h k v d :
  locs_valid h d -> dict_get k d = Some v -> dval_valid h v.
Proof.
  induction 1 as [|[a b] d Hb _ IH]; simpl; [done|].
  destruct (k =? a); [by intros [= <-] | done].
Qed.

Lemma dval_map_spec f h v :
  dval_valid h v ->
  exists v' t, dval_map f v h = Ok (v', h ++ t) /\
               dentries (h ++ t) v' = map f (dentries h v) /\
               dval_valid (h ++ t) v'.
Proof.
  destruct v as [x|l]; simpl; intros Hv.
  - exists (Scalar (f x)), []. by rewrite app_nil_r.
  - exists (Arr (length h)), [map f (harr h l)]. split; [done|]. split.
    + simpl. by rewrite harr_new.
    + simpl. rewrite length_app. simpl. lia.
Qed.

Lemma dval_binop_spec op h a b :
  match broadcast2 op (dentries h a) (dentries h b) with
  | Ok c => exists w t, dval_binop op a b h = Ok (w, h ++ t) /\
                        dentries (h ++ t) w = c /\ dval_valid (h ++ t) w
  | Raise e => dval_binop op a b h = Raise e
  end.
Proof.
  assert (Hgen : match broadcast2 op (dentries h a) (dentries h b) with
                 | Ok r => Ok (Arr (length h), h ++ [r])
                 | Raise e => Raise e
                 end =
                 match broadcast2 op (dentries h a) (dentries h b) with
                 | Ok r => Ok (Arr (length h), h ++ [r])
                 | Raise e => Raise e
                 end ->
                 match broadcast2 op (dentries h a) (dentries h b) with
                 | Ok c => exists w t,
                     match broadcast2 op (dentries h a) (dentries h b) with
                     | Ok r => Ok (Arr (length h), h ++ [r])
                     | Raise e => Raise e
                     end = Ok (w, h ++ t) /\
                     dentries (h ++ t) w = c /\ dval_valid (h ++ t) w
                 | Raise e =>
                     match broadcast2 op (dentries h a) (dentries h b) with
                     | Ok r => Ok (Arr (length h), h ++ [r])
                     | Raise e => Raise e
                     end = Raise e
                 end).
  { intros _. destruct (broadcast2 op (dentries h a) (dentries h b)) as [c|e]; [|done].
    exists (Arr (length h)), [c]. split; [done|]. simpl. rewrite harr_new.
    split; [done|]. rewrite length_app. simpl. lia. }
  destruct a as [x|la], b as [y|lb]; try (by apply Hgen).
  simpl. exists (Scalar (op x y)), []. by rewrite app_nil_r.
Qed.

Lemma scale_items_resolve s todo : forall d h,
  locs_valid h todo -> locs_valid h d ->
  exists d' t,
    scale_items s todo d h = Ok (d', h ++ t) /\
    resolve (h ++ t) d' = scale_pure s (resolve h todo) (resolve h d) /\
    locs_valid (h ++ t) d'.
Proof.
  induction todo as [|[k v] todo IH]; intros d h Ht Hd; simpl.
  - exists d, []. by rewrite app_nil_r.
  - apply Forall_cons in Ht as [Hv Ht]. simpl in Hv.
    destruct (dval_map_spec (fun x => x * s)%float h v Hv) as (v' & t & E & He & Hv').
    unfold bind. rewrite E.
    destruct (IH (dict_set k v' d) (h ++ t)) as (d' & t' & E' & Hr & Hl).
    { by apply locs_valid_app. }
    { apply locs_valid_dict_set; [by apply locs_valid_app | done]. }
    exists d', (t ++ t'). rewrite app_assoc. split; [done|]. split; [|done].
    rewrite Hr, resolve_dict_set, He, !resolve_app; done.
Qed.

Lemma dict_set_app_r {V} (k : Z) (v v0 : V) (pre r : dict V) :
  k ∉ dict_keys pre ->
  dict_set k v (pre ++ (k, v0) :: r) = pre ++ (k, v) :: r.
Proof.
  induction pre as [|[a b] pre IH]; simpl.
  - by rewrite Z.eqb_refl.
  - intros [Hne Hk]%not_elem_of_cons. destruct (Z.eqb_spec k a); [done|].
    by rewrite IH.
Qed.

Lemma scale_pure_map s todo : forall pre,
  NoDup (dict_keys (pre ++ todo)) ->
  scale_pure s todo (pre ++ todo) =
  pre ++ map (fun p => (fst p, map (fun x => x * s)%float (snd p))) todo.
Proof.
  induction todo as [|[k v] todo IH]; intros pre Hnd; simpl; [done|].
  unfold dict_keys in Hnd. rewrite map_app in Hnd. simpl in Hnd.
  assert (Hk : k ∉ dict_keys pre).
  { apply NoDup_app in Hnd as (_ & H & _). intros Hin. apply (H k Hin). by left. }
  rewrite dict_set_app_r by done.
  rewrite (cons_middle _ pre todo), app_assoc. rewrite IH.
  - by rewrite <- app_assoc.
  - unfold dict_keys. rewrite <- app_assoc, map_app. simpl. done.
Qed.

Lemma incorporate_scale_resolve h A :
  locs_valid h (_storage A) -> NoDup (dict_keys (_storage A)) ->
  exists A' t,
    incorporate_scale A h = Ok (A', h ++ t) /\
    resolve (h ++ t) (_storage A') = scaled_entries h A /\
    scale A' = folded_scale (scale A) /\ shape A' = shape A /\ cls A' = cls A /\
    locs_valid (h ++ t) (_storage A').
Proof.
  intros Hv Hnd. unfold incorporate_scale, scaled_entries, folded_scale.
  destruct (abs (scale A - 1) <? 1e-8)%float.
  - exists A, []. by rewrite app_nil_r.
  - destruct (scale_items_resolve (scale A) (_storage A) (_storage A) h Hv Hv)
      as (d' & t & E & Hr & Hl).
    exists (mkSparseMatrix d' (shape A) 1%float (cls A)), t.
    unfold bind. rewrite E. simpl. repeat split; try done.
    rewrite Hr. apply (scale_pure_map _ _ []). simpl. by rewrite resolve_keys.
Qed.

Lemma merge_items_resolve neg todo : forall f h,
  locs_valid h todo -> locs_valid h f ->
  match merge_pure neg (resolve h todo) (resolve h f) with
  | Ok D => exists fs t,
      merge_items neg todo f h = Ok (fs, h ++ t) /\
      resolve (h ++ t) fs = D /\ locs_valid (h ++ t) fs
  | Raise e => merge_items neg todo f h = Raise e
  end.
Proof.
  induction todo as [|[k v] todo IH]; intros f h Ht Hf; simpl.
  - exists f, []. by rewrite app_nil_r.
  - apply Forall_cons in Ht as [Hv Ht]. simpl in Hv.
    rewrite dict_get_resolve.
    assert (Hstep : forall w t,
      dval_valid (h ++ t) w ->
      match merge_pure neg (resolve h todo) (dict_set k (dentries (h ++ t) w) (resolve h f)) with
      | Ok D => exists fs t',
          merge_items neg todo (dict_set k w f) (h ++ t) = Ok (fs, h ++ (t ++ t')) /\
          resolve (h ++ (t ++ t')) fs = D /\ locs_valid (h ++ (t ++ t')) fs
      | Raise e => merge_items neg todo (dict_set k w f) (h ++ t) = Raise e
      end).
    { intros w t Hw.
      specialize (IH (dict_set k w f) (h ++ t) (locs_valid_app _ _ _ Ht)
                     (locs_valid_dict_set _ _ _ _ (locs_valid_app _ _ _ Hf) Hw)).
      rewrite resolve_dict_set, !resolve_app in IH by done.
      destruct (merge_pure _ _ _) as [D|e]; [|done].
      destruct IH as (fs & t' & E & Hr & Hl). exists fs, t'. by rewrite app_assoc. }
    destruct (dict_get k f) as [fv|] eqn:Eg; simpl.
    + pose proof (dval_binop_spec (if neg then PrimFloat.sub else PrimFloat.add) h fv v) as Hb.
      destruct (broadcast2 _ (dentries h fv) (dentries h v)) as [c|e]; simpl.
      * destruct Hb as (w & t & Eb & Hc & Hw). unfold bind. rewrite Eb.
        specialize (Hstep w t Hw). rewrite Hc in Hstep.
        destruct (merge_pure _ _ _) as [D|e]; [|done].
        destruct Hstep as (fs & t' & E & Hr & Hl). by exists fs, (t ++ t').
      * unfold bind. by rewrite Hb.
    + destruct neg.
      * destruct (dval_map_spec PrimFloat.opp h v Hv) as (w & t & Eb & Hc & Hw).
        unfold bind. rewrite Eb. specialize (Hstep w t Hw). rewrite Hc in Hstep.
        destruct (merge_pure _ _ _) as [D|e]; [|done].
        destruct Hstep as (fs & t' & E & Hr & Hl). by exists fs, (t ++ t').
      * specialize (Hstep v [] ltac:(by rewrite app_nil_r)).
        rewrite app_nil_r in Hstep. simpl in Hstep.
        destruct (merge_pure _ _ _) as [D|e]; [|done].
        destruct Hstep as (fs & t' & E & Hr & Hl). by exists fs, t'.
Qed.

Lemma dict_set_keys_eq {V} (k : Z) (v : V) (d : dict V) :
  dict_keys (dict_set k v d) =
  if dict_contains k d then dict_keys d else dict_keys d ++ [k].
Proof.
  unfold dict_contains. induction d as [|[a b] d IH]; simpl; [done|].
  destruct (Z.eqb_spec k a) as [->|Hne]; simpl; [done|].
  rewrite IH. by destruct (dict_get k d).
Qed.

Lemma filter_ext_in {A} (P Q : A -> Prop) `{!forall x, Decision (P x)}
    `{!forall x, Decision (Q x)} (l : list A) :
  (forall x, x ∈ l -> P x <-> Q x) -> filter P l = filter Q l.
Proof.
  induction l as [|x l IH]; intros Hpq; [done|].
  rewrite !filter_cons.
  rewrite IH by (intros y Hy; apply Hpq; by right).
  destruct (decide (P x)) as [HP|HP], (decide (Q x)) as [HQ|HQ]; try done.
  - exfalso. apply HQ, Hpq; [by left | done].
  - exfalso. apply HP, Hpq; [by left | done].
Qed.

Lemma broadcast2_error op a b e : broadcast2 op a b = Raise e -> e = ValueError.
Proof.
  unfold broadcast2. destruct (decide _); [done|].
  destruct a as [|x [|y a]], b as [|z [|w b]]; simpl; congruence.
Qed.

Lemma merge_pure_spec (neg : bool) (todo : dict (list float)) : forall F : dict (list float),
  NoDup (dict_keys todo) ->
  (forall k a b, dict_get k F = Some a -> dict_get k todo = Some b ->
     exists c, broadcast2 (if neg then PrimFloat.sub else PrimFloat.add) a b = Ok c) ->
  exists D,
    merge_pure neg todo F = Ok D /\
    dict_keys D = dict_keys F ++ filter (fun k => k ∉ dict_keys F) (dict_keys todo) /\
    forall k, combine_entry neg (dict_get k F) (dict_get k todo) = Ok (dict_get k D).
Proof.
  induction todo as [|[k0 v] todo IH]; intros F Hnd Hc; simpl.
  - exists F. split; [done|]. split; [by rewrite app_nil_r|].
    intros k. by destruct (dict_get k F).
  - apply NoDup_cons in Hnd as [Hk0 Hnd]. simpl in Hk0.
    fold (dict_keys todo) in Hk0, Hnd.
    assert (Hw : exists w, combine_entry neg (dict_get k0 F) (Some v) = Ok (Some w)).
    { destruct (dict_get k0 F) as [a|] eqn:Ea; simpl; [|by eexists].
      destruct (Hc k0 a v Ea) as [c Hcv]; [simpl; by rewrite Z.eqb_refl|].
      rewrite Hcv. by eexists. }
    destruct Hw as [w Hw]. rewrite Hw. simpl.
    destruct (IH (dict_set k0 w F) Hnd) as (D & ED & HK & HG).
    { intros k a b Ha Hb.
      assert (Hne : k <> k0).
      { intros ->. apply Hk0. destruct (decide (k0 ∈ dict_keys todo)) as [|Hn]; [done|].
        apply dict_get_keys in Hn. congruence. }
      rewrite dict_get_set_ne in Ha by done. apply (Hc k a b Ha).
      simpl. by destruct (Z.eqb_spec k k0). }
    exists D. split; [done|]. split.
    + rewrite HK, dict_set_keys_eq, filter_cons.
      destruct (dict_contains k0 F) eqn:Ec.
      * apply dict_contains_keys in Ec.
        by rewrite decide_False by (intros Hx; by apply Hx).
      * assert (Hn : k0 ∉ dict_keys F).
        { intros Hx. apply dict_contains_keys in Hx. congruence. }
        rewrite decide_True by done. rewrite <- app_assoc. simpl. do 2 f_equal.
        apply filter_ext_in. intros x Hx. rewrite not_elem_of_app.
        split; [tauto|]. intros Hx'. split; [done|].
        intros ->%list_elem_of_singleton. done.
    + intros k. destruct (Z.eqb_spec k k0) as [->|Hne].
      * rewrite Hw. specialize (HG k0). rewrite dict_get_set_eq in HG.
        apply dict_get_keys in Hk0. rewrite Hk0 in HG. simpl in HG. congruence.
      * specialize (HG k). by rewrite dict_get_set_ne in HG.
Qed.

Lemma merge_pure_fail (neg : bool) (todo : dict (list float)) : forall (F : dict (list float)) k a b e,
  NoDup (dict_keys todo) ->
  dict_get k F = Some a -> dict_get k todo = Some b ->
  broadcast2 (if neg then PrimFloat.sub else PrimFloat.add) a b = Raise e ->
  merge_pure neg todo F = Raise ValueError.
Proof.
  induction todo as [|[k0 v] todo IH]; intros F k a b e Hnd Ha Hb He; simpl in *; [done|].
  apply NoDup_cons in Hnd as [Hk0 Hnd]. simpl in Hk0.
  fold (dict_keys todo) in Hk0, Hnd.
  destruct (Z.eqb_spec k k0) as [->|Hne].
  - injection Hb as ->. rewrite Ha. simpl. rewrite He. simpl.
    by rewrite (broadcast2_error _ _ _ _ He).
  - destruct (combine_entry neg (dict_get k0 F) (Some v)) as [[w|]|e'] eqn:Ew; simpl.
    + apply (IH _ k a b e); try done. by rewrite dict_get_set_ne.
    + exfalso. destruct (dict_get k0 F) as [x|]; simpl in Ew;
        [destruct (broadcast2 _ x v)|]; done.
    + destruct (dict_get k0 F) as [x|]; simpl in Ew; [|by destruct neg].
      destruct (broadcast2 _ x v) eqn:Eb; [done|]. injection Ew as <-.
      by rewrite (broadcast2_error _ _ _ _ Eb).
Qed.

Lemma scaled_entries_resolve h h' A A' :
  resolve h (_storage A) = resolve h' (_storage A') -> scale A = scale A' ->
  scaled_entries h A = scaled_entries h' A'.
Proof. unfold scaled_entries. by intros -> ->. Qed.

Lemma scaled_entries_keys h A : dict_keys (scaled_entries h A) = dict_keys (_storage A).
Proof.
  unfold scaled_entries. destruct (_ <? _)%float.
  - apply resolve_keys.
  - unfold dict_keys. rewrite map_map. simpl. apply resolve_keys.
Qed.

Lemma fold_and_merge_spec neg h f d :
  locs_valid h (_storage f) -> locs_valid h (_storage d) ->
  NoDup (dict_keys (_storage f)) -> NoDup (dict_keys (_storage d)) ->
  match merge_pure neg (scaled_entries h d) (scaled_entries h f) with
  | Ok D => exists f' d' t,
      fold_and_merge neg f d h = Ok ((f', d'), h ++ t) /\
      resolve (h ++ t) (_storage f') = D /\
      shape f' = shape f /\ scale f' = folded_scale (scale f) /\ cls f' = cls f /\
      resolve (h ++ t) (_storage d') = scaled_entries h d /\
      shape d' = shape d /\ scale d' = folded_scale (scale d) /\ cls d' = cls d
  | Raise e => fold_and_merge neg f d h = Raise e
  end.
Proof.
  intros Hf Hd Hnf Hnd. unfold fold_and_merge, bind.
  destruct (incorporate_scale_resolve h f Hf Hnf) as (f1 & t1 & E1 & R1 & S1 & Sh1 & C1 & L1).
  rewrite E1.
  destruct (incorporate_scale_resolve (h ++ t1) d (locs_valid_app _ _ _ Hd) Hnd)
    as (d1 & t2 & E2 & R2 & S2 & Sh2 & C2 & L2).
  rewrite E2.
  rewrite (scaled_entries_resolve (h ++ t1) h d d (resolve_app _ _ _ Hd) eq_refl) in R2.
  pose proof (merge_items_resolve neg (_storage d1) (_storage f1) ((h ++ t1) ++ t2) L2
                (locs_valid_app _ _ _ L1)) as Hm.
  rewrite R2, (resolve_app _ t2 _ L1), R1 in Hm.
  destruct (merge_pure _ _ _) as [D|e].
  - destruct Hm as (fs & t3 & E3 & R3 & L3). rewrite E3.
    exists (set_storage f1 fs), d1, (t1 ++ t2 ++ t3). rewrite !app_assoc.
    simpl. repeat split; try done.
    by rewrite (resolve_app _ t3 _ L2).
  - by rewrite Hm.
Qed.

Lemma combine_fold_and_merge neg A d h :
  combine neg A d h =
  (let* c := deepcopy_dict A in
   fold_and_merge neg (SparseMatrix_new c (shape A) (scale A)) d) h.
Proof. reflexivity. Qed.

(** The result of [self + d] or [self - d] in the general branch, from the
    merge of the entries. *)
Lemma combine_spec neg h A d :
  locs_valid h (_storage A) -> locs_valid h (_storage d) ->
  NoDup (dict_keys (_storage A)) -> NoDup (dict_keys (_storage d)) ->
  match merge_pure neg (scaled_entries h d) (scaled_entries h A) with
  | Ok D => exists f d' t,
      combine neg A d h = Ok ((f, d'), h ++ t) /\
      resolve (h ++ t) (_storage f) = D /\
      shape f = shape A /\ scale f = folded_scale (scale A) /\
      resolve (h ++ t) (_storage d') = scaled_entries h d /\
      shape d' = shape d /\ scale d' = folded_scale (scale d) /\ cls d' = cls d
  | Raise e => combine neg A d h = Raise e
  end.
Proof.
  intros HA Hd HnA Hnd. rewrite combine_fold_and_merge. unfold bind.
  destruct (deepcopy_dict_spec h A HA) as (c & t & E & Hr & Hk & Hl & _). rewrite E.
  pose proof (fold_and_merge_spec neg (h ++ t) (SparseMatrix_new c (shape A) (scale A)) d
                Hl (locs_valid_app _ _ _ Hd) ltac:(simpl; by rewrite Hk) Hnd) as Hm.
  rewrite (scaled_entries_resolve (h ++ t) h d d (resolve_app _ _ _ Hd) eq_refl) in Hm.
  rewrite (scaled_entries_resolve (h ++ t) h (SparseMatrix_new c (shape A) (scale A)) A
             Hr eq_refl) in Hm.
  destruct (merge_pure _ _ _) as [D|e]; [|done].
  destruct Hm as (f & d' & t' & Em & H1 & H2 & H3 & _ & H5 & H6 & H7 & H8).
  exists f, d', (t ++ t'). rewrite app_assoc. done.
Qed.

(** X5: the sum [A + d] and the difference [A - d] of matrices whose scales
    are not below 1e-15, offset by offset.  When the diagonals at every
    common offset can be broadcast together, the call returns; the result
    has the shape of [A], the offsets of [A] followed by the new offsets of
    [d], and at each offset the entrywise sum (difference) of the scaled
    diagonals of the operands, a diagonal of only one operand being taken
    as it is (negated for [d] in a difference).  The call folds the scale
    of [d] into the diagonals of [d]; the arrays of [A] keep their
    contents.  When the diagonals at some common offset cannot be
    broadcast, the call raises [ValueError]. *)
Theorem add_sub_entries (neg : bool) h A d :
  locs_valid h (_storage A) -> locs_valid h (_storage d) ->
  NoDup (dict_keys (_storage A)) -> NoDup (dict_keys (_storage d)) ->
  not_tiny (scale A) -> not_tiny (scale d) ->
  let op := if neg then __sub__ else __add__ in
  let fop := if neg then PrimFloat.sub else PrimFloat.add in
  let eA := scaled_entries h A in
  let ed := scaled_entries h d in
  ((forall k a b, dict_get k eA = Some a -> dict_get k ed = Some b ->
      exists c, broadcast2 fop a b = Ok c) ->
   exists f d' t,
     op A d h = Ok ((f, d'), h ++ t) /\
     shape f = shape A /\ scale f = folded_scale (scale A) /\
     dict_keys (_storage f) =
       dict_keys (_storage A) ++
       filter (fun k => k ∉ dict_keys (_storage A)) (dict_keys (_storage d)) /\
     (forall k, combine_entry neg (dict_get k eA) (dict_get k ed) =
                Ok (dict_get k (resolve (h ++ t) (_storage f)))) /\
     resolve (h ++ t) (_storage d') = ed /\ scale d' = folded_scale (scale d) /\
     resolve (h ++ t) (_storage A) = resolve h (_storage A)) /\
  (forall k a b e, dict_get k eA = Some a -> dict_get k ed = Some b ->
     broadcast2 fop a b = Raise e -> op A d h = Raise ValueError).
Proof.
  intros HA Hd HnA Hnd HtA Htd op fop eA ed.
  assert (Hop : op A d = combine neg A d).
  { subst op. destruct neg; [by apply sub_general | by apply add_general]. }
  rewrite Hop. pose proof (combine_spec neg h A d HA Hd HnA Hnd) as Hm.
  fold eA in Hm. fold ed in Hm.
  assert (Hned : NoDup (dict_keys ed)) by (subst ed; by rewrite scaled_entries_keys).
  split.
  - intros Hb. destruct (merge_pure_spec neg ed eA Hned Hb) as (D & ED & HK & HG).
    rewrite ED in Hm. destruct Hm as (f & d' & t & E & H1 & H2 & H3 & H4 & H5 & H6 & H7).
    exists f, d', t. split; [done|]. split; [done|]. split; [done|]. split.
    { rewrite <- (resolve_keys (h ++ t)), H1, HK. subst eA ed.
      by rewrite !scaled_entries_keys. }
    split; [by rewrite H1|]. split; [done|]. split; [done|]. by apply resolve_app.
  - intros k a b e Ha Hb He.
    by rewrite (merge_pure_fail neg ed eA k a b e Hned Ha Hb He) in Hm.
Qed.

(** X6: the in-place operations [A += d] and [A -= d] agree with [A + d] and
    [A - d] for matrices of one shape whose scales are not below 1e-15: one
    raises exactly when the other does, with the same exception, and
    otherwise [A] is left with the shape, the scale and diagonals of the
    same entries as the sum (difference), and [d] is left in the same
    state by both; the in-place operation keeps the class of [A]. *)
Theorem inplace_agrees (neg : bool) h A d :
  locs_valid h (_storage A) -> locs_valid h (_storage d) ->
  NoDup (dict_keys (_storage A)) -> NoDup (dict_keys (_storage d)) ->
  shape d = shape A -> not_tiny (scale A) -> not_tiny (scale d) ->
  let op := if neg then __sub__ else __add__ in
  let iop := if neg then __isub__ else __iadd__ in
  match op A d h, iop A d h with
  | Ok ((f, d1), h1), Ok ((A', d2), h2) =>
      resolve h2 (_storage A') = resolve h1 (_storage f) /\
      shape A' = shape f /\ scale A' = scale f /\ cls A' = cls A /\
      resolve h2 (_storage d2) = resolve h1 (_storage d1) /\
      shape d2 = shape d1 /\ scale d2 = scale d1 /\ cls d2 = cls d1
  | Raise e1, Raise e2 => e1 = e2
  | _, _ => False
  end.
Proof.
  intros HA Hd HnA Hnd Hsh HtA Htd op iop.
  assert (Hop : op A d = combine neg A d).
  { subst op. destruct neg; [by apply sub_general | by apply add_general]. }
  assert (Hiop : iop A d = fold_and_merge neg A d).
  { subst iop. destruct neg; unfold __isub__, __iadd__;
      rewrite Hsh, shape_eqb_refl, (not_tiny_16 _ HtA), (not_tiny_16 _ Htd); done. }
  rewrite Hop, Hiop.
  pose proof (combine_spec neg h A d HA Hd HnA Hnd) as H1.
  pose proof (fold_and_merge_spec neg h A d HA Hd HnA Hnd) as H2.
  destruct (merge_pure _ _ _) as [D|e].
  - destruct H1 as (f & d1 & t1 & E1 & R1 & ? & ? & ? & ? & ? & ?).
    destruct H2 as (A' & d2 & t2 & E2 & R2 & ? & ? & ? & ? & ? & ? & ?).
    rewrite E1, E2. repeat split; congruence.
  - by rewrite H1, H2.
Qed.

Lemma shape_eqb_eq a b : shape_eqb a b = true <-> a = b.
Proof.
  unfold shape_eqb. destruct a as [a1 a2], b as [b1 b2]. simpl.
  rewrite andb_true_iff, !Nat.eqb_eq. split; [by intros [-> ->] | by intros [= -> ->]].
Qed.

Lemma store_items_app todo : forall pre,
  NoDup (dict_keys (pre ++ todo)) -> store_items todo pre = pre ++ todo.
Proof.
  induction todo as [|[k v] todo IH]; intros pre Hnd; simpl; [by rewrite app_nil_r|].
  assert (Hk : dict_get k pre = None).
  { apply dict_get_keys. unfold dict_keys in Hnd. rewrite map_app in Hnd.
    apply NoDup_app in Hnd as (_ & H & _). intros Hin. apply (H k Hin). by left. }
  assert (Hset : dict_set k v pre = pre ++ [(k, v)]).
  { clear -Hk. induction pre as [|[a b] pre IHp]; simpl in *; [done|].
    destruct (k =? a); [done|]. by rewrite IHp. }
  rewrite Hset, IH; rewrite <- app_assoc; done.
Qed.

(** X7: the guards of the in-place operations [A += d] and [A -= d].
    Operands of different shapes raise [AssertionError].  With
    [|d.scale| < 1e-16] nothing changes.  Otherwise, with
    [|A.scale| < 1e-16], [A] drops its diagonals and takes those of [d], the
    very same values and arrays, not negated, with the scale of [d] (its
    negation for [-=]); [d] and the arrays do not change. *)
Theorem inplace_guards (neg : bool) h A d :
  let iop := if neg then __isub__ else __iadd__ in
  (shape d <> shape A -> iop A d h = Raise AssertionError) /\
  (shape d = shape A -> (abs (scale d) <? 1e-16)%float = true ->
     iop A d h = Ok ((A, d), h)) /\
  (shape d = shape A -> (abs (scale d) <? 1e-16)%float = false ->
   (abs (scale A) <? 1e-16)%float = true -> NoDup (dict_keys (_storage d)) ->
     iop A d h =
       Ok ((mkSparseMatrix (_storage d) (shape A)
              (if neg then (- scale d)%float else scale d) (cls A), d), h)).
Proof.
  intros iop. subst iop. split; [|split].
  - intros Hne. assert (E : shape_eqb (shape d) (shape A) = false).
    { destruct (shape_eqb _ _) eqn:E; [|done]. by apply shape_eqb_eq in E. }
    destruct neg; unfold __isub__, __iadd__; by rewrite E.
  - intros Hsh Hd. destruct neg; unfold __isub__, __iadd__;
      by rewrite Hsh, shape_eqb_refl, Hd.
  - intros Hsh Hd HA Hnd. destruct neg; unfold __isub__, __iadd__;
      rewrite Hsh, shape_eqb_refl, Hd, HA; simpl;
      by rewrite (store_items_app _ [] Hnd).
Qed.

(** ** Simplification in place *)

Lemma sorted_nodup_lt (l : list nat) :
  StronglySorted le l -> NoDup l -> StronglySorted lt l.
Proof.
  induction 1 as [|x l Hs IH Hx]; intros Hnd; [constructor|].
  apply NoDup_cons in Hnd as [Hin Hnd]. constructor; [by apply IH|].
  apply Forall_forall. intros y Hy.
  pose proof (proj1 (Forall_forall _ _) Hx y Hy).
  assert (x <> y) by (by intros ->). lia.
Qed.

Lemma setxor1d_sorted a b : StronglySorted lt (setxor1d a b).
Proof.
  unfold setxor1d. apply sorted_nodup_lt.
  - apply (Sorted_StronglySorted le).
    apply (@Sorted_merge_sort nat le _ ltac:(intros x y; lia)).
  - rewrite merge_sort_Permutation. apply NoDup_remove_dups.
Qed.

Lemma setxor1d_elem a b x :
  x ∈ setxor1d a b <-> (x ∈ a /\ x ∉ b) \/ (x ∈ b /\ x ∉ a).
Proof.
  unfold setxor1d. rewrite merge_sort_Permutation, elem_of_remove_dups, elem_of_app.
  by rewrite !list_elem_of_filter, (and_comm (x ∉ b)), (and_comm (x ∉ a)).
Qed.

Lemma filter_le_in (axis : nat) (l : list nat) :
  StronglySorted lt l -> axis ∈ l ->
  filter (fun x => axis <= x)%nat l = axis :: filter (fun x => S axis <= x)%nat l.
Proof.
  induction 1 as [|x l Hs IH Hx]; intros Hin; [by apply elem_of_nil in Hin|].
  rewrite !filter_cons.
  destruct (decide (x = axis)) as [->|Hne].
  - rewrite decide_True by lia. rewrite decide_False by lia. f_equal.
    apply filter_ext_in. intros y Hy.
    pose proof (proj1 (Forall_forall _ _) Hx y Hy). lia.
  - apply elem_of_cons in Hin as [->|Hin]; [done|].
    pose proof (proj1 (Forall_forall _ _) Hx axis Hin).
    rewrite !decide_False by lia. by apply IH.
Qed.

Lemma filter_le_notin (axis : nat) (l : list nat) :
  axis ∉ l ->
  filter (fun x => axis <= x)%nat l = filter (fun x => S axis <= x)%nat l.
Proof.
  intros Hn. apply filter_ext_in. intros y Hy.
  assert (y <> axis) by (by intros ->). lia.
Qed.

Lemma simplify_loops_agree h T dax todo : forall axis done sc,
  length done = axis ->
  length (done ++ todo) <> 1%nat ->
  Forall (fun a => a < length (done ++ todo))%nat dax ->
  StronglySorted lt dax ->
  simplify_inplace_loop h
    (mkTPMatrix (done ++ todo) (space T) (trialspace T) sc (pmat T) (naxes T)
                (global_index T) (_issimplified T))
    (filter (fun x => axis <= x)%nat dax) =
  let+ p := simplify_loop h T dax axis todo sc in
  Ok (mkTPMatrix (done ++ fst p) (space T) (trialspace T) (snd p) (pmat T) (naxes T)
                 (global_index T) (_issimplified T)).
Proof.
  induction todo as [|m r IH]; intros axis done sc Hlen Hne Hb Hs.
  - simpl. rewrite app_nil_r in *.
    replace (filter (fun x => axis <= x)%nat dax) with (@nil nat); [done|].
    symmetry. induction Hb as [|x l Hx _ IHb]; [done|].
    rewrite filter_cons, decide_False by lia. apply IHb.
    by apply StronglySorted_inv in Hs as [? _].
  - simpl. unfold simplify_axis.
    assert (Hm : (done ++ m :: r) !! axis = Some m).
    { rewrite <- Hlen. by rewrite list_lookup_middle. }
    assert (Hins : forall x, <[axis := x]> (done ++ m :: r) = (done ++ [x]) ++ r).
    { intros x. rewrite <- Hlen, <- (Nat.add_0_r (length done)), insert_app_r.
      simpl. by rewrite <- app_assoc. }
    destruct (bool_decide_reflect (axis ∈ dax)) as [Hin|Hnin].
    + rewrite (filter_le_in axis dax Hs Hin). simpl.
      unfold simplify_inplace_axis. simpl. rewrite Hm.
      destruct (Nat.eqb_spec (length (done ++ m :: r)) 1) as [E|_]; [done|].
      destruct (__getitem__ m 0) as [d|e]; [simpl|done].
      destruct (match d with
                | Scalar x => nd_mul sc (Leaf x)
                | Arr l => _
                end) as [sc'|e]; [simpl|done].
      rewrite Hins.
      rewrite (IH (S axis) (done ++ [Identity (shape m) 1%float]) sc').
      * destruct (simplify_loop h T dax (S axis) r sc') as [[ms sc2]|e]; [simpl|done].
        by rewrite <- app_assoc.
      * rewrite length_app. simpl. lia.
      * rewrite !length_app in *. simpl in *. lia.
      * eapply Forall_impl; [exact Hb|]. intros a Ha.
        rewrite !length_app in *. simpl in *. lia.
      * done.
    + rewrite (filter_le_notin axis dax Hnin). simpl.
      rewrite (cons_middle m done r), app_assoc.
      rewrite (IH (S axis) (done ++ [m]) sc).
      * destruct (simplify_loop h T dax (S axis) r sc) as [[ms sc2]|e]; [simpl|done].
        by rewrite <- !app_assoc.
      * rewrite length_app. simpl. lia.
      * rewrite !length_app in *. simpl in *. lia.
      * eapply Forall_impl; [exact Hb|]. intros a Ha.
        rewrite !length_app in *. simpl in *. lia.
      * done.
Qed.

Lemma simplify_loop_length h T dax ms : forall axis sc p,
  simplify_loop h T dax axis ms sc = Ok p -> length (fst p) = length ms.
Proof.
  intros axis sc [ms' sc'] E. apply simplify_loop_spec in E as [-> _].
  simpl. by rewrite length_imap.
Qed.

(** X8: [simplify_diagonal_matrices], which simplifies a TPMatrix in place,
    and [get_simplified], which returns a simplified TPMatrix.  For a
    TPMatrix as its constructor builds it, on a space whose non-diagonal
    axes are axes of the space and which has not exactly one axis, the
    in-place method leaves [self] equal to what [get_simplified] returns,
    and raises what it raises.  On a space with one axis, which is
    diagonal, the in-place method changes nothing but the flag
    [_issimplified]: the diagonal matrix is not folded into the scale, and
    [get_simplified] then returns that TPMatrix as it is. *)
Theorem simplify_inplace_agrees h ms sp tsp s gi T :
  TPMatrix_new ms sp tsp s gi = Ok T ->
  Forall (fun a => a < dimensions sp)%nat (get_nondiagonal_axes sp) ->
  (dimensions sp <> 1%nat -> simplify_diagonal_matrices h T = get_simplified h T) /\
  (dimensions sp = 1%nat -> get_nondiagonal_axes sp = [] ->
     let T' := mkTPMatrix ms sp tsp s PmatInt [] gi true in
     simplify_diagonal_matrices h T = Ok T' /\ get_simplified h T' = Ok T').
Proof.
  unfold TPMatrix_new.
  destruct (Nat.eqb_spec (length ms) (dimensions sp)) as [Hlen|]; [simpl|done].
  intros [= <-] Hax. split.
  - intros Hd. unfold simplify_diagonal_matrices, get_simplified. simpl.
    rewrite orb_false_r.
    set (T := mkTPMatrix ms sp tsp s PmatInt (get_nondiagonal_axes sp) gi false).
    destruct (Nat.eqb (length (diagonal_axes_of T)) 0); [done|].
    pose proof (simplify_loops_agree h T (diagonal_axes_of T) ms 0 [] s eq_refl) as Hl.
    simpl in Hl.
    replace (filter (fun x => 0 <= x)%nat (diagonal_axes_of T))
      with (diagonal_axes_of T) in Hl.
    2:{ symmetry. clear. induction (diagonal_axes_of T) as [|x l IH]; [done|].
        rewrite filter_cons, decide_True by lia. by rewrite IH. }
    fold T in Hl. rewrite Hl; [|lia| |apply setxor1d_sorted].
    2:{ apply Forall_forall. intros x Hx. unfold diagonal_axes_of in Hx. simpl in Hx.
        apply setxor1d_elem in Hx as [[Hx _]|[Hx _]].
        - rewrite Hlen. by apply (proj1 (Forall_forall _ _) Hax).
        - apply elem_of_seq in Hx. lia. }
    destruct (simplify_loop h T (diagonal_axes_of T) 0 ms s) as [p|e] eqn:Ep; [simpl|done].
    unfold TPMatrix_new.
    rewrite (simplify_loop_length _ _ _ _ _ _ _ Ep), Hlen, Nat.eqb_refl. simpl. done.
  - intros Hd Hn. rewrite Hn in *. rewrite Hd in *.
    destruct ms as [|m [|m' ms]]; try done.
    split; [|unfold get_simplified; simpl; by rewrite orb_true_r].
    unfold simplify_diagonal_matrices, diagonal_axes_of. simpl. rewrite Hd.
    replace (setxor1d [] (seq 0 1)) with [0%nat] by (by vm_compute).
    simpl. by rewrite Hd.
Qed.

(** ** Construction of block matrices *)

Lemma merge_equal_global_index h a B : forall q,
  merge_equal h a B = Ok q ->
  map global_index (fst q) = map global_index B.
Proof.
  induction B as [|b B IH]; simpl; intros q.
  - by intros [= <-].
  - destruct (TPMatrix___eq__ h a b) as [[]|e]; [simpl| simpl |done].
    + unfold TPMatrix___iadd__.
      destruct (TPMatrix___eq__ h b a) as [[]|e]; simpl; try done.
      destruct (nd_add _ _) as [s|e]; [simpl|done].
      destruct (merge_equal h a B) as [q'|e]; [simpl|done].
      intros [= <-]. simpl. by rewrite (IH _ eq_refl).
    + destruct (merge_equal h a B) as [q'|e]; [simpl|done].
      intros [= <-]. simpl. by rewrite (IH _ eq_refl).
Qed.

Lemma py_item_index_lt n k i : py_item_index n k = Some i -> (i < n)%nat.
Proof.
  unfold py_item_index.
  destruct (Z.leb_spec 0 k), (Z.ltb_spec k (Z.of_nat n)); simpl; try (intros [= <-]; lia).
  all: destruct (Z.ltb_spec k 0), (Z.leb_spec (- Z.of_nat n) k); simpl;
    try done; intros [= <-]; lia.
Qed.

Lemma py_item_index_outside n k :
  k < - Z.of_nat n \/ Z.of_nat n <= k -> py_item_index n k = None.
Proof.
  intros H. unfold py_item_index.
  destruct (Z.leb_spec 0 k), (Z.ltb_spec k (Z.of_nat n)); simpl; try lia.
  all: destruct (Z.ltb_spec k 0), (Z.leb_spec (- Z.of_nat n) k); simpl; try done; lia.
Qed.

Lemma add_term_inv h rows m rows' r c :
  add_term h rows m = Ok rows' ->
  grid r c rows -> placed rows -> grid r c rows' /\ placed rows'.
Proof.
  unfold add_term. destruct (global_index m) as [[gi gj]|] eqn:Eg; [|done].
  destruct (py_item_index (length rows) gi) as [i|] eqn:Egi; [|done].
  destruct (rows !! i) as [row|] eqn:Ei; [|done].
  destruct (py_item_index (length row) gj) as [j|] eqn:Egj; [|done].
  destruct (row !! j) as [cij|] eqn:Ej; [|done].
  intros H [Hr Hc] Hp.
  assert (Hgen : forall L, L <> [] -> at_position (length rows) (length row) i j L ->
            rows' = <[i := <[j := CellList L]> row]> rows -> grid r c rows' /\ placed rows').
  { intros L HL HF ->. split.
    - split; [by rewrite length_insert|].
      apply Forall_insert; [done|]. rewrite length_insert.
      by apply (Forall_lookup_1 _ _ _ _ Hc Ei).
    - intros i' j' row' l' Hi' Hj'. rewrite length_insert.
      apply list_lookup_insert_Some in Hi' as [(<- & <- & _)|(Hne & Hi')].
      + rewrite length_insert.
        apply list_lookup_insert_Some in Hj' as [(<- & [= <-] & _)|(Hne & Hj')].
        * split; [done|]. intros x Hx.
          apply (proj1 (Forall_forall _ _) HF). by apply list_elem_of_fmap_2.
        * by apply (Hp i j' row).
      + by apply (Hp i' j' row'). }
  destruct cij as [n|m0].
  - injection H as <-. apply (Hgen [m]); [done| |done].
    constructor; [|constructor]. by exists gi, gj.
  - destruct (merge_equal h m m0) as [q|e] eqn:Em; [simpl in H|done]. injection H as <-.
    destruct (Hp i j row m0 Ei Ej) as [Hne Hall].
    pose proof (merge_equal_global_index h m m0 q Em) as Hmap.
    assert (Hq : at_position (length rows) (length row) i j (fst q)).
    { unfold at_position. rewrite Hmap. apply Forall_fmap, Forall_forall.
      intros x Hx. by apply Hall. }
    apply (Hgen (if snd q then fst q else fst q ++ [m])); [| |done].
    + destruct (snd q).
      * intros E. rewrite E in Hmap. by destruct m0.
      * by destruct (fst q).
    + destruct (snd q); [done|]. unfold at_position. rewrite map_app.
      apply Forall_app. split; [done|]. constructor; [|constructor]. by exists gi, gj.
Qed.

Lemma add_term_list_inv h tpmats : forall rows rows' r c,
  add_term_list h rows tpmats = Ok rows' ->
  grid r c rows -> placed rows -> grid r c rows' /\ placed rows'.
Proof.
  induction tpmats as [|m tp IH]; simpl; intros rows rows' r c.
  - by intros [= <-].
  - destruct (add_term h rows m) as [rows1|e] eqn:E; [simpl|done].
    intros H Hg Hp. destruct (add_term_inv _ _ _ _ _ _ E Hg Hp) as [Hg1 Hp1].
    by apply (IH _ _ _ _ H).
Qed.


(** ** Boundary and regular matrices *)

Lemma existsb_flat_map {A B} (p : B -> bool) (f : A -> list B) (l : list A) :
  existsb p (flat_map f l) = existsb (fun x => existsb p (f x)) l.
Proof.
  induction l as [|x l IH]; simpl; [done|]. by rewrite existsb_app, IH.
Qed.

Lemma existsb_ext_eq {A} (p q : A -> bool) (l : list A) :
  (forall x, p x = q x) -> existsb p l = existsb q l.
Proof. intros H. induction l as [|x l IH]; simpl; [done|]. by rewrite H, IH. Qed.

Lemma cell_exists_mats p c : cell_exists p c = existsb p (cell_mats c).
Proof. by destruct c. Qed.

Lemma existsb_elem {A} (p : A -> bool) (l : list A) :
  existsb p l = true <-> exists x, x ∈ l /\ p x = true.
Proof.
  rewrite existsb_exists. split; intros (x & Hx & Hp); exists x;
    (split; [by apply list_elem_of_In | done]).
Qed.

(** X10: the two tests of a block matrix and [get_mats].  The block matrix
    contains a boundary (regular) matrix exactly when one of the matrices
    that [get_mats] lists is one, so [diags] raises [RuntimeError] exactly
    when [get_mats] lists a boundary matrix and a regular one; a block
    matrix without matrices passes neither test. *)
Theorem contains_by_get_mats B :
  contains_bc_matrix B = existsb TPMatrix_is_bc_matrix (get_mats B) /\
  contains_regular_matrix B =
    existsb (fun m => negb (TPMatrix_is_bc_matrix m)) (get_mats B) /\
  (get_mats B = [] -> contains_bc_matrix B = false /\ contains_regular_matrix B = false) /\
  (forall h it,
     BlockMatrix_diags h B it = Raise RuntimeError <->
     (exists m, m ∈ get_mats B /\ TPMatrix_is_bc_matrix m = true) /\
     (exists m, m ∈ get_mats B /\ TPMatrix_is_bc_matrix m = false)).
Proof.
  assert (H1 : contains_bc_matrix B = existsb TPMatrix_is_bc_matrix (get_mats B)).
  { unfold contains_bc_matrix, get_mats. rewrite existsb_flat_map.
    apply existsb_ext_eq. intros row. rewrite existsb_flat_map.
    apply existsb_ext_eq. intros c. apply cell_exists_mats. }
  assert (H2 : contains_regular_matrix B =
               existsb (fun m => negb (TPMatrix_is_bc_matrix m)) (get_mats B)).
  { unfold contains_regular_matrix, get_mats. rewrite existsb_flat_map.
    apply existsb_ext_eq. intros row. rewrite existsb_flat_map.
    apply existsb_ext_eq. intros c. apply cell_exists_mats. }
  split; [done|]. split; [done|]. split.
  - intros E. by rewrite H1, H2, E.
  - intros h it. unfold BlockMatrix_diags.
    destruct (contains_bc_matrix B && contains_regular_matrix B) eqn:E.
    + apply andb_true_iff in E as [E1 E2]. rewrite H1 in E1. rewrite H2 in E2.
      apply existsb_elem in E1, E2. split; [|done]. intros _. split; [done|].
      destruct E2 as (m & Hm & Hr). exists m. split; [done|]. by apply negb_true_iff.
    + split.
      * intros Hr. by apply assemble_blocks_not_runtime in Hr.
      * intros [Hb Hr]. exfalso.
        assert (E1 : contains_bc_matrix B = true) by (rewrite H1; by apply existsb_elem).
        assert (E2 : contains_regular_matrix B = true).
        { rewrite H2. apply existsb_elem. destruct Hr as (m & Hm & Hr). exists m.
          split; [done|]. by apply negb_true_iff. }
        by rewrite E1, E2 in E.
Qed.

Lemma remove_object_skip h b regs : forall r,
  (forall x, x ∈ regs -> fst x <> fst b /\ TPMatrix___eq__ h (snd x) (snd b) = Ok false) ->
  remove_object h b (regs ++ b :: r) = Ok (regs ++ r).
Proof.
  induction regs as [|x regs IH]; intros r H; simpl.
  - by rewrite Nat.eqb_refl.
  - destruct (H x ltac:(by left)) as [Hid Heq].
    destruct (Nat.eqb_spec (fst x) (fst b)); [done|]. rewrite Heq. simpl.
    rewrite IH; [done|]. intros y Hy. apply H. by right.
Qed.

Lemma extract_bc_loop_spec h a0 todo : forall regs bc,
  objects a0 -> bc_distinct h a0 ->
  (forall x, x ∈ regs ++ todo -> x ∈ a0) -> Forall is_regular regs ->
  extract_bc_loop h todo (regs ++ todo) bc =
  Ok (regs ++ filter is_regular todo, bc ++ filter is_bc todo).
Proof.
  induction todo as [|b r IH]; intros regs bc Ho Hd Hin Hreg; simpl.
  - by rewrite !app_nil_r.
  - rewrite !filter_cons.
    destruct (decide (is_regular b)) as [Hr|Hr], (decide (is_bc b)) as [Hb|Hb];
      unfold is_regular, is_bc in Hr, Hb; try congruence.
    + rewrite Hr. rewrite (cons_middle b regs r), app_assoc. rewrite IH; try done.
      * by rewrite <- !app_assoc.
      * intros x Hx. apply Hin. by rewrite (cons_middle b regs r), app_assoc.
      * apply Forall_app. split; [done|]. by constructor.
    + rewrite Hb. rewrite remove_object_skip.
      * simpl. rewrite IH; try done.
        -- by rewrite <- app_assoc.
        -- intros x Hx. apply Hin. apply elem_of_app in Hx as [Hx|Hx];
             apply elem_of_app; [by left | right; by right].
      * intros x Hx.
        assert (Hxr : is_regular x) by (by apply (proj1 (Forall_forall _ _) Hreg)).
        assert (Hxa : x ∈ a0) by (apply Hin, elem_of_app; by left).
        assert (Hba : b ∈ a0) by (apply Hin, elem_of_app; right; by left).
        split; [|by apply Hd].
        intros Hid. apply (Ho x b Hxa Hba) in Hid. subst x.
        unfold is_regular in Hxr. congruence.
    + by destruct (TPMatrix_is_bc_matrix (snd b)).
Qed.

Lemma extract_bc_lists_spec h mats : forall bc,
  Forall objects mats -> Forall (bc_distinct h) mats ->
  extract_bc_lists h mats bc =
  Ok (map (filter is_regular) mats, bc ++ concat (map (filter is_bc) mats)).
Proof.
  induction mats as [|a mats IH]; intros bc Ho Hd; simpl.
  - by rewrite app_nil_r.
  - apply Forall_cons in Ho as [Ho Hos]. apply Forall_cons in Hd as [Hd Hds].
    pose proof (extract_bc_loop_spec h a a [] bc Ho Hd ltac:(done) ltac:(constructor)) as E.
    simpl in E. rewrite E. simpl.
    rewrite IH by done. simpl. by rewrite app_assoc.
Qed.

(** X11: [extract_bc_matrices] splits every list into its regular and its
    boundary matrices.  For lists in which a regular matrix never compares
    equal to a boundary matrix (so that [remove] takes the boundary matrix
    itself out), every list is left with its regular matrices in their
    order, and the returned list holds the boundary matrices of all lists
    in their order. *)
Theorem extract_bc_matrices_partition h mats :
  Forall objects mats -> Forall (bc_distinct h) mats ->
  extract_bc_matrices h mats =
  Ok (map (filter is_regular) mats, concat (map (filter is_bc) mats)).
Proof. intros Ho Hd. unfold extract_bc_matrices. by rewrite extract_bc_lists_spec. Qed.

Lemma filter_all {A} (P : A -> Prop) `{!forall x, Decision (P x)} (l : list A) :
  Forall P l -> filter P l = l.
Proof.
  induction 1 as [|x l Hx _ IH]; [done|]. by rewrite filter_cons_True, IH.
Qed.

Lemma filter_none {A} (P : A -> Prop) `{!forall x, Decision (P x)} (l : list A) :
  Forall (fun x => ~ P x) l -> filter P l = [].
Proof.
  induction 1 as [|x l Hx _ IH]; [done|]. by rewrite filter_cons_False.
Qed.

Lemma extract_bc_loop_all_bc h todo : forall bc,
  Forall is_bc todo -> extract_bc_loop h todo todo bc = Ok ([], bc ++ todo).
Proof.
  induction todo as [|b r IH]; intros bc Hb; simpl; [by rewrite app_nil_r|].
  apply Forall_cons in Hb as [Hb Hr]. unfold is_bc in Hb. rewrite Hb, Nat.eqb_refl. simpl.
  rewrite IH by done. by rewrite <- app_assoc.
Qed.

Lemma extract_bc_loop_no_bc h todo : forall a bc,
  Forall is_regular todo -> extract_bc_loop h todo a bc = Ok (a, bc).
Proof.
  induction todo as [|b r IH]; intros a bc Hb; simpl; [done|].
  apply Forall_cons in Hb as [Hb Hr]. unfold is_regular in Hb. rewrite Hb. by apply IH.
Qed.

(** X12: [BlockMatrices] needs matrices of both kinds.  A list without a
    boundary matrix fails the assertion ([AssertionError]); a list, not
    empty, of boundary matrices only leaves no regular matrix for the
    first block matrix, whose constructor raises [IndexError]. *)
Theorem BlockMatrices_one_kind base_of h tpmats :
  (Forall is_regular tpmats -> BlockMatrices base_of h tpmats = Raise AssertionError) /\
  (tpmats <> [] -> Forall is_bc tpmats ->
     BlockMatrices base_of h tpmats = Raise IndexError).
Proof.
  unfold BlockMatrices, extract_bc_matrices. simpl. split.
  - intros Hr. by rewrite extract_bc_loop_no_bc.
  - intros Hne Hb. rewrite extract_bc_loop_all_bc by done. simpl.
    by destruct tpmats.
Qed.

(** ** Copies of a TPMatrix *)

Lemma copy_of_rebase h h1 h' cs ms :
  Forall2 (copy_of h1 h') cs ms ->
  Forall (fun m => resolve h1 (_storage m) = resolve h (_storage m)) ms ->
  Forall2 (copy_of h h') cs ms.
Proof.
  induction 1 as [|c m cs ms (H1 & H2 & H3 & H4 & H5) _ IH]; intros HF; [constructor|].
  apply Forall_cons in HF as [Hm HF]. constructor; [|by apply IH].
  repeat split; try done. by rewrite H5.
Qed.

Lemma copy_mats_spec ms : forall h,
  Forall (fun m => locs_valid h (_storage m)) ms ->
  exists cs t,
    copy_mats ms h = Ok (cs, h ++ t) /\
    Forall2 copy_kind cs ms /\
    (Forall class_inv ms -> Forall2 (copy_of h (h ++ t)) cs ms).
Proof.
  induction ms as [|m ms IH]; intros h Hms; simpl.
  - exists [], []. rewrite app_nil_r. split; [done|]. split; constructor.
  - apply Forall_cons in Hms as [Hv Hms].
    destruct (copy_total h m Hv) as (c & t1 & E1 & Hs & Hsc & Hcl & Hl & _ & Hinv & _).
    unfold bind. rewrite E1.
    destruct (IH (h ++ t1)) as (cs & t2 & E2 & HK & HF).
    { eapply Forall_impl; [exact Hms|]. intros x Hx. by apply locs_valid_app. }
    rewrite E2. exists (c :: cs), (t1 ++ t2). rewrite app_assoc. split; [done|].
    split; [by constructor|].
    intros [Hc Hcs]%Forall_cons. destruct (Hinv Hc) as [Hr Hk]. constructor.
    + repeat split; try done. by rewrite resolve_app.
    + apply (copy_of_rebase h (h ++ t1)); [by apply HF|].
      eapply Forall_impl; [exact Hms|]. intros x Hx. by apply resolve_app.
Qed.

Lemma mats_eq_copies h h' cs ms :
  Forall2 (copy_of h h') cs ms ->
  Forall (fun m => resolve h' (_storage m) = resolve h (_storage m)) ms ->
  Forall (fun m => is_spectral m = false -> finite_data h m) ms ->
  Forall mat_named ms ->
  mats_eq h' cs ms = Ok (forallb (fun m => negb (is_spectral m)) ms).
Proof.
  induction 1 as [|c m cs ms (H1 & H2 & H3 & H4 & H5) _ IH]; intros Hr Hf Hn; [done|].
  apply Forall_cons in Hr as [Hrm Hr]. apply Forall_cons in Hf as [Hfm Hf].
  apply Forall_cons in Hn as [Hnm Hn]. simpl.
  destruct (is_spectral m) eqn:Es; simpl.
  - assert (Ek : get_key c = KFrozenset (dict_keys (_storage c))).
    { unfold get_key, __hash__. rewrite H3. unfold is_spectral in Es.
      by destruct (cls m). }
    rewrite Ek. unfold get_key. unfold is_spectral in Es.
    destruct (cls m) as [| |name tb rb] eqn:Ec; try done.
    by rewrite (Hnm name tb rb Ec).
  - assert (Ek : pykey_eqb (get_key c) (get_key m) = true).
    { unfold get_key, __hash__. rewrite H3. unfold is_spectral in Es.
      destruct (cls m); try done; simpl; by rewrite H4, Z.eqb_refl. }
    rewrite Ek. simpl.
    rewrite (py_eq_copy_like h h' c m Es H3 H1 H4 H5 Hrm (Hfm eq_refl)). simpl.
    by apply IH.
Qed.


(** ** The product with a vector, format 'python' *)

Lemma segment_update (c x : list float) (s L i : nat) :
  length x = L -> (s + L <= length c)%nat ->
  (take s c ++ zip_with PrimFloat.add (take L (drop s c)) x ++ drop (s + L) c) !! i =
  (fun ci => match (if decide (s <= i)%nat then x !! (i - s)%nat else None) with
             | Some t => (ci + t)%float
             | None => ci
             end) <$> c !! i.
Proof.
  intros Hx Hc.
  assert (Hts : length (take s c) = s) by (rewrite length_take; lia).
  assert (Hseg : length (take L (drop s c)) = L).
  { rewrite length_take, length_drop. lia. }
  assert (Hz : length (zip_with PrimFloat.add (take L (drop s c)) x) = L).
  { rewrite length_zip_with. lia. }
  destruct (decide (s <= i)%nat) as [Hsi|Hsi].
  - rewrite lookup_app_r by lia. rewrite Hts.
    destruct (decide (i - s < L)%nat) as [Hl|Hl].
    + rewrite lookup_app_l by lia. rewrite lookup_zip_with.
      rewrite lookup_take_lt by lia. rewrite lookup_drop.
      replace (s + (i - s))%nat with i by lia.
      destruct (c !! i) as [ci|] eqn:Ec; simpl; [|done].
      destruct (x !! (i - s)%nat) as [t|] eqn:Et; simpl; [done|].
      apply lookup_ge_None in Et. lia.
    + rewrite lookup_app_r by lia. rewrite Hz, lookup_drop.
      replace (s + L + (i - s - L))%nat with i by lia.
      rewrite (lookup_ge_None_2 x) by lia. by destruct (c !! i).
  - rewrite lookup_app_l by lia. rewrite lookup_take_lt by lia. by destruct (c !! i).
Qed.

Lemma diag_times sh key (d vs : list float) (L : nat) :
  diag_length sh key = Z.of_nat L -> (0 < L)%nat -> length vs = L ->
  (length d = 1%nat \/ length d = L) ->
  exists a x,
    sp_diag sh key d = Ok a /\ length a = L /\
    broadcast2 PrimFloat.mul d vs = Ok x /\ length x = L /\
    forall p, x !! p = match a !! p, vs !! p with
                       | Some u, Some w => Some (u * w)%float
                       | _, _ => None
                       end.
Proof.
  intros HL Hpos Hvs Hd. unfold sp_diag, broadcast2. rewrite HL.
  destruct (Z.ltb_spec (Z.of_nat L) 0) as [|_]; [lia|]. rewrite Nat2Z.id.
  destruct (decide (length d = L)) as [E|E].
  - rewrite take_ge by lia. rewrite decide_True by done.
    rewrite decide_True by lia. exists d, (zip_with PrimFloat.mul d vs).
    split; [done|]. split; [done|]. split; [done|]. split.
    + rewrite length_zip_with. lia.
    + intros p. rewrite lookup_zip_with.
      destruct (d !! p), (vs !! p); done.
  - destruct Hd as [Hd|Hd]; [|done].
    destruct d as [|y [|z d]]; simpl in Hd, E; try lia.
    rewrite take_ge by (simpl; lia). rewrite decide_False by (simpl; lia).
    rewrite decide_False by (simpl; lia).
    exists (replicate L y), (map (PrimFloat.mul y) vs).
    split; [done|]. split; [by rewrite length_replicate|]. split; [done|].
    split; [by rewrite length_map|].
    intros p. change (map (PrimFloat.mul y) vs) with (PrimFloat.mul y <$> vs).
    rewrite list_lookup_fmap.
    destruct (vs !! p) as [w|] eqn:Ew; simpl.
    + apply lookup_lt_Some in Ew. rewrite lookup_replicate_2 by lia. done.
    + by destruct (replicate L y !! p).
Qed.

Lemma py_index_nonneg (i : Z) (len : nat) :
  0 <= i -> py_index i len = Z.to_nat (Z.min i (Z.of_nat len)).
Proof. intros H. unfold py_index. destruct (Z.ltb_spec i 0); [lia|done]. Qed.

Lemma matvec_step h (N M : nat) (v c : list float) key val :
  fits h (N, M) (key, val) -> length v = M -> length c = N ->
  exists a c',
    sp_diag (N, M) key (dentries h val) = Ok a /\
    (if key <? 0 then
       let+ x := broadcast2 PrimFloat.mul (dentries h val)
                   (py_slice 0 (Z.min (Z.of_nat M) (Z.of_nat N + key)) v) in
       iadd_slice (- key) (Z.min (Z.of_nat N) (Z.of_nat M - key)) c x
     else
       let+ x := broadcast2 PrimFloat.mul (dentries h val)
                   (py_slice key (Z.min (Z.of_nat M) (Z.of_nat N + key)) v) in
       iadd_slice 0 (Z.min (Z.of_nat N) (Z.of_nat M - key)) c x) = Ok c' /\
    c' = imap (fun i ci => match row_term v i key a with
                           | Some t => (ci + t)%float
                           | None => ci
                           end) c.
Proof.
  intros [Hin Hlen] Hv Hc. simpl in Hin, Hlen.
  assert (Hlo : - Z.of_nat N < key < Z.of_nat M /\ 0 < Z.of_nat N /\ 0 < Z.of_nat M).
  { unfold diag_length in Hin. simpl in Hin. lia. }
  set (L := Z.to_nat (diag_length (N, M) key)).
  assert (HL : diag_length (N, M) key = Z.of_nat L).
  { subst L. unfold diag_length. simpl. lia. }
  assert (Hpos : (0 < L)%nat).
  { subst L. unfold diag_length. simpl. lia. }
  assert (HLv : Z.of_nat L = Z.min (Z.of_nat N + key) (Z.of_nat M - key) `min`
                             Z.min (Z.of_nat N) (Z.of_nat M)).
  { rewrite <- HL. done. }
  set (s := Z.to_nat (Z.max 0 (- key))). set (v0 := Z.to_nat (Z.max 0 key)).
  set (vs := take L (drop v0 v)).
  assert (Hvs : length vs = L).
  { subst vs. rewrite length_take, length_drop. lia. }
  destruct (diag_times (N, M) key (dentries h val) vs L HL Hpos Hvs)
    as (a & x & Ea & Hla & Ex & Hlx & Hx).
  { destruct Hlen as [?|Hl]; [by left | right; lia]. }
  assert (Hslice : (if key <? 0
                    then py_slice 0 (Z.min (Z.of_nat M) (Z.of_nat N + key)) v
                    else py_slice key (Z.min (Z.of_nat M) (Z.of_nat N + key)) v) = vs).
  { subst vs v0. unfold py_slice. rewrite Hv.
    destruct (Z.ltb_spec key 0).
    - rewrite !py_index_nonneg by lia. f_equal; [lia|]. f_equal. lia.
    - rewrite !py_index_nonneg by lia. f_equal; [lia|]. f_equal. lia. }
  assert (Hadd : (if key <? 0
                  then iadd_slice (- key) (Z.min (Z.of_nat N) (Z.of_nat M - key)) c x
                  else iadd_slice 0 (Z.min (Z.of_nat N) (Z.of_nat M - key)) c x) =
                 Ok (take s c ++ zip_with PrimFloat.add (take L (drop s c)) x ++
                     drop (s + L) c)).
  { subst s. unfold iadd_slice. rewrite Hc.
    destruct (Z.ltb_spec key 0).
    - rewrite !py_index_nonneg by lia.
      replace (Z.to_nat (Z.min (Z.of_nat N) (Z.of_nat M - key) `min` Z.of_nat N) -
               Z.to_nat (Z.min (- key) (Z.of_nat N)))%nat with L by lia.
      replace (Z.to_nat (Z.min (- key) (Z.of_nat N))) with (Z.to_nat (Z.max 0 (- key))) by lia.
      assert (Hseg : length (take L (drop (Z.to_nat (Z.max 0 (- key))) c)) = L).
      { rewrite length_take, length_drop. lia. }
      rewrite Hseg. by rewrite decide_True by done.
    - rewrite !py_index_nonneg by lia.
      replace (Z.to_nat (Z.min (Z.of_nat N) (Z.of_nat M - key) `min` Z.of_nat N) -
               Z.to_nat (Z.min 0 (Z.of_nat N)))%nat with L by lia.
      replace (Z.to_nat (Z.min 0 (Z.of_nat N))) with (Z.to_nat (Z.max 0 (- key))) by lia.
      assert (Hseg : length (take L (drop (Z.to_nat (Z.max 0 (- key))) c)) = L).
      { rewrite length_take, length_drop. lia. }
      rewrite Hseg. by rewrite decide_True by done. }
  exists a. eexists. split; [done|]. split.
  { destruct (key <? 0); rewrite Hslice, Ex; simpl; exact Hadd. }
  apply list_eq. intros i.
  rewrite segment_update by (try done; subst s; lia).
  rewrite list_lookup_imap.
  destruct (c !! i) as [ci|] eqn:Ec; [simpl|done]. f_equal.
  apply lookup_lt_Some in Ec.
  assert (Hterm : (if decide (s <= i)%nat then x !! (i - s)%nat else None) =
                  row_term v i key a); [|by rewrite Hterm].
  unfold row_term. destruct (decide (s <= i)%nat) as [Hsi|Hsi].
  - destruct (Z.leb_spec 0 (Z.of_nat i + key)) as [Hj|Hj]; [|subst s; lia].
    rewrite Hx. subst vs. 
    replace (Nat.min i (Z.to_nat (Z.of_nat i + key))) with (i - s)%nat by (subst s; lia).
    destruct (a !! (i - s)%nat) as [u|] eqn:Eu; [|done].
    apply lookup_lt_Some in Eu.
    rewrite lookup_take_lt by lia. rewrite lookup_drop.
    replace (v0 + (i - s))%nat with (Z.to_nat (Z.of_nat i + key)) by (subst v0 s; lia).
    done.
  - destruct (Z.leb_spec 0 (Z.of_nat i + key)) as [Hj|Hj]; [subst s; lia|done].
Qed.

Lemma matvec_items_spec h (N M : nat) v todo : forall c,
  length v = M -> length c = N -> Forall (fits h (N, M)) todo ->
  exists D,
    sp_diags_rows h (N, M) todo = Ok D /\
    matvec_items h (Z.of_nat N) (Z.of_nat M) v todo c =
      Ok (imap (fun i ci => row_sum v D i ci) c).
Proof.
  induction todo as [|[key val] todo IH]; intros c Hv Hc Hf.
  - exists []. split; [done|]. simpl. f_equal. apply list_eq. intros i.
    rewrite list_lookup_imap. by destruct (c !! i).
  - apply Forall_cons in Hf as [Hkv Hf].
    destruct (matvec_step h N M v c key val Hkv Hv Hc) as (a & c' & Ea & Ec & Hc').
    destruct (IH c' Hv) as (D & ED & EM); [by rewrite Hc', length_imap | done |].
    exists ((key, a) :: D). simpl. rewrite Ea, ED. split; [done|].
    rewrite Ec. simpl. rewrite EM. f_equal. apply list_eq. intros i.
    rewrite Hc', !list_lookup_imap. by destruct (c !! i).
Qed.

(** X14: the product [matvec(v, c, format='python')] of a matrix with a
    1-D array.  For a matrix whose stored diagonals fit their offsets, an
    array [v] with as many entries as the matrix has columns and an output
    array [c] with as many entries as it has rows, the call returns; entry
    [i] of the result is, for the diagonals in the order in which they are
    stored, the sum from zero of the products of the entry [(i, j)] of the
    diagonal, as [scipy.sparse.diags] lays it out, with [v[j]], multiplied
    at the end by the scale of the matrix. *)
Theorem matvec_python_rows h A v c :
  Forall (fits h (shape A)) (_storage A) ->
  length v = snd (shape A) -> length c = fst (shape A) ->
  exists D,
    sp_diags_rows h (shape A) (_storage A) = Ok D /\
    matvec_python h A v c =
      Ok (map (fun i => (row_sum v D i 0 * scale A)%float) (seq 0 (fst (shape A)))).
Proof.
  intros Hf Hv Hc. destruct (shape A) as [N M] eqn:Es. simpl in *.
  destruct (matvec_items_spec h N M v (_storage A) (map (fun _ => 0%float) c) Hv)
    as (D & ED & EM); [by rewrite length_map | done |].
  exists D. split; [done|]. unfold matvec_python. rewrite Es. simpl. rewrite EM. simpl.
  f_equal. apply list_eq. intros i.
  change (map ?f ?l) with (f <$> l). rewrite !list_lookup_fmap, list_lookup_imap.
  rewrite list_lookup_fmap.
  destruct (decide (i < N)%nat) as [Hi|Hi].
  - rewrite lookup_seq_lt by done.
    destruct (lookup_lt_is_Some_2 c i ltac:(lia)) as [ci Eci]. rewrite Eci. done.
  - rewrite lookup_seq_ge by lia. rewrite (lookup_ge_None_2 c) by lia. done.
Qed.

(** ** The check of a matrix against the dense matrix *)

(** The diagonals that [extract_diagonal_matrix] stores, by offset. *)
Lemma extract_diagonal_matrix_lookup D abstol reltol h :
  dense_wf D -> (0 < fst (dshape D))%nat -> (0 < snd (dshape D))%nat ->
  exists S t,
    extract_diagonal_matrix D abstol reltol h = Ok (S, h ++ t) /\
    forall k : Z,
      __getitem__ S k =
      (if retained D abstol reltol k
       then Ok (default (Scalar 0) (dict_get k (_storage S)))
       else Raise KeyError) /\
      (retained D abstol reltol k = true ->
       dentries (h ++ t) (default (Scalar 0) (dict_get k (_storage S))) = diagonal D k).
Proof.
  intros Hwf Hr Hc. unfold extract_diagonal_matrix.
  assert (Hg : exists g, abs_max (concat (drows D)) = Ok g).
  { destruct Hwf as [Hl Hf]. destruct (drows D) as [|r0 rs] eqn:E; [simpl in Hl; lia|].
    inversion Hf as [|? ? Hr0 _]; subst. destruct r0 as [|x r0]; [simpl in Hr0; lia|].
    simpl. unfold abs_max. simpl. eauto. }
  destruct Hg as [g Hg]. unfold bind at 1, lift. rewrite Hg.
  destruct (extract_loop_spec D abstol reltol g Z.of_nat Nat2Z.inj
              (seq 0 (snd (dshape D))) [] h) as (d1 & t1 & E1 & P1 & Q1).
  { apply NoDup_seq. }
  { intros i Hi%elem_of_seq. apply diagonal_in_range; [done|done|done|lia]. }
  unfold bind at 1. rewrite E1.
  destruct (extract_loop_spec D abstol reltol g (fun i => - Z.of_nat i)
              ltac:(cbv beta; intros i j; lia)
              (seq 1 (fst (dshape D) - 1)) d1 (h ++ t1)) as (d2 & t2 & E2 & P2 & Q2).
  { apply NoDup_seq. }
  { intros i Hi%elem_of_seq. apply diagonal_in_range; [done|done|done|lia]. }
  unfold bind. rewrite E2. simpl.
  exists (SparseMatrix_new d2 (dshape D) 1%float), (t1 ++ t2).
  rewrite app_assoc. split; [done|].
  intros k. unfold __getitem__. simpl. unfold retained. rewrite Hg.
  change (match abs_max (diagonal D k) with
          | Ok m => (abstol <? m)%float && (reltol <? m / g)%float
          | Raise _ => false
          end) with (keepb abstol reltol g (diagonal D k)).
  destruct (keepb abstol reltol g (diagonal D k)) eqn:Ek.
  - assert (Hin : - Z.of_nat (fst (dshape D)) < k < Z.of_nat (snd (dshape D))).
    { destruct (decide (- Z.of_nat (fst (dshape D)) < k < Z.of_nat (snd (dshape D)))); [done|].
      rewrite diagonal_out_of_range in Ek by (done || lia). done. }
    assert (Hl : exists l, dict_get k d2 = Some (Arr l) /\
                           harr ((h ++ t1) ++ t2) l = diagonal D k).
    { destruct (decide (0 <= k)) as [Hk|Hk].
      - destruct (P1 (Z.to_nat k)) as (l & Hl & Hlt & Hh).
        { apply elem_of_seq. lia. } { by rewrite Z2Nat.id. }
        rewrite Z2Nat.id in * by done.
        exists l. split.
        + rewrite Q2; [done|]. intros i Hi%elem_of_seq. lia.
        + by rewrite harr_app.
      - destruct (P2 (Z.to_nat (- k))) as (l & Hl & Hlt & Hh).
        { apply elem_of_seq. lia. }
        { rewrite Z2Nat.id by lia. by rewrite Z.opp_involutive. }
        rewrite Z2Nat.id, Z.opp_involutive in * by lia.
        exists l. done. }
    destruct Hl as (l & -> & Hh). simpl. split; [done|]. by intros _.
  - rewrite Q2, Q1; [|intros i _ <-; done|intros i _ <-; done]. simpl. by split.
Qed.

Lemma check_items_spec h h' A D Dsp todo :
  (forall k,
     __getitem__ Dsp k =
     (if retained D 1e-10 1e-10 k
      then Ok (default (Scalar 0) (dict_get k (_storage Dsp)))
      else Raise KeyError) /\
     (retained D 1e-10 1e-10 k = true ->
      dentries h' (default (Scalar 0) (dict_get k (_storage Dsp))) = diagonal D k)) ->
  Forall (fun p => dentries h' (snd p) = dentries h (snd p)) todo ->
  (check_items h' A Dsp todo = Ok tt <-> Forall (sane h A D) todo) /\
  (forall pre k v rest, todo = pre ++ (k, v) :: rest -> Forall (sane h A D) pre ->
     retained D 1e-10 1e-10 k = false -> check_items h' A Dsp todo = Raise KeyError).
Proof.
  intros HD. induction todo as [|[key val] todo IH]; intros Hd.
  - split; [split; [constructor|done]|]. intros [|? ?] ? ? ? E; discriminate E.
  - apply Forall_cons in Hd as [Hv Hd]. simpl in Hv.
    destruct (IH Hd) as [IH1 IH2]. destruct (HD key) as [Hget Hent]. simpl.
    rewrite Hget, Hv. split.
    + rewrite Forall_cons. unfold sane at 1. simpl.
      destruct (retained D 1e-10 1e-10 key); simpl.
      * rewrite Hent by done.
        destruct (allclose _ (diagonal D key)) as [[]|e]; simpl.
        -- rewrite IH1. tauto.
        -- split; [done|]. by intros [[_ ?] _].
        -- split; [done|]. by intros [[_ ?] _].
      * split; [done|]. by intros [[? _] _].
    + intros pre k v rest E Hpre Hk. destruct pre as [|p pre]; simpl in E.
      * injection E as -> -> ->. by rewrite Hk.
      * injection E as <- ->. apply Forall_cons in Hpre as [[Hr Hc] Hpre].
        simpl in Hr, Hc. rewrite Hr. simpl. rewrite Hent by done. rewrite Hc. simpl.
        by apply (IH2 pre k v rest).
Qed.

(** X15: [check_sanity] against the dense matrix [D] of the bases.  The
    check passes exactly when, for every diagonal that [A] stores, the
    offset is one that [extract_diagonal_matrix] retains from [D] and the
    diagonal times the scale of [A] is [allclose] to the diagonal of [D]:
    diagonals of [D] at offsets that [A] does not store are never looked
    at.  When the diagonals before it pass, a stored offset of [A] that is
    not retained from [D] raises [KeyError], whatever [A] holds there. *)
Theorem check_sanity_spec h A D :
  dense_wf D -> (0 < fst (dshape D))%nat -> (0 < snd (dshape D))%nat ->
  locs_valid h (_storage A) ->
  ((exists h', check_sanity A D h = Ok (tt, h')) <-> Forall (sane h A D) (_storage A)) /\
  (forall pre k v rest,
     _storage A = pre ++ (k, v) :: rest -> Forall (sane h A D) pre ->
     retained D 1e-10 1e-10 k = false -> check_sanity A D h = Raise KeyError).
Proof.
  intros Hwf Hr Hc Hv.
  destruct (extract_diagonal_matrix_lookup D 1e-10 1e-10 h Hwf Hr Hc) as (S & t & E & HS).
  unfold check_sanity, bind, lift. rewrite E.
  destruct (check_items_spec h (h ++ t) A D S (_storage A) HS) as [H1 H2].
  { eapply Forall_impl; [exact Hv|]. intros [k v] Hkv. by apply dentries_app. }
  split.
  - rewrite <- H1. destruct (check_items (h ++ t) A S (_storage A)) as [[]|e].
    + split; [done|]. intros _. by eexists.
    + split; [by intros [h' ?] | done].
  - intros pre k v rest Es Hpre Hk. by rewrite (H2 pre k v rest Es Hpre Hk).
Qed.

(** ** The tests of a simplified TPMatrix *)

Lemma simplified_mat_nil ms : forall axis,
  imap (fun i => simplified_mat [] (axis + i)) ms = ms.
Proof.
  induction ms as [|m ms IH]; intros axis; simpl; [done|]. f_equal.
  rewrite <- (IH (S axis)) at 2. apply imap_ext. intros i x _. simpl.
  by replace (axis + S i)%nat with (S axis + i)%nat by lia.
Qed.

Lemma get_simplified_mats h T T' :
  get_simplified h T = Ok T' -> _issimplified T = false ->
  mats T' = imap (simplified_mat (diagonal_axes_of T)) (mats T) /\ space T' = space T.
Proof.
  intros E Hs. unfold get_simplified in E. rewrite Hs, orb_false_r in E.
  destruct (diagonal_axes_of T) as [|a0 dax] eqn:Ed; simpl in E.
  - injection E as <-. split; [|done]. symmetry. apply (simplified_mat_nil (mats T) 0).
  - destruct (simplify_loop _ _ _ _ _ _) as [[ms sc]|e] eqn:E1; [simpl in E|done].
    apply simplify_loop_spec in E1 as (-> & _).
    unfold TPMatrix_new in E. destruct (negb _); [done|]. simpl in E.
    destruct (if (1 <? _)%nat then _ else _) as [sc'|e]; [simpl in E|done].
    destruct (link_pmat _) as [pm|e]; [simpl in E|done].
    by injection E as <-.
Qed.

Lemma isidentity_total h A : isidentity h A = Ok (passes (isidentity h A)).
Proof.
  unfold isidentity, __getitem__.
  destruct (negb (Nat.eqb (__len__ A) 1)); [done|].
  unfold dict_contains. destruct (dict_get 0 (_storage A)); simpl; [|done].
  by destruct (forallb _ _).
Qed.

Lemma mapM_isidentity h ms :
  mapM (isidentity h) ms = Ok (map (fun m => passes (isidentity h m)) ms).
Proof.
  induction ms as [|m ms IH]; simpl; [done|].
  pose proof (isidentity_total h m) as Hm.
  destruct (isidentity h m) as [b|e]; [simpl|done]. by rewrite IH.
Qed.

Lemma forallb_lookup {A} (P : A -> bool) (l : list A) :
  forallb P l = true <-> forall i x, l !! i = Some x -> P x = true.
Proof.
  rewrite forallb_forall. split.
  - intros H i x Hx. apply H. apply list_elem_of_In. by eapply list_elem_of_lookup_2.
  - intros H x Hx%list_elem_of_In. apply list_elem_of_lookup in Hx as [i Hi]. by eapply H.
Qed.

(** A test that every [Identity] passes holds for the simplified matrices
    exactly when the matrices at the non-diagonal axes pass it. *)
Lemma forallb_simplified (P : SparseMatrix -> bool) ms nax n :
  length ms = n -> Forall (fun a => a < n)%nat nax ->
  (forall sh, P (Identity sh 1%float) = true) ->
  forallb P (imap (simplified_mat (setxor1d nax (seq 0 n))) ms) = at_axes P ms nax.
Proof.
  intros Hlen Hax Hid. apply eq_true_iff_eq. unfold at_axes.
  rewrite forallb_lookup, forallb_forall. split.
  - intros H a Ha%list_elem_of_In.
    assert (Han : (a < n)%nat) by (by apply (proj1 (Forall_forall _ _) Hax)).
    destruct (ms !! a) as [m|] eqn:Em; [simpl|done].
    rewrite <- (H a (simplified_mat (setxor1d nax (seq 0 n)) a m)).
    + unfold simplified_mat. rewrite bool_decide_eq_false_2; [done|].
      rewrite setxor1d_elem, elem_of_seq. intros [[_ Hn]|[_ Hn]]; [lia|done].
    + by rewrite list_lookup_imap, Em.
  - intros H i x. rewrite list_lookup_imap.
    destruct (ms !! i) as [m|] eqn:Em; [simpl|done]. intros [= <-].
    unfold simplified_mat. destruct (bool_decide_reflect (i ∈ setxor1d nax (seq 0 n))) as [Hi|Hi];
      [apply Hid|].
    assert (Hin : i ∈ nax).
    { destruct (decide (i ∈ nax)) as [|Hn]; [done|]. exfalso. apply Hi.
      apply setxor1d_elem. right. split; [|done]. apply elem_of_seq.
      apply lookup_lt_Some in Em. lia. }
    specialize (H i (proj1 (list_elem_of_In _ _) Hin)). by rewrite Em in H.
Qed.

(** X16: the tests of a TPMatrix after [get_simplified].  For a TPMatrix
    as its constructor builds it, whose non-diagonal axes are axes of the
    space, the simplified form is diagonal (an identity) exactly when the
    matrices at the non-diagonal axes are diagonal (identities): the
    matrices at the diagonal axes and the scale array, which now holds
    them, are not looked at.  [get_key] gives the same for the two.  So the
    simplified form of a TPMatrix without non-diagonal axes passes
    [isidentity] and [isdiagonal] whatever its matrices and scale hold, and
    its [get_key] raises [AssertionError]. *)
Theorem simplified_tests h ms sp tsp s gi T T' :
  TPMatrix_new ms sp tsp s gi = Ok T ->
  Forall (fun a => a < dimensions sp)%nat (get_nondiagonal_axes sp) ->
  get_simplified h T = Ok T' ->
  TPMatrix_isdiagonal T' = at_axes isdiagonal ms (get_nondiagonal_axes sp) /\
  TPMatrix_isidentity h T' =
    Ok (at_axes (fun m => passes (isidentity h m)) ms (get_nondiagonal_axes sp)) /\
  TPMatrix_get_key T' = TPMatrix_get_key T /\
  (get_nondiagonal_axes sp = [] ->
     TPMatrix_isdiagonal T' = true /\ TPMatrix_isidentity h T' = Ok true /\
     TPMatrix_get_key T' = Raise AssertionError).
Proof.
  unfold TPMatrix_new.
  destruct (Nat.eqb_spec (length ms) (dimensions sp)) as [Hlen|]; [simpl|done].
  intros [= <-] Hax E.
  apply get_simplified_mats in E as [Hm Hsp]; [|done].
  unfold diagonal_axes_of in Hm. simpl in Hm, Hsp.
  assert (Hd : TPMatrix_isdiagonal T' = at_axes isdiagonal ms (get_nondiagonal_axes sp)).
  { unfold TPMatrix_isdiagonal. rewrite Hm. by apply forallb_simplified. }
  assert (Hi : TPMatrix_isidentity h T' =
               Ok (at_axes (fun m => passes (isidentity h m)) ms (get_nondiagonal_axes sp))).
  { unfold TPMatrix_isidentity. rewrite mapM_isidentity. simpl. f_equal.
    rewrite Hm. rewrite <- (forallb_simplified _ ms _ (dimensions sp) Hlen Hax);
      [|intros sh; by vm_compute].
    generalize (imap (simplified_mat (setxor1d (get_nondiagonal_axes sp)
                                              (seq 0 (dimensions sp)))) ms).
    intros l. induction l as [|m l IH]; simpl; [done|]. by rewrite IH. }
  assert (Hk : TPMatrix_get_key T' =
               TPMatrix_get_key (mkTPMatrix ms sp tsp s PmatInt (get_nondiagonal_axes sp)
                                            gi false)).
  { unfold TPMatrix_get_key. rewrite Hsp. simpl.
    destruct (get_nondiagonal_axes sp) as [|a [|b l]] eqn:En; try done.
    apply Forall_cons in Hax as [Ha _].
    rewrite Hm, list_lookup_imap. destruct (ms !! a) as [m|]; [simpl|done].
    unfold simplified_mat. rewrite bool_decide_eq_false_2; [done|].
    rewrite setxor1d_elem, elem_of_seq. intros [[_ Hn]|[_ Hn]]; [lia|].
    apply Hn. by left. }
  split; [done|]. split; [done|]. split; [done|].
  intros Hn. rewrite Hd, Hi, Hk. unfold TPMatrix_get_key. simpl. by rewrite Hn.
Qed.

(** ** The list of matrices shared by the results of arithmetic *)

Lemma simplify_inplace_mats h ms sp tsp s gi T' :
  length ms = dimensions sp -> dimensions sp <> 1%nat ->
  Forall (fun a => a < dimensions sp)%nat (get_nondiagonal_axes sp) ->
  simplify_diagonal_matrices h
    (mkTPMatrix ms sp tsp s PmatInt (get_nondiagonal_axes sp) gi false) = Ok T' ->
  mats T' = imap (simplified_mat (diagonal_axes sp)) ms.
Proof.
  intros Hlen Hd Hax. unfold simplify_diagonal_matrices. simpl.
  set (T := mkTPMatrix ms sp tsp s PmatInt (get_nondiagonal_axes sp) gi false).
  change (diagonal_axes_of T) with (diagonal_axes sp).
  destruct (Nat.eqb_spec (length (diagonal_axes sp)) 0) as [Ed|Ed].
  - apply nil_length_inv in Ed. rewrite Ed. intros [= <-]. symmetry.
    apply (simplified_mat_nil ms 0).
  - pose proof (simplify_loops_agree h T (diagonal_axes sp) ms 0 [] s eq_refl) as Hl.
    simpl in Hl.
    replace (filter (fun x => 0 <= x)%nat (diagonal_axes sp))
      with (diagonal_axes sp) in Hl.
    2:{ symmetry. clear. induction (diagonal_axes sp) as [|x l IH]; [done|].
        rewrite filter_cons, decide_True by lia. by rewrite IH. }
    fold T in Hl. rewrite Hl; [|lia| |apply setxor1d_sorted].
    2:{ apply Forall_forall. intros x Hx. apply setxor1d_elem in Hx as [[Hx _]|[Hx _]].
        - rewrite Hlen. by apply (proj1 (Forall_forall _ _) Hax).
        - apply elem_of_seq in Hx. lia. }
    destruct (simplify_loop h T (diagonal_axes sp) 0 ms s) as [[ms1 sc1]|e] eqn:Ep;
      simpl; [|done].
    apply simplify_loop_spec in Ep as (-> & _).
    destruct (if (1 <? _)%nat then _ else _) as [sc'|e]; [simpl|done].
    destruct (link_pmat _) as [pm|e]; [simpl|done].
    by intros [= <-].
Qed.

(** X17: a TPMatrix made by arithmetic has the list of matrices of its
    left operand.  For an object [o] with as many matrices as its space has
    axes, [o * y] returns, and [o * y], [o + a] and [o - a] return an
    object that is not flagged as simplified and whose list [mats] is the
    list of [o].  When that result is simplified in place (on a space that
    has not exactly one axis), the operand [o] changes with it: its
    matrices at the diagonal axes are replaced by identities, while its
    scale array and its flag stay as they were. *)
Theorem arithmetic_shares_matrices h st o a y :
  length (mats (read st o)) = dimensions (space (read st o)) ->
  dimensions (space (read st o)) <> 1%nat ->
  Forall (fun a => a < dimensions (space (read st o)))%nat
         (get_nondiagonal_axes (space (read st o))) ->
  (exists P, obj___mul__ st o y = Ok P) /\
  forall P,
    obj___mul__ st o y = Ok P \/ obj___add__ h st o a = Ok P \/
    obj___sub__ h st o a = Ok P ->
    mats_at P = mats_at o /\ _issimplified (attrs P) = false /\
    forall P' st',
      obj_simplify_diagonal_matrices h st P = Ok (P', st') ->
      mats (read st' o) = mats (read st' P') /\
      (forall axis mat,
         mats (read st o) !! axis = Some mat ->
         mats (read st' o) !! axis =
         Some (if bool_decide (axis ∈ diagonal_axes (space (read st o)))
               then Identity (shape mat) 1%float else mat)) /\
      tscale (read st' o) = tscale (read st o) /\
      _issimplified (read st' o) = _issimplified (read st o).
Proof.
  simpl. intros Hlen Hd Hax.
  assert (Hnew : forall s P,
            (let+ T := TPMatrix_new (st (mats_at o)) (space (attrs o)) (trialspace (attrs o))
                         s (global_index (attrs o)) in Ok (mkTPobject (mats_at o) T)) = Ok P ->
            P = mkTPobject (mats_at o)
                  (mkTPMatrix (st (mats_at o)) (space (attrs o)) (trialspace (attrs o)) s
                     PmatInt (get_nondiagonal_axes (space (attrs o)))
                     (global_index (attrs o)) false)).
  { intros s P. unfold TPMatrix_new. rewrite Hlen, Nat.eqb_refl. simpl. by intros [= <-]. }
  split.
  { unfold obj___mul__, TPMatrix___mul__, TPMatrix_new. simpl.
    rewrite Hlen, Nat.eqb_refl. simpl. by eexists. }
  intros P HP.
  assert (exists s, P = mkTPobject (mats_at o)
                      (mkTPMatrix (st (mats_at o)) (space (attrs o)) (trialspace (attrs o)) s
                         PmatInt (get_nondiagonal_axes (space (attrs o)))
                         (global_index (attrs o)) false)) as [s ->].
  { destruct HP as [HP|[HP|HP]].
    - eexists. by apply Hnew.
    - unfold obj___add__, TPMatrix___add__ in HP. simpl in HP.
      destruct (TPMatrix___eq__ h _ _) as [[]|e]; [simpl in HP| |]; try done.
      destruct (nd_add _ _) as [s|e]; [simpl in HP|done]. eexists. by apply Hnew.
    - unfold obj___sub__, TPMatrix___sub__ in HP. simpl in HP.
      destruct (TPMatrix___eq__ h _ _) as [[]|e]; [simpl in HP| |]; try done.
      destruct (nd_broadcast _ _ _) as [s|e]; [simpl in HP|done]. eexists. by apply Hnew. }
  simpl. split; [done|]. split; [done|].
  intros P' st'. unfold obj_simplify_diagonal_matrices, read, with_mats. simpl.
  destruct (simplify_diagonal_matrices h _) as [T'|e] eqn:E; [simpl|done].
  intros [= <- <-]. simpl.
  apply simplify_inplace_mats in E; [|done..].
  unfold write. rewrite Nat.eqb_refl. split; [done|]. split; [|done].
  intros axis mat Hm. by rewrite E, list_lookup_imap, Hm.
Qed.

(** ** The objects that [get_simplified_tpmatrices] adds to *)

(** X18: [get_simplified_tpmatrices] works on the objects it is given.  A
    TPMatrix of the list that has something to simplify is never changed:
    its simplified form is a new object.  A TPMatrix that [get_simplified]
    returns as it is (already simplified, or without a diagonal axis) is
    itself put in the result, and an equal TPMatrix that comes later is
    added to it: after the call on two such objects [a] and [b] the
    caller's [a] has the scale [a.scale + b.scale].  When the list holds
    one such object three times, its scale is added to itself twice and
    ends as four times, not three times, the original. *)
Theorem get_simplified_tpmatrices_objects h s :
  (forall tpmats B s',
     Forall (fun a => a < next_id s)%nat tpmats ->
     get_simplified_tpmatrices_obj h s tpmats = Ok (B, s') ->
     forall x, (x < next_id s)%nat ->
       x ∉ tpmats \/ returned_as_is (at_id s x) = false ->
       at_id s' x = at_id s x) /\
  (forall a b sc,
     a <> b ->
     returned_as_is (at_id s a) = true -> returned_as_is (at_id s b) = true ->
     TPMatrix___eq__ h (at_id s b) (at_id s a) = Ok true ->
     TPMatrix___eq__ h (at_id s a) (at_id s b) = Ok true ->
     nd_add (tscale (at_id s a)) (tscale (at_id s b)) = Ok sc ->
     exists s',
       get_simplified_tpmatrices_obj h s [a; b] = Ok ([a], s') /\
       at_id s' a = set_tscale (at_id s a) sc /\ at_id s' b = at_id s b) /\
  (forall a sc2 sc4,
     returned_as_is (at_id s a) = true ->
     TPMatrix___eq__ h (at_id s a) (at_id s a) = Ok true ->
     nd_add (tscale (at_id s a)) (tscale (at_id s a)) = Ok sc2 ->
     nd_add sc2 sc2 = Ok sc4 ->
     exists s',
       get_simplified_tpmatrices_obj h s [a; a; a] = Ok ([a], s') /\
       at_id s' a = set_tscale (at_id s a) sc4).
Proof.
  split; [|split].
  - intros tpmats B s' Hlt. unfold get_simplified_tpmatrices_obj.
    destruct (simplify_objs h s tpmats) as [[A s1]|e] eqn:E1; [simpl|done].
    apply simplify_objs_spec in E1 as (Hn & Hf & HA); [|done].
    destruct A as [|a0 rest]; [done|].
    destruct (add_equal_objs h rest [a0] (at_id s1)) as [[B2 s2]|e] eqn:E2; [simpl|done].
    intros [= <- <-] x Hx Hcase. simpl.
    rewrite (add_equal_objs_frame _ _ _ _ _ _ E2 x); [by apply Hf|].
    simpl. intros Hin. apply (proj1 (Forall_forall _ _) HA) in Hin.
    destruct Hin as [[Hin Hs]|Hge]; [|lia].
    destruct Hcase as [Hn1|Hn2]; [done|congruence].
  - intros a b sc Hab Ha Hb Eba Eab Hsc.
    unfold get_simplified_tpmatrices_obj, simplify_objs.
    rewrite (get_simplified_obj_self h s a Ha). simpl.
    rewrite (get_simplified_obj_self h s b Hb). simpl. rewrite Eba. simpl.
    unfold TPMatrix___iadd__. rewrite Eab. simpl. rewrite Hsc. simpl.
    eexists. split; [done|]. simpl. unfold update. rewrite Nat.eqb_refl.
    split; [done|]. destruct (Nat.eqb_spec b a); [by subst|done].
  - intros a sc2 sc4 Ha Eaa Hsc2 Hsc4.
    assert (Hu : forall T, update (at_id s) a T a = T).
    { intros T. unfold update. by rewrite Nat.eqb_refl. }
    unfold get_simplified_tpmatrices_obj, simplify_objs.
    rewrite (get_simplified_obj_self h s a Ha). simpl.
    rewrite (get_simplified_obj_self h s a Ha). simpl.
    rewrite (get_simplified_obj_self h s a Ha). simpl. rewrite Eaa. simpl.
    unfold TPMatrix___iadd__. rewrite Eaa. simpl. rewrite Hsc2. simpl.
    rewrite !Hu, eq_scale_blind, Eaa. simpl.
    unfold TPMatrix___iadd__. rewrite eq_scale_blind, Eaa. simpl. rewrite Hsc4. simpl.
    eexists. split; [done|]. simpl. unfold update. by rewrite Nat.eqb_refl.
Qed.

(** ** Removal of negligible diagonals *)

Lemma dict_del_app {V} (k : Z) (v : V) (kept rest : dict V) :
  k ∉ dict_keys kept -> dict_del k (kept ++ (k, v) :: rest) = Some (kept ++ rest).
Proof.
  induction kept as [|[a b] kept IH]; simpl.
  - intros _. by rewrite Z.eqb_refl.
  - intros [Hka Hk]%not_elem_of_cons. destruct (Z.eqb_spec k a); [done|].
    by rewrite IH.
Qed.

Lemma del_keys_filter (P : Z * dval -> bool) sh sc c rest : forall kept,
  NoDup (dict_keys (kept ++ rest)) ->
  del_keys (map fst (filter (fun p => P p = true) rest))
           (mkSparseMatrix (kept ++ rest) sh sc c) =
  Ok (mkSparseMatrix (kept ++ filter (fun p => P p = false) rest) sh sc c).
Proof.
  induction rest as [|[k v] rest IH]; intros kept Hnd; [done|].
  rewrite !filter_cons. unfold dict_keys in Hnd. rewrite map_app in Hnd. simpl in *.
  destruct (P (k, v)) eqn:Ep.
  - rewrite decide_True, decide_False by done. simpl. unfold __delitem__. simpl.
    rewrite dict_del_app.
    + simpl. apply IH. unfold dict_keys. rewrite map_app.
      apply NoDup_app in Hnd as (H1 & H2 & H3). apply NoDup_cons in H3 as [_ H3].
      apply NoDup_app. split; [done|]. split; [|done].
      intros x Hx Hx'. apply (H2 x Hx). by right.
    + apply NoDup_app in Hnd as (_ & H2 & _). intros Hin. apply (H2 k Hin). by left.
  - rewrite decide_False, decide_True by (done || congruence).
    specialize (IH (kept ++ [(k, v)])). rewrite <- !app_assoc in IH. simpl in IH.
    apply IH. unfold dict_keys. by rewrite map_app.
Qed.

(** X19: [clean_diagonals], with [a] the product of the matrix and a
    vector of ones.  For a matrix with unique offsets and a product with at
    least one entry, the call returns the matrix without the diagonals
    whose norm divided by the reference size is below [reltol]: the other
    diagonals keep their order and their arrays, and shape, scale and
    class are unchanged; no deletion fails.  The reference size is the
    largest absolute entry of the product divided by the number of
    columns, and 1 when that is zero.  A product without entries raises
    [ValueError]. *)
Theorem clean_diagonals_spec h A a reltol :
  NoDup (__iter__ A) ->
  (a = [] -> clean_diagonals h A a reltol = Raise ValueError) /\
  (a <> [] ->
   exists relmax,
     reference_size A a = Ok relmax /\
     clean_diagonals h A a reltol =
       Ok (set_storage A (filter (fun p => negligible h relmax reltol p = false)
                                 (_storage A)))).
Proof.
  intros Hnd. split.
  - by intros ->.
  - intros Ha. unfold clean_diagonals, reference_size.
    destruct (abs_max a) as [m|e] eqn:Em.
    2:{ destruct a; [done|]. discriminate Em. }
    simpl. eexists. split; [done|].
    destruct A as [d sh sc c]. simpl in *.
    apply (del_keys_filter _ sh sc c d []). exact Hnd.
Qed.

(** ** The further properties on concrete matrices *)

#[local] Ltac compute_decide := apply (bool_decide_unpack _); vm_compute; exact I.

(** X1, witness *)
Lemma setitem_getitem_delitem_witness :
  NoDup (__iter__ M_ex) /\
  __getitem__ (__setitem__ M_ex 1 (Scalar 7%float)) 1 = Ok (Scalar 7%float).
Proof.
  assert (Hnd : NoDup (__iter__ M_ex)) by compute_decide.
  split; [exact Hnd|].
  destruct (setitem_getitem_delitem M_ex 1 (Scalar 7%float) Hnd) as [H _]. exact H.
Defined.

(** X2, witness *)
Lemma get_solver_table_witness :
  dict_keys (_storage S3_ex) ≡ₚ [-2; 0; 2] /\ get_solver [] S3_ex = Ok TDMA.
Proof.
  assert (Hp : dict_keys (_storage S3_ex) ≡ₚ [-2; 0; 2]).
  { simpl. etrans; [apply Permutation_swap|]. apply Permutation_skip, Permutation_swap. }
  split; [exact Hp|].
  destruct (get_solver_table [] S3_ex) as (_ & H & _). exact (H Hp).
Defined.



(** X5, witness *)
Lemma add_sub_entries_witness :
  locs_valid h_ex (_storage A1_ex) /\ locs_valid h_ex (_storage B1_ex) /\
  NoDup (dict_keys (_storage A1_ex)) /\ NoDup (dict_keys (_storage B1_ex)) /\
  not_tiny (scale A1_ex) /\ not_tiny (scale B1_ex) /\
  exists f d' t,
    __add__ A1_ex B1_ex h_ex = Ok ((f, d'), h_ex ++ t) /\
    dict_get 0 (resolve (h_ex ++ t) (_storage f)) = Some [3; 3]%float.
Proof.
  assert (HA : locs_valid h_ex (_storage A1_ex)) by (repeat constructor; simpl; lia).
  assert (HB : locs_valid h_ex (_storage B1_ex)) by (repeat constructor; simpl; lia).
  assert (HnA : NoDup (dict_keys (_storage A1_ex))) by compute_decide.
  assert (HnB : NoDup (dict_keys (_storage B1_ex))) by compute_decide.
  assert (HtA : not_tiny (scale A1_ex)) by reflexivity.
  assert (HtB : not_tiny (scale B1_ex)) by reflexivity.
  repeat (split; [assumption|]).
  destruct (add_sub_entries false h_ex A1_ex B1_ex HA HB HnA HnB HtA HtB) as [H _].
  destruct H as (f & d' & t & E & _ & _ & _ & Hk & _).
  - intros k a b. simpl. destruct (k =? 0); [|discriminate].
    intros [= <-] [= <-]. by eexists.
  - exists f, d', t. split; [exact E|].
    specialize (Hk 0).
    assert (E0 : combine_entry false (dict_get 0 (scaled_entries h_ex A1_ex))
                   (dict_get 0 (scaled_entries h_ex B1_ex)) = Ok (Some [3; 3]%float))
      by reflexivity.
    rewrite E0 in Hk. injection Hk as Hk. symmetry. exact Hk.
Defined.

(** X6, witness *)
Lemma inplace_agrees_witness :
  locs_valid h_ex (_storage A1_ex) /\ locs_valid h_ex (_storage B1_ex) /\
  NoDup (dict_keys (_storage A1_ex)) /\ NoDup (dict_keys (_storage B1_ex)) /\
  shape B1_ex = shape A1_ex /\ not_tiny (scale A1_ex) /\ not_tiny (scale B1_ex) /\
  match __add__ A1_ex B1_ex h_ex, __iadd__ A1_ex B1_ex h_ex with
  | Ok ((f, d1), h1), Ok ((A', d2), h2) =>
      resolve h2 (_storage A') = resolve h1 (_storage f) /\
      shape A' = shape f /\ scale A' = scale f /\ cls A' = cls A1_ex /\
      resolve h2 (_storage d2) = resolve h1 (_storage d1) /\
      shape d2 = shape d1 /\ scale d2 = scale d1 /\ cls d2 = cls d1
  | Raise e1, Raise e2 => e1 = e2
  | _, _ => False
  end.
Proof.
  assert (HA : locs_valid h_ex (_storage A1_ex)) by (repeat constructor; simpl; lia).
  assert (HB : locs_valid h_ex (_storage B1_ex)) by (repeat constructor; simpl; lia).
  assert (HnA : NoDup (dict_keys (_storage A1_ex))) by compute_decide.
  assert (HnB : NoDup (dict_keys (_storage B1_ex))) by compute_decide.
  assert (Hs : shape B1_ex = shape A1_ex) by reflexivity.
  assert (HtA : not_tiny (scale A1_ex)) by reflexivity.
  assert (HtB : not_tiny (scale B1_ex)) by reflexivity.
  repeat (split; [assumption|]).
  exact (inplace_agrees false h_ex A1_ex B1_ex HA HB HnA HnB Hs HtA HtB).
Defined.

(** X7, witness *)
Lemma inplace_guards_witness :
  shape M_ex <> shape A1_ex /\ __iadd__ A1_ex M_ex h_ex = Raise AssertionError.
Proof.
  assert (Hs : shape M_ex <> shape A1_ex) by discriminate.
  split; [exact Hs|].
  destruct (inplace_guards false h_ex A1_ex M_ex) as [H _]. exact (H Hs).
Defined.

(** X8, witness *)
Lemma simplify_inplace_agrees_witness :
  TPMatrix_new [F_ex; M_ex] sp_ex sp_ex (Node [Node [Leaf 1%float]]) None =
    Ok (T_ex 1 None) /\
  Forall (fun a => a < dimensions sp_ex)%nat (get_nondiagonal_axes sp_ex) /\
  simplify_diagonal_matrices h_tp (T_ex 1 None) = get_simplified h_tp (T_ex 1 None).
Proof.
  assert (Hn : TPMatrix_new [F_ex; M_ex] sp_ex sp_ex (Node [Node [Leaf 1%float]]) None =
               Ok (T_ex 1 None)) by reflexivity.
  assert (Ha : Forall (fun a => a < dimensions sp_ex)%nat (get_nondiagonal_axes sp_ex)).
  { repeat constructor. }
  split; [exact Hn|]. split; [exact Ha|].
  destruct (simplify_inplace_agrees h_tp _ _ _ _ _ _ Hn Ha) as [H _].
  apply H. discriminate.
Defined.


(** X10, witness *)
Lemma contains_by_get_mats_witness :
  get_mats (mkBlockMatrix [[CellNumber 0]] false) = [] /\
  contains_bc_matrix (mkBlockMatrix [[CellNumber 0]] false) = false /\
  contains_regular_matrix (mkBlockMatrix [[CellNumber 0]] false) = false.
Proof.
  assert (Hg : get_mats (mkBlockMatrix [[CellNumber 0]] false) = []) by reflexivity.
  split; [exact Hg|].
  destruct (contains_by_get_mats (mkBlockMatrix [[CellNumber 0]] false)) as (_ & _ & H & _).
  exact (H Hg).
Defined.

(** X11, witness *)
Lemma extract_bc_matrices_partition_witness :
  Forall objects [objs_ex] /\ Forall (bc_distinct h_tp) [objs_ex] /\
  extract_bc_matrices h_tp [objs_ex] =
  Ok ([[(0%nat, T_ex 1 None)]], [(1%nat, Tbc_ex)]).
Proof.
  assert (Ho : Forall objects [objs_ex]).
  { constructor; [|constructor]. intros x y Hx Hy.
    repeat (apply elem_of_cons in Hx as [->|Hx]); [| |by apply elem_of_nil in Hx];
      repeat (apply elem_of_cons in Hy as [->|Hy]); try (by apply elem_of_nil in Hy);
      simpl; intros E; first [reflexivity | discriminate E]. }
  assert (Hd : Forall (bc_distinct h_tp) [objs_ex]).
  { constructor; [|constructor]. intros x b Hx Hb.
    repeat (apply elem_of_cons in Hx as [->|Hx]); [| |by apply elem_of_nil in Hx];
      repeat (apply elem_of_cons in Hb as [->|Hb]); try (by apply elem_of_nil in Hb);
      vm_compute; intros E1 E2; first [reflexivity | discriminate E1 | discriminate E2]. }
  split; [exact Ho|]. split; [exact Hd|].
  rewrite (extract_bc_matrices_partition h_tp [objs_ex] Ho Hd). reflexivity.
Defined.

(** X12, witness *)
Lemma BlockMatrices_one_kind_witness :
  [(1%nat, Tbc_ex)] <> [] /\ Forall is_bc [(1%nat, Tbc_ex)] /\
  BlockMatrices base_ex h_tp [(1%nat, Tbc_ex)] = Raise IndexError.
Proof.
  assert (Hne : [(1%nat, Tbc_ex)] <> []) by discriminate.
  assert (Hb : Forall is_bc [(1%nat, Tbc_ex)]) by (repeat constructor).
  split; [exact Hne|]. split; [exact Hb|].
  destruct (BlockMatrices_one_kind base_ex h_tp [(1%nat, Tbc_ex)]) as [_ H].
  exact (H Hne Hb).
Defined.


(** X14, witness *)
Lemma matvec_python_rows_witness :
  Forall (fits [] (shape L3_ex)) (_storage L3_ex) /\
  exists D,
    sp_diags_rows [] (shape L3_ex) (_storage L3_ex) = Ok D /\
    matvec_python [] L3_ex [1; 2; 3; 4]%float [9; 9; 9; 9]%float =
      Ok (map (fun i => (row_sum [1; 2; 3; 4]%float D i 0 * scale L3_ex)%float)
              (seq 0 (fst (shape L3_ex)))).
Proof.
  assert (Hf : Forall (fits [] (shape L3_ex)) (_storage L3_ex)).
  { repeat constructor; vm_compute; reflexivity. }
  split; [exact Hf|].
  exact (matvec_python_rows [] L3_ex [1; 2; 3; 4]%float [9; 9; 9; 9]%float
           Hf eq_refl eq_refl).
Defined.

(** X15, witness *)
Lemma check_sanity_spec_witness :
  dense_wf D_ex /\ locs_valid h_sane (_storage A_sane) /\
  Forall (sane h_sane A_sane D_ex) (_storage A_sane) /\
  exists h', check_sanity A_sane D_ex h_sane = Ok (tt, h').
Proof.
  assert (Hw : dense_wf D_ex) by (split; [reflexivity | repeat constructor]).
  assert (Hv : locs_valid h_sane (_storage A_sane)) by (repeat constructor).
  assert (Hs : Forall (sane h_sane A_sane D_ex) (_storage A_sane)).
  { repeat constructor; vm_compute; reflexivity. }
  split; [exact Hw|]. split; [exact Hv|]. split; [exact Hs|].
  destruct (check_sanity_spec h_sane A_sane D_ex Hw ltac:(simpl; lia) ltac:(simpl; lia) Hv)
    as [H _].
  exact (proj2 H Hs).
Defined.

(** X16, witness *)
Lemma simplified_tests_witness :
  TPMatrix_new [F0_ex] sp0_ex sp0_ex (Node [Leaf 0.5%float; Leaf 0%float]) None = Ok T0_ex /\
  get_simplified h_tp T0_ex = Ok T0s_ex /\
  TPMatrix_isidentity h_tp T0_ex = Ok false /\
  TPMatrix_isidentity h_tp T0s_ex = Ok true.
Proof.
  assert (En : TPMatrix_new [F0_ex] sp0_ex sp0_ex (Node [Leaf 0.5%float; Leaf 0%float]) None
               = Ok T0_ex) by reflexivity.
  assert (Es : get_simplified h_tp T0_ex = Ok T0s_ex) by reflexivity.
  split; [exact En|]. split; [exact Es|]. split; [reflexivity|].
  destruct (simplified_tests h_tp _ _ _ _ _ _ _ En ltac:(constructor) Es) as (_ & _ & _ & H).
  exact (proj1 (proj2 (H eq_refl))).
Defined.

(** X17, witness *)
Lemma arithmetic_shares_matrices_witness :
  obj___mul__ st_ex o_ex 2 = Ok P_ex /\
  exists P' st',
    obj_simplify_diagonal_matrices h_tp st_ex P_ex = Ok (P', st') /\
    mats (read st_ex o_ex) = [F_ex; M_ex] /\
    mats (read st' o_ex) !! 0%nat = Some (Identity (2%nat, 2%nat) 1%float) /\
    tscale (read st' o_ex) = tscale (read st_ex o_ex).
Proof.
  assert (E1 : obj___mul__ st_ex o_ex 2 = Ok P_ex) by reflexivity.
  split; [exact E1|].
  destruct (obj_simplify_diagonal_matrices h_tp st_ex P_ex) as [[P' st']|e] eqn:E2;
    [|discriminate E2].
  exists P', st'. split; [reflexivity|]. split; [reflexivity|].
  destruct (arithmetic_shares_matrices h_tp st_ex o_ex o_ex 2 eq_refl
              ltac:(discriminate) ltac:(repeat constructor)) as [_ H].
  destruct (H P_ex (or_introl E1)) as (_ & _ & H2).
  destruct (H2 P' st' E2) as (_ & Hm & Hs & _).
  split; [exact (Hm 0%nat F_ex eq_refl) | exact Hs].
Defined.

(** X18, witness *)
Lemma get_simplified_tpmatrices_objects_witness :
  exists sc s',
    nd_add (tscale T1s_ex) (tscale T2s_ex) = Ok sc /\
    get_simplified_tpmatrices_obj h_tp objstore_ex [0; 1]%nat = Ok ([0%nat], s') /\
    at_id s' 0%nat = set_tscale T1s_ex sc /\ at_id s' 1%nat = T2s_ex.
Proof.
  destruct (nd_add (tscale T1s_ex) (tscale T2s_ex)) as [sc|e] eqn:Esc; [|discriminate Esc].
  destruct (get_simplified_tpmatrices_objects h_tp objstore_ex) as (_ & H & _).
  destruct (H 0%nat 1%nat sc ltac:(discriminate) eq_refl eq_refl eq_refl eq_refl Esc)
    as (s' & E & Ha & Hb).
  exists sc, s'. split; [reflexivity|]. split; [exact E|]. split; [exact Ha | exact Hb].
Defined.

(** X19, witness *)
Lemma clean_diagonals_spec_witness :
  NoDup (__iter__ C_ex) /\
  clean_diagonals h_ex C_ex [1; 1]%float 1e-8 = Ok A1_ex.
Proof.
  assert (Hnd : NoDup (__iter__ C_ex)).
  { apply (bool_decide_unpack _). vm_compute. exact I. }
  split; [exact Hnd|].
  destruct (clean_diagonals_spec h_ex C_ex [1; 1]%float 1e-8 Hnd) as [_ H].
  destruct (H ltac:(discriminate)) as (relmax & Hr & Hc).
  assert (E : reference_size C_ex [1; 1]%float = Ok 0.5%float) by reflexivity.
  rewrite E in Hr. injection Hr as <-. rewrite Hc. reflexivity.
Defined.
